(** * CEG Connect backend: a shallow embedding of the route handlers

    The Express handlers of [routes/auth.js], [routes/communities.js],
    [routes/groups.js], [routes/posts.js] and [routes/users.js] are written
    as functions that take the request, the readings of the environment
    (clock, random source, outcome of the calls to the mail transport and to
    the identity provider) and the store, and return the response together
    with the store after the call.

    Conventions.
    - A JavaScript string is a [string]: a sequence of code units below 256.
    - A Number is a rational, and arithmetic on Numbers rounds to binary64.
    - A request field is an [option string]: [None] is [undefined].
    - Instants are milliseconds since the epoch, in [Z].
    - A promise that rejects (a call that throws) is [None] or [false]. *)

From Stdlib Require Import Ascii String ZArith QArith Qround Lia Lqa SpecFloat.
From stdpp Require Import base option list strings gmap fin_maps sorting.

Local Open Scope string_scope.
Local Open Scope Z_scope.

(** ** JavaScript values and responses *)

Module JS.

(** The scalar values that occur in the JSON bodies of the handlers. *)
Inductive jsval :=
| JStr (s : string)
| JNum (n : Z)
| JBool (b : bool).

(** [res.status(code).json(body)]; [res.json(body)] is status 200. *)
Record response := Response {
  status : Z;
  json : list (string * jsval)
}.

Definition message (code : Z) (m : string) : response :=
  Response code [("message", JStr m)].

(** The value of a property of the body of a response. *)
Fixpoint lookup_field (k : string) (o : list (string * jsval)) : option jsval :=
  match o with
  | [] => None
  | (k', v) :: o' => if String.eqb k k' then Some v else lookup_field k o'
  end.

Definition field (k : string) (r : response) : option jsval :=
  lookup_field k (json r).

(** Truthiness of a value that is [undefined] or a string: [!x] is
    [negb (truthy x)]. *)
Definition truthy (x : option string) : bool :=
  match x with
  | None => false
  | Some s => negb (String.eqb s "")
  end.

(** [x === undefined] *)
Definition is_undefined {A} (x : option A) : bool :=
  match x with
  | None => true
  | Some _ => false
  end.

(** [x || d] on such a value. *)
Definition or_else (x : option string) (d : string) : string :=
  if truthy x then default d x else d.

(** *** Regular expressions

    The fragment used by the handlers: character classes, literals,
    concatenation and [+]; matching is by derivatives, and [test] is for a
    pattern anchored by [^] and [$]. *)
Inductive regex :=
| Void
| Eps
| Class (p : ascii → bool)
| Seq (r1 r2 : regex)
| Alt (r1 r2 : regex)
| Star (r : regex).

Definition Lit (c : ascii) : regex := Class (Ascii.eqb c).
Definition Plus (r : regex) : regex := Seq r (Star r).

Fixpoint nullable (r : regex) : bool :=
  match r with
  | Void => false
  | Eps => true
  | Class _ => false
  | Seq r1 r2 => nullable r1 && nullable r2
  | Alt r1 r2 => nullable r1 || nullable r2
  | Star _ => true
  end.

Fixpoint deriv (c : ascii) (r : regex) : regex :=
  match r with
  | Void => Void
  | Eps => Void
  | Class p => if p c then Eps else Void
  | Seq r1 r2 =>
      if nullable r1 then Alt (Seq (deriv c r1) r2) (deriv c r2)
      else Seq (deriv c r1) r2
  | Alt r1 r2 => Alt (deriv c r1) (deriv c r2)
  | Star r1 => Seq (deriv c r1) (Star r1)
  end.

Fixpoint test (r : regex) (s : string) : bool :=
  match s with
  | EmptyString => nullable r
  | String c s' => test (deriv c r) s'
  end.

(** [\s], on code units below 256: tab, line feed, vertical tab, form
    feed, carriage return, space and no-break space. *)
Definition is_space (c : ascii) : bool :=
  let n := nat_of_ascii c in
  ((9 <=? n)%nat && (n <=? 13)%nat) || (n =? 32)%nat || (n =? 160)%nat.

(** *** [Number.prototype.toString] on an integer *)

Definition digit_char (d : Z) : ascii := ascii_of_nat (48 + Z.to_nat d).

Fixpoint digits (fuel : nat) (n : Z) (acc : string) : string :=
  match fuel with
  | O => acc
  | S fuel' =>
      let acc' := String (digit_char (n mod 10)) acc in
      if n / 10 =? 0 then acc' else digits fuel' (n / 10) acc'
  end.

Definition Number_toString (n : Z) : string :=
  if n <? 0 then String "-" (digits (S (Z.to_nat (Z.log2 (- n)))) (- n) "")
  else digits (S (Z.to_nat (Z.log2 n))) n "".

(** *** Arithmetic on Numbers

    A Number that is finite is a rational, and [x * y] and [x + y] are the
    exact product and sum rounded to the nearest binary64 value, a tie going
    to the value whose significand is even. Counted in units of [2^-1074],
    the least positive value, the binary64 values that are not negative are
    the whole numbers [n * 2^sh] with [n < 2^53]: [spacing y] is the step
    [2^sh] between the values around [y], and [round64_pos] takes the
    nearest multiple of it. [round64] is for magnitudes below [2^1024],
    where binary64 does not overflow. *)
Definition round_ties_even (y : Q) : Z :=
  let f := Qfloor y in
  match (y - inject_Z f ?= 1 # 2)%Q with
  | Lt => f
  | Gt => f + 1
  | Eq => if Z.even f then f else f + 1
  end.

Definition spacing (y : Q) : Z := 2 ^ Z.max (Z.log2 (Qfloor y) - 52) 0.

Definition round64_pos (x : Q) : Q :=
  let y := (x * inject_Z (2 ^ 1074))%Q in
  let s := spacing y in
  (inject_Z (round_ties_even (y / inject_Z s) * s) / inject_Z (2 ^ 1074))%Q.

Definition round64 (x : Q) : Q :=
  if Qle_bool 0 x then round64_pos x else (- round64_pos (- x))%Q.

(** [x] is a binary64 value. *)
Definition is_binary64 (x : Q) : bool := Qeq_bool (round64 x) x.

(** *** What a pattern matches

    The strings of a pattern, as the grammar of regular expressions gives
    them; [test] decides this relation. *)
Inductive matches : regex → string → Prop :=
| matches_Eps : matches Eps ""
| matches_Class p c : p c = true → matches (Class p) (String c "")
| matches_Seq r1 r2 s1 s2 :
    matches r1 s1 → matches r2 s2 → matches (Seq r1 r2) (s1 +:+ s2)
| matches_Alt_l r1 r2 s : matches r1 s → matches (Alt r1 r2) s
| matches_Alt_r r1 r2 s : matches r2 s → matches (Alt r1 r2) s
| matches_Star_nil r : matches (Star r) ""
| matches_Star_cons r s1 s2 :
    matches r s1 → matches (Star r) s2 → matches (Star r) (s1 +:+ s2).

(** Every code unit of [s] satisfies [p]. *)
Fixpoint all_chars (p : ascii → bool) (s : string) : bool :=
  match s with
  | EmptyString => true
  | String c s' => p c && all_chars p s'
  end.

(** *** Methods of [String.prototype] *)

(** [s.startsWith(p)], returning what follows the prefix. *)
Fixpoint strip_prefix (p s : string) : option string :=
  match p, s with
  | EmptyString, _ => Some s
  | String a p', String b s' => if Ascii.eqb a b then strip_prefix p' s' else None
  | String _ _, EmptyString => None
  end.

(** [s.includes(sub)] *)
Fixpoint String_includes (sub s : string) : bool :=
  match strip_prefix sub s with
  | Some _ => true
  | None =>
      match s with
      | EmptyString => false
      | String _ s' => String_includes sub s'
      end
  end.

(** What follows the first occurrence of [sep] in [s], if there is one. *)
Fixpoint after_first (sep s : string) : option string :=
  match strip_prefix sep s with
  | Some rest => Some rest
  | None =>
      match s with
      | EmptyString => None
      | String _ s' => after_first sep s'
      end
  end.

(** What precedes the first occurrence of [sep] in [s]; all of [s] when
    there is none. *)
Fixpoint before_first (sep s : string) : string :=
  match strip_prefix sep s with
  | Some _ => EmptyString
  | None =>
      match s with
      | EmptyString => EmptyString
      | String c s' => String c (before_first sep s')
      end
  end.

(** [s.split(sep)[1]] for a separator that is not empty: the piece between
    the first and the second occurrence of [sep], [undefined] when [sep]
    does not occur. *)
Definition split_1 (sep s : string) : option string :=
  before_first sep <$> after_first sep s.

(** [c.toLowerCase()] on a code unit below 256: the letters A to Z and the
    capital letters of the upper half (192 to 222, the multiplication sign
    215 excepted) move up by 32. *)
Definition lower_char (c : ascii) : ascii :=
  let n := nat_of_ascii c in
  if ((65 <=? n)%nat && (n <=? 90)%nat)
     || ((192 <=? n)%nat && (n <=? 222)%nat && negb (n =? 215)%nat)
  then ascii_of_nat (n + 32) else c.

(** [s.toLowerCase()] *)
Fixpoint toLowerCase (s : string) : string :=
  match s with
  | EmptyString => EmptyString
  | String c s' => String (lower_char c) (toLowerCase s')
  end.

Fixpoint trimStart (s : string) : string :=
  match s with
  | EmptyString => EmptyString
  | String c s' => if is_space c then trimStart s' else s
  end.

Fixpoint trimEnd (s : string) : string :=
  match s with
  | EmptyString => EmptyString
  | String c s' =>
      let t := trimEnd s' in
      if is_space c && String.eqb t "" then EmptyString else String c t
  end.

(** [s.trim()] *)
Definition trim (s : string) : string := trimEnd (trimStart s).

(** What [trimStart] returns is empty or begins with a code unit that is
    not white space, and [trimStart] leaves such a string as it is. *)
Definition starts_clean (s : string) : bool :=
  match s with
  | EmptyString => true
  | String c _ => negb (is_space c)
  end.

End JS.

(** ** routes/auth.js *)

Module Auth.
Import JS.

(** An entry of [otpStorage]. *)
Record otp_record := OtpRecord {
  otp : string;
  expiresAt : Z;
  attempts : Z
}.

(** [const otpStorage = new Map()], keyed by the email address. *)
Abbreviation otpStorage := (gmap string otp_record).

(** [Math.floor(100000 + Math.random() * 900000).toString()].
    [Math_random] is the value returned by [Math.random()], a binary64
    number in [0, 1); the product and the sum are rounded as binary64
    arithmetic rounds them, and [Math.floor] of the sum, a whole number
    below [2^53], is exact. *)
Definition generateOTP (Math_random : Q) : string :=
  Number_toString
    (Qfloor (round64 (100000 + round64 (Math_random * 900000)))).

(** The codes that the specification speaks of: the fixed-width strings
    of six decimal digits, "000000" to "999999". *)
Definition is_digit (c : ascii) : bool :=
  let n := nat_of_ascii c in (48 <=? n)%nat && (n <=? 57)%nat.

Fixpoint all_digits (s : string) : bool :=
  match s with
  | EmptyString => true
  | String c s' => is_digit c && all_digits s'
  end.

Definition six_digit_code (s : string) : bool :=
  (String.length s =? 6)%nat && all_digits s.

(** The same expression on the bit patterns of binary64, with the
    multiplication and the addition of [SpecFloat] for a 53-bit significand:
    a second reading of the source, against which [generateOTP] is checked
    on sample values. [Math_floor] is for a number that is not negative. *)
Definition binary64_of_Z (n : Z) : spec_float :=
  binary_normalize 53 1024 n 0 false.

Definition Math_floor (x : spec_float) : Z :=
  match x with
  | S754_finite false m e =>
      if e <? 0 then Z.shiftr (Z.pos m) (- e) else Z.shiftl (Z.pos m) e
  | _ => 0
  end.

Definition generateOTP_binary64 (Math_random : spec_float) : string :=
  Number_toString
    (Math_floor
       (SFadd 53 1024 (binary64_of_Z 100000)
          (SFmul 53 1024 Math_random (binary64_of_Z 900000)))).

(** The largest binary64 number below 1: [1 - 2^-53]. *)
Definition below_one : spec_float :=
  S754_finite false 9007199254740991 (-53).

(** The rational that a finite bit pattern stands for. *)
Definition Number_of (x : spec_float) : Q :=
  match x with
  | S754_finite s m e =>
      let v :=
        if e <? 0 then (Z.pos m # Z.to_pos (2 ^ (- e)))%Q
        else inject_Z (Z.pos m * 2 ^ e) in
      if s then (- v)%Q else v
  | _ => 0%Q
  end.

(** [/^[^\s@]+@[^\s@]+\.[^\s@]+$/] *)
Definition not_space_at (c : ascii) : bool :=
  negb (is_space c) && negb (Ascii.eqb c "@").

Definition emailRegex : regex :=
  Seq (Plus (Class not_space_at))
    (Seq (Lit "@")
      (Seq (Plus (Class not_space_at))
        (Seq (Lit ".") (Plus (Class not_space_at))))).

(** The message handed to [transporter.sendMail]. The HTML body is a
    fixed template around the interpolated code, which is what is kept
    of it here. *)
Record mailOptions := MailOptions {
  to : string;
  subject : string;
  html_otp : string
}.

(** [const mailOptions = {...}] *)
Definition mail_of (email otp : string) : mailOptions :=
  MailOptions email "CEG Connect - Your OTP Code" otp.

(** What a run of [send-otp] reads from its environment. [sendMail m] is
    [true] when the promise of [transporter.sendMail(m)] resolves and
    [false] when it rejects. *)
Record send_env := SendEnv {
  Math_random : Q;
  Date_now : Z;
  sendMail : mailOptions → bool
}.

(** [router.post('/send-otp')] *)
Definition send_otp (env : send_env) (email : option string)
    (st : otpStorage) : response * otpStorage :=
  if negb (truthy email) || negb (test emailRegex (default "" email)) then
    (message 400 "Please use a valid email address", st)
  else
    let email := default "" email in
    let otp := generateOTP (Math_random env) in
    let expiresAt := Date_now env + 5 * 60 * 1000 in
    let st := <[email := OtpRecord otp expiresAt 0]> st in
    if sendMail env (mail_of email otp) then
      (Response 200 [("message", JStr "OTP sent successfully");
                     ("expiresIn", JNum 300)], st)
    else
      (message 500 "Failed to send OTP. Please try again.", st).

(** The identity provider ([admin.auth()]), as the outcomes of its calls:
    [None] is a rejected promise. *)
Record auth_provider := AuthProvider {
  getUserByEmail : string → option string;
  createUser : string → option string;
  createCustomToken : string → string → option string
}.

(** The inner [try]/[catch] of [verify-otp]: look the user up by email,
    create it when the lookup throws. *)
Definition get_or_create_user (idp : auth_provider) (email : string)
    : option string :=
  match getUserByEmail idp email with
  | Some uid => Some uid
  | None => createUser idp email
  end.

(** [router.post('/verify-otp')]; [now] is the reading of [new Date()]. *)
Definition verify_otp (idp : auth_provider) (now : Z)
    (email code : option string) (st : otpStorage)
    : response * otpStorage :=
  if negb (truthy email) || negb (truthy code) then
    (message 400 "Email and OTP are required", st)
  else
    let email := default "" email in
    let code := default "" code in
    match st !! email with
    | None => (message 400 "OTP not found or expired", st)
    | Some storedData =>
        if now >? expiresAt storedData then
          (message 400 "OTP has expired", delete email st)
        else if attempts storedData >=? 3 then
          (message 400 "Too many failed attempts. Please request a new OTP.",
           delete email st)
        else if negb (String.eqb (otp storedData) code) then
          let storedData :=
            OtpRecord (otp storedData) (expiresAt storedData)
                      (attempts storedData + 1) in
          (message 400 "Invalid OTP", <[email := storedData]> st)
        else
          match get_or_create_user idp email with
          | None => (message 500 "Failed to create authentication token", st)
          | Some uid =>
              match createCustomToken idp uid email with
              | None =>
                  (message 500 "Failed to create authentication token", st)
              | Some customToken =>
                  (Response 200
                     [("message", JStr "OTP verified successfully");
                      ("token", JStr customToken)],
                   delete email st)
              end
          end
    end.

(** The callback of [setInterval]: every entry whose expiry has passed is
    deleted. *)
Definition cleanup (now : Z) (st : otpStorage) : otpStorage :=
  filter (λ kv, ¬ (now > expiresAt kv.2)) st.

(** The strings that [emailRegex] is written for: a local part, "@", a
    domain, "." and a last part, each part non-empty and free of white
    space and of "@". *)
Definition email_shape (s : string) : Prop :=
  ∃ l d t,
    s = l +:+ "@" +:+ d +:+ "." +:+ t ∧
    (l ≠ "" ∧ d ≠ "" ∧ t ≠ "") ∧
    all_chars not_space_at l = true ∧
    all_chars not_space_at d = true ∧
    all_chars not_space_at t = true.

(** No stored record has counted more than three failed attempts. *)
Definition attempts_bounded (st : otpStorage) : Prop :=
  ∀ email rec, st !! email = Some rec → 0 ≤ attempts rec ≤ 3.

End Auth.

(** ** The document store

    The collections the handlers read and write through [admin.firestore()],
    with the operations of the client that the handlers use. Documents of
    [communities], [groups] and the [posts] sub-collections have the fields
    that the handlers write and the client's interfaces declare; a field the
    handlers read with [?.] is optional. A profile document of [users] is a
    bag of fields. *)

Module Firestore.

(** [Firestore.settings]. The handlers never call [settings], so they run
    with [default_settings]. *)
Record settings := Settings { ignoreUndefinedProperties : bool }.

Definition default_settings : settings := Settings false.

(** The client validates what it is given to write: a field whose value
    is [undefined] is refused (the call throws) unless
    [ignoreUndefinedProperties] is set, in which case the field is left
    out of the write. [accepts cfg undef] tells whether a write goes
    through, [undef] telling whether some field is [undefined]. *)
Definition accepts (cfg : settings) (undef : bool) : bool :=
  ignoreUndefinedProperties cfg || negb undef.

Module community.
Record doc := Doc {
  name : string;
  description : string;
  category : string;
  followers : option (list string);
  admin : string;
  adminName : string;
  createdAt : Z;
  updatedAt : option Z;
  postCount : Z
}.
End community.

Module post.
Record doc := Doc {
  text : option string;
  images : list string;
  author : string;
  authorName : string;
  authorPhoto : option string;
  timestamp : option Z;
  likes : option (list string);
  comments : Z
}.
End post.

Module group.
Record doc := Doc {
  name : string;
  description : string;
  isPrivate : bool;
  members : list string;
  admin : string;
  createdAt : Z;
  updatedAt : Z
}.
End group.

(** A value of a field of a profile document. *)
Inductive value :=
| VNull
| VBool (b : bool)
| VNum (n : Z)
| VStr (s : string)
| VTimestamp (t : Z).

(** The database: [communities/{id}], [communities/{id}/posts/{postId}]
    (a sub-collection lives beside its parent document, not inside it),
    [groups/{id}] and [users/{uid}]. *)
Record db := Db {
  communities : gmap string community.doc;
  posts : gmap (string * string) post.doc;
  groups : gmap string group.doc;
  users : gmap string (gmap string value)
}.

Definition set_communities (m : gmap string community.doc) (d : db) : db :=
  Db m (posts d) (groups d) (users d).
Definition set_posts (m : gmap (string * string) post.doc) (d : db) : db :=
  Db (communities d) m (groups d) (users d).
Definition set_groups (m : gmap string group.doc) (d : db) : db :=
  Db (communities d) (posts d) m (users d).
Definition set_users (m : gmap string (gmap string value)) (d : db) : db :=
  Db (communities d) (posts d) (groups d) m.

(** [Array.prototype.includes] on an array of ids. *)
Definition includes (l : list string) (x : string) : bool :=
  bool_decide (x ∈ l).

(** [arr?.includes(x) || false] *)
Definition includes_opt (l : option (list string)) (x : string) : bool :=
  match l with
  | Some l => includes l x
  | None => false
  end.

(** [FieldValue.arrayUnion(x)]: append [x] unless present; a field that
    is not an array becomes [[x]]. *)
Definition arrayUnion (x : string) (l : option (list string)) : list string :=
  match l with
  | Some l => if includes l x then l else l ++ [x]
  | None => [x]
  end.

(** [FieldValue.arrayRemove(x)]: remove every occurrence of [x]. *)
Definition arrayRemove (x : string) (l : option (list string)) : list string :=
  match l with
  | Some l => filter (λ y, y ≠ x) l
  | None => []
  end.

(** [Array.prototype.sort(cmp)]: the stable sort; [cmp a b] is the number
    the comparator returns ([NaN] counts as [0]). *)
Section sort.
Context {A : Type} (cmp : A → A → Z).

Fixpoint sort_insert (x : A) (l : list A) : list A :=
  match l with
  | [] => [x]
  | y :: l' => if cmp x y <=? 0 then x :: y :: l' else y :: sort_insert x l'
  end.

Definition sort (l : list A) : list A := foldr sort_insert [] l.

(** The order that a comparator stands for: [a] may come before [b]. *)
Definition before (a b : A) : Prop := cmp a b ≤ 0.
End sort.

(** The order of the documents of a collection. A query returns them by
    ascending document id unless it is ordered otherwise, and the documents
    that tie on the field of an [orderBy] come by id in the direction of
    that ordering. Ids are compared code unit by code unit. *)
Definition by_id {A} (a b : string * A) : Z :=
  match String.compare a.1 b.1 with
  | Lt => -1
  | Eq => 0
  | Gt => 1
  end.

(** The documents of a collection, by ascending id. *)
Definition documents {A} (m : gmap string A) : list (string * A) :=
  sort by_id (map_to_list m).

(** [Array.prototype.slice(start, end)] *)
Definition slice {A} (start end_ : Z) (l : list A) : list A :=
  let len := Z.of_nat (length l) in
  let k := if start <? 0 then Z.max (len + start) 0 else Z.min start len in
  let final := if end_ <? 0 then Z.max (len + end_) 0 else Z.min end_ len in
  take (Z.to_nat (Z.max (final - k) 0)) (drop (Z.to_nat k) l).

End Firestore.

(** The decoded token that [verifyToken] binds to [req.user]. *)
Module User.
Record t := Make {
  uid : string;
  name : option string;
  email : option string;
  picture : option string
}.

(** [email.split('@')[0]] *)
Fixpoint before_at (s : string) : string :=
  match s with
  | EmptyString => EmptyString
  | String c s' => if Ascii.eqb c "@" then EmptyString else String c (before_at s')
  end.

(** [req.user.name || req.user.email?.split('@')[0] || 'Anonymous'] *)
Definition displayName (u : t) : string :=
  if JS.truthy (name u) then default "" (name u)
  else JS.or_else (before_at <$> email u) "Anonymous".
End User.

(** ** The middleware [verifyToken] of the route files

    [authorization] is [req.headers.authorization] and [verifyIdToken] the
    outcome of [admin.auth().verifyIdToken]: the decoded token, or [None]
    when the promise rejects. The result is the response of the middleware
    ([inl]) or the identity bound to [req.user] when [next()] is called
    ([inr]). *)

Module Middleware.
Import JS.

Definition verifyToken (verifyIdToken : string → option User.t)
    (authorization : option string) : response + User.t :=
  let token := authorization ≫= split_1 "Bearer " in
  if negb (truthy token) then inl (message 401 "No token provided")
  else
    match verifyIdToken (default "" token) with
    | Some decodedToken => inr decodedToken
    | None => inl (message 401 "Invalid token")
    end.

End Middleware.

(** ** routes/communities.js *)

Module Communities.
Import JS Firestore.

(** [communityRef.update({followers: ..., updatedAt: serverTimestamp()})];
    [now] is the server's instant of the write. *)
Definition update_followers (f : option (list string) → list string)
    (now : Z) (c : community.doc) : community.doc :=
  community.Doc (community.name c) (community.description c)
    (community.category c) (Some (f (community.followers c)))
    (community.admin c) (community.adminName c) (community.createdAt c)
    (Some now) (community.postCount c).

(** [.update({postCount: FieldValue.increment(1), updatedAt: ...})] *)
Definition increment_postCount (now : Z) (c : community.doc) : community.doc :=
  community.Doc (community.name c) (community.description c)
    (community.category c) (community.followers c)
    (community.admin c) (community.adminName c) (community.createdAt c)
    (Some now) (community.postCount c + 1).

(** The follower set of a community: the ids in its [followers] array. *)
Definition follower_set (c : community.doc) : gset string :=
  list_to_set (default [] (community.followers c)).

(** [router.post('/:communityId/follow')] *)
Definition follow (user : User.t) (communityId : string) (now : Z) (d : db)
    : response * db :=
  let uid := User.uid user in
  match communities d !! communityId with
  | None => (message 404 "Community not found", d)
  | Some communityData =>
      let isFollowing := includes_opt (community.followers communityData) uid in
      if isFollowing then
        (Response 200 [("message", JStr "Unfollowed community");
                       ("isFollowing", JBool false)],
         set_communities
           (<[communityId := update_followers (arrayRemove uid) now communityData]>
              (communities d)) d)
      else
        (Response 200 [("message", JStr "Following community");
                       ("isFollowing", JBool true)],
         set_communities
           (<[communityId := update_followers (arrayUnion uid) now communityData]>
              (communities d)) d)
  end.

(** [router.post('/:communityId/posts')]. [text] and [images] are the
    fields of the body ([images] after its default [[]]); [newId] is the
    identifier that [add] draws for the new document, and [add] fails
    when a document of that name exists. *)
Definition create_post (cfg : settings) (user : User.t) (communityId : string)
    (text : option string) (images : list string) (now : Z) (newId : string)
    (d : db) : response * db :=
  let uid := User.uid user in
  if negb (truthy text) && (length images =? 0)%nat then
    (message 400 "Post content is required", d)
  else
    match communities d !! communityId with
    | None => (message 404 "Community not found", d)
    | Some communityData =>
        if negb (includes_opt (community.followers communityData) uid) then
          (message 403 "Must follow community to post", d)
        else
          let postData :=
            post.Doc text images uid (User.displayName user)
              (User.picture user) (Some now) (Some []) 0 in
          let undef := is_undefined text || is_undefined (User.picture user) in
          if negb (accepts cfg undef) then
            (message 500 "Failed to create post", d)
          else
            match posts d !! (communityId, newId) with
            | Some _ => (message 500 "Failed to create post", d)
            | None =>
                let d := set_posts (<[(communityId, newId) := postData]> (posts d)) d in
                match communities d !! communityId with
                | None => (message 500 "Failed to create post", d)
                | Some c =>
                    (Response 200 [("id", JStr newId);
                                   ("message", JStr "Post created successfully")],
                     set_communities
                       (<[communityId := increment_postCount now c]>
                          (communities d)) d)
                end
            end
    end.

(** [router.post('/')]: [newId] is the identifier that [add] draws. *)
Definition create (user : User.t) (name description category : option string)
    (now : Z) (newId : string) (d : db) : response * db :=
  let uid := User.uid user in
  if negb (truthy name) || negb (truthy description) || negb (truthy category)
  then (message 400 "Name, description, and category are required", d)
  else
    let communityData :=
      community.Doc (default "" name) (default "" description)
        (default "" category) (Some [uid]) uid (User.displayName user)
        now None 0 in
    match communities d !! newId with
    | Some _ => (message 500 "Failed to create community", d)
    | None =>
        (Response 200 [("id", JStr newId);
                       ("message", JStr "Community created successfully")],
         set_communities (<[newId := communityData]> (communities d)) d)
    end.

(** What [router.get('/:communityId')] answers for a community that
    exists: [{id, ...communityData, isFollowing}]. *)
Record community_view := CommunityView {
  view_id : string;
  view_data : community.doc;
  isFollowing : bool
}.

(** [router.get('/:communityId')] *)
Definition get (user : User.t) (communityId : string) (d : db)
    : response + community_view :=
  match communities d !! communityId with
  | None => inl (message 404 "Community not found")
  | Some communityData =>
      inr (CommunityView communityId communityData
             (includes_opt (community.followers communityData) (User.uid user)))
  end.

(** [postRef.update({likes: ...})] *)
Definition update_likes (f : option (list string) → list string)
    (p : post.doc) : post.doc :=
  post.Doc (post.text p) (post.images p) (post.author p) (post.authorName p)
    (post.authorPhoto p) (post.timestamp p) (Some (f (post.likes p)))
    (post.comments p).

(** The like set of a post: the ids in its [likes] array. *)
Definition like_set (p : post.doc) : gset string :=
  list_to_set (default [] (post.likes p)).

(** [router.post('/:communityId/posts/:postId/like')] *)
Definition like (user : User.t) (communityId postId : string) (d : db)
    : response * db :=
  let uid := User.uid user in
  match posts d !! (communityId, postId) with
  | None => (message 404 "Post not found", d)
  | Some postData =>
      let isLiked := includes_opt (post.likes postData) uid in
      if isLiked then
        (Response 200 [("message", JStr "Post unliked");
                       ("isLiked", JBool false)],
         set_posts
           (<[(communityId, postId) := update_likes (arrayRemove uid) postData]>
              (posts d)) d)
      else
        (Response 200 [("message", JStr "Post liked");
                       ("isLiked", JBool true)],
         set_posts
           (<[(communityId, postId) := update_likes (arrayUnion uid) postData]>
              (posts d)) d)
  end.

End Communities.

(** ** routes/groups.js *)

Module Groups.
Import JS Firestore.

(** [groupRef.update({members: ..., updatedAt: serverTimestamp()})] *)
Definition update_members (f : option (list string) → list string)
    (now : Z) (g : group.doc) : group.doc :=
  group.Doc (group.name g) (group.description g) (group.isPrivate g)
    (f (Some (group.members g))) (group.admin g) (group.createdAt g) now.

(** [router.post('/')] *)
Definition create (user : User.t) (name description : option string)
    (isPrivate : bool) (now : Z) (newId : string) (d : db) : response * db :=
  let uid := User.uid user in
  if negb (truthy name) || negb (truthy description) then
    (message 400 "Name and description are required", d)
  else
    let groupData :=
      group.Doc (default "" name) (default "" description) isPrivate
        [uid] uid now now in
    match groups d !! newId with
    | Some _ => (message 500 "Failed to create group", d)
    | None =>
        (Response 200 [("id", JStr newId);
                       ("message", JStr "Group created successfully")],
         set_groups (<[newId := groupData]> (groups d)) d)
    end.

(** [router.post('/:groupId/join')] *)
Definition join (user : User.t) (groupId : string) (now : Z) (d : db)
    : response * db :=
  let uid := User.uid user in
  match groups d !! groupId with
  | None => (message 404 "Group not found", d)
  | Some groupData =>
      if includes (group.members groupData) uid then
        (message 400 "Already a member of this group", d)
      else
        (message 200 "Successfully joined group",
         set_groups
           (<[groupId := update_members (arrayUnion uid) now groupData]>
              (groups d)) d)
  end.

(** [router.post('/:groupId/leave')] *)
Definition leave (user : User.t) (groupId : string) (now : Z) (d : db)
    : response * db :=
  let uid := User.uid user in
  match groups d !! groupId with
  | None => (message 404 "Group not found", d)
  | Some groupData =>
      if negb (includes (group.members groupData) uid) then
        (message 400 "Not a member of this group", d)
      else if String.eqb (group.admin groupData) uid then
        (message 400 "Admin cannot leave the group", d)
      else
        (message 200 "Successfully left group",
         set_groups
           (<[groupId := update_members (arrayRemove uid) now groupData]>
              (groups d)) d)
  end.

(** Every group counts its admin among its members. *)
Definition admin_is_member (d : db) : Prop :=
  ∀ groupId g, groups d !! groupId = Some g → group.admin g ∈ group.members g.

End Groups.

(** ** routes/posts.js *)

Module Posts.
Import JS Firestore.

(** An element of the array that [/feed] answers:
    [{id, communityId, communityName, ...doc.data(), isLiked}]. *)
Record feed_post := FeedPost {
  id : string;
  communityId : string;
  communityName : option string;
  data : post.doc;
  isLiked : bool
}.

Inductive feed_response :=
| FeedOk (posts : list feed_post)
| FeedFail (status : Z) (message : string).

(** [b.likes?.length || 0] *)
Definition likeCount (p : post.doc) : Z :=
  match post.likes p with
  | Some l => Z.of_nat (length l)
  | None => 0
  end.

(** [(a, b) => (b.likes?.length || 0) - (a.likes?.length || 0)] *)
Definition by_likes (a b : feed_post) : Z :=
  likeCount (data b) - likeCount (data a).

(** [(a, b) => b.timestamp?.toDate() - a.timestamp?.toDate()]; the
    difference is [NaN] when a timestamp is missing, which [sort] takes
    as [0]. *)
Definition by_timestamp (a b : feed_post) : Z :=
  match post.timestamp (data b), post.timestamp (data a) with
  | Some tb, Some ta => tb - ta
  | _, _ => 0
  end.

(** The documents of [communities/{communityId}/posts], by ascending id. *)
Definition posts_of (communityId : string) (d : db) : list (string * post.doc) :=
  sort by_id
    ((λ kv, (kv.1.2, kv.2)) <$>
       filter (λ kv : string * string * post.doc, kv.1.1 = communityId)
              (map_to_list (posts d))).

Definition timestamp_ge (since : option Z) (kv : string * post.doc) : bool :=
  match post.timestamp kv.2, since with
  | Some t, Some s => s <=? t
  | Some _, None => true
  | None, _ => false
  end.

Definition newest_first (a b : string * post.doc) : Z :=
  default 0 (post.timestamp b.2) - default 0 (post.timestamp a.2).

(** [.collection('posts').orderBy('timestamp', 'desc')
      [.where('timestamp', '>=', since)] .limit(limit).get()].
    A document without the ordering field is not part of the result,
    documents with the same timestamp come by descending id, and the store
    refuses a negative limit ([None]: the promise rejects). *)
Definition query_posts (communityId : string) (since : option Z) (limit : Z)
    (d : db) : option (list (string * post.doc)) :=
  if limit <? 0 then None
  else
    Some (take (Z.to_nat limit)
            (sort newest_first
               (List.filter (timestamp_ge since)
                  (reverse (posts_of communityId d))))).

(** The body of [postsSnapshot.docs.forEach]. *)
Definition annotate (uid communityId : string) (d : db)
    (kv : string * post.doc) : feed_post :=
  FeedPost kv.1 communityId
    (community.name <$> communities d !! communityId)
    kv.2
    (includes_opt (post.likes kv.2) uid).

(** The loop [for (const communityId of followedCommunityIds)]; [i] counts
    the iterations and [Date_now i] is the reading of [Date.now()] in
    iteration [i]. *)
Fixpoint collect (uid filter : string) (limit : Z) (Date_now : nat → Z)
    (d : db) (i : nat) (followedCommunityIds : list string)
    : option (list feed_post) :=
  match followedCommunityIds with
  | [] => Some []
  | communityId :: rest =>
      let since :=
        if String.eqb filter "trending"
        then Some (Date_now i - 24 * 60 * 60 * 1000) else None in
      match query_posts communityId since limit d with
      | None => None
      | Some docs =>
          match collect uid filter limit Date_now d (S i) rest with
          | None => None
          | Some later => Some (app (annotate uid communityId d <$> docs) later)
          end
      end
  end.

(** [router.get('/feed')]; [limit] and [offset] are the integers that
    [parseInt] reads from the query. *)
Definition feed (user : User.t) (limit offset : Z) (filter : string)
    (Date_now : nat → Z) (d : db) : feed_response :=
  let uid := User.uid user in
  let communitiesSnapshot :=
    List.filter (λ c, includes_opt (community.followers c.2) uid)
                (documents (communities d)) in
  let followedCommunityIds := communitiesSnapshot.*1 in
  if (length followedCommunityIds =? 0)%nat then FeedOk []
  else
    match collect uid filter limit Date_now d 0 followedCommunityIds with
    | None => FeedFail 500 "Failed to fetch feed"
    | Some allPosts =>
        let allPosts :=
          if String.eqb filter "trending" then sort by_likes allPosts
          else sort by_timestamp allPosts in
        FeedOk (slice offset (offset + limit) allPosts)
    end.

(** What [router.get('/:postId')] answers for a post that exists:
    [{id, ...postData, isLiked}]. *)
Record post_view := PostView {
  post_id : string;
  post_data : post.doc;
  post_isLiked : bool
}.

(** [router.get('/:postId')]; [communityId] is read from the query. *)
Definition get_post (user : User.t) (postId : string)
    (communityId : option string) (d : db) : response + post_view :=
  if negb (truthy communityId) then
    inl (message 400 "Community ID is required")
  else
    match posts d !! (default "" communityId, postId) with
    | None => inl (message 404 "Post not found")
    | Some postData =>
        inr (PostView postId postData
               (includes_opt (post.likes postData) (User.uid user)))
    end.

(** [.collection('posts')[.where('timestamp', '>=', since)]
      .orderBy('timestamp', 'desc').get()]: the query of [/trending] and
    of [/search], which sets no limit. *)
Definition query_all_posts (communityId : string) (since : option Z) (d : db)
    : list (string * post.doc) :=
  sort newest_first
    (List.filter (timestamp_ge since) (reverse (posts_of communityId d))).

(** The body of [postsSnapshot.docs.forEach] in [/trending] and [/search]:
    the name is read from [communityDoc]. *)
Definition annotate_with (uid : string) (communityDoc : string * community.doc)
    (kv : string * post.doc) : feed_post :=
  FeedPost kv.1 communityDoc.1 (Some (community.name communityDoc.2)) kv.2
    (includes_opt (post.likes kv.2) uid).

(** [router.get('/trending')]; [now] is the reading of [Date.now()]. *)
Definition trending (user : User.t) (limit offset now : Z) (d : db)
    : list feed_post :=
  let oneDayAgo := now - 24 * 60 * 60 * 1000 in
  let allPosts :=
    concat ((λ communityDoc : string * community.doc,
               annotate_with (User.uid user) communityDoc <$>
                 query_all_posts communityDoc.1 (Some oneDayAgo) d) <$>
            documents (communities d)) in
  slice offset (offset + limit) (sort by_likes allPosts).

(** [postData.text?.toLowerCase() || ''] contains [searchTerm]. *)
Definition text_includes (searchTerm : string) (kv : string * post.doc) : bool :=
  String_includes searchTerm (or_else (toLowerCase <$> post.text kv.2) "").

(** [router.get('/search')] *)
Definition search (user : User.t) (q : option string) (limit offset : Z)
    (d : db) : response + list feed_post :=
  if negb (truthy q) || (String.length (trim (default "" q)) <? 2)%nat then
    inl (message 400 "Search query must be at least 2 characters")
  else
    let searchTerm := trim (toLowerCase (default "" q)) in
    let matchingPosts :=
      concat ((λ communityDoc : string * community.doc,
                 annotate_with (User.uid user) communityDoc <$>
                   List.filter (text_includes searchTerm)
                     (query_all_posts communityDoc.1 None d)) <$>
              documents (communities d)) in
    inr (slice offset (offset + limit) (sort by_timestamp matchingPosts)).

(** A post without what depends on the caller. *)
Definition public (p : feed_post) : string * string * option string * post.doc :=
  (id p, communityId p, communityName p, data p).

(** What the feed may show to a caller: a stored post of a community that
    the caller follows, under the name of that community, with the flag
    that tells whether the caller is in its like set. *)
Definition shown (uid : string) (d : db) (p : feed_post) : Prop :=
  ∃ c, communities d !! communityId p = Some c ∧
       uid ∈ default [] (community.followers c) ∧
       communityName p = Some (community.name c) ∧
       posts d !! (communityId p, id p) = Some (data p) ∧
       is_Some (post.timestamp (data p)) ∧
       isLiked p = includes_opt (post.likes (data p)) uid.

End Posts.

(** ** The comments of a post ([routes/posts.js]) *)

Module Comments.
Import JS Firestore.

(** A document of [communities/{id}/posts/{postId}/comments], with the
    fields that the handler writes. *)
Record comment := Comment {
  text : string;
  author : string;
  authorName : string;
  authorPhoto : option string;
  timestamp : Z
}.

(** The database together with the [comments] sub-collections, keyed by
    community, post and comment. A sub-collection does not need its parent
    document. *)
Record store := Store {
  base : db;
  comments : gmap (string * string * string) comment
}.

(** [.update({comments: FieldValue.increment(1)})] *)
Definition increment_comments (p : post.doc) : post.doc :=
  post.Doc (post.text p) (post.images p) (post.author p) (post.authorName p)
    (post.authorPhoto p) (post.timestamp p) (post.likes p)
    (post.comments p + 1).

(** [router.post('/:postId/comments')]. [communityId] and [text] are the
    fields of the body; [newId] is the identifier that [add] draws, and
    [update] rejects when the post does not exist. *)
Definition add_comment (cfg : settings) (user : User.t) (postId : string)
    (communityId text : option string) (now : Z) (newId : string) (st : store)
    : response * store :=
  let uid := User.uid user in
  if negb (truthy text) || negb (truthy communityId) then
    (message 400 "Comment text and community ID are required", st)
  else
    let communityId := default "" communityId in
    let commentData :=
      Comment (default "" text) uid (User.displayName user)
        (User.picture user) now in
    if negb (accepts cfg (is_undefined (User.picture user))) then
      (message 500 "Failed to add comment", st)
    else
      match comments st !! (communityId, postId, newId) with
      | Some _ => (message 500 "Failed to add comment", st)
      | None =>
          let st :=
            Store (base st)
              (<[(communityId, postId, newId) := commentData]> (comments st)) in
          match posts (base st) !! (communityId, postId) with
          | None => (message 500 "Failed to add comment", st)
          | Some p =>
              (Response 200 [("id", JStr newId);
                             ("message", JStr "Comment added successfully")],
               Store
                 (set_posts
                    (<[(communityId, postId) := increment_comments p]>
                       (posts (base st))) (base st))
                 (comments st))
          end
      end.


Definition newest_first (a b : string * comment) : Z :=
  timestamp b.2 - timestamp a.2.


End Comments.

(** ** routes/communities.js: the posts of a community *)

Module CommunityPosts.
Import JS Firestore.

(** [router.get('/:communityId/posts')]:
    [.orderBy('timestamp', 'desc').limit(limit).offset(offset).get()],
    which the store refuses when the limit or the offset is negative; each
    document is answered as [{id, ...doc.data(), isLiked}]. *)
Definition get_posts (user : User.t) (communityId : string) (limit offset : Z)
    (d : db) : response + list Posts.post_view :=
  if (limit <? 0) || (offset <? 0) then
    inl (message 500 "Failed to fetch posts")
  else
    inr ((λ kv : string * post.doc,
            Posts.PostView kv.1 kv.2
              (includes_opt (post.likes kv.2) (User.uid user))) <$>
         take (Z.to_nat limit)
           (drop (Z.to_nat offset)
              (Posts.query_all_posts communityId None d))).

End CommunityPosts.

(** ** routes/groups.js: the messages of a group *)

Module Messages.
Import JS Firestore.

(** A document of [groups/{id}/messages], with the fields that the handler
    writes. *)
Record message_doc := MessageDoc {
  text : string;
  author : string;
  type : string;
  fileUrl : option string;
  fileName : option string;
  timestamp : Z
}.

(** The value of the field [lastMessage] of a group document. *)
Record last_message := LastMessage {
  last_text : string;
  last_timestamp : Z;
  last_author : string
}.

(** The database together with the [messages] sub-collections, keyed by
    group and message, and the [lastMessage] fields of the group documents,
    keyed by group. *)
Record store := Store {
  base : db;
  messages : gmap (string * string) message_doc;
  lastMessage : gmap string last_message
}.

(** [`${x}`] for a value that is [undefined] or a string. *)
Definition template (x : option string) : string := default "undefined" x.

(** [.update({lastMessage: ..., updatedAt: serverTimestamp()})] on the
    fields of the group document proper. *)
Definition touch (now : Z) (g : group.doc) : group.doc :=
  group.Doc (group.name g) (group.description g) (group.isPrivate g)
    (group.members g) (group.admin g) (group.createdAt g) now.

(** [router.post('/:groupId/messages')]. [text], [type], [fileUrl] and
    [fileName] are the fields of the body; [newId] is the identifier that
    [add] draws. *)
Definition send_message (cfg : settings) (user : User.t) (groupId : string)
    (text type fileUrl fileName : option string) (now : Z) (newId : string)
    (st : store) : response * store :=
  let uid := User.uid user in
  if negb (truthy text) && negb (truthy fileUrl) then
    (message 400 "Message content is required", st)
  else
    match groups (base st) !! groupId with
    | None => (message 404 "Group not found", st)
    | Some groupData =>
        if negb (includes (group.members groupData) uid) then
          (message 403 "Not a member of this group", st)
        else
          let messageText :=
            or_else text ("Shared a file: " +:+ template fileName) in
          let messageData :=
            MessageDoc messageText uid (default "text" type) fileUrl fileName
              now in
          let undef := is_undefined fileUrl || is_undefined fileName in
          if negb (accepts cfg undef) then
            (message 500 "Failed to send message", st)
          else
            match messages st !! (groupId, newId) with
            | Some _ => (message 500 "Failed to send message", st)
            | None =>
                (Response 200 [("id", JStr newId);
                               ("message", JStr "Message sent successfully")],
                 Store
                   (set_groups (<[groupId := touch now groupData]>
                                  (groups (base st))) (base st))
                   (<[(groupId, newId) := messageData]> (messages st))
                   (<[groupId := LastMessage messageText now uid]>
                      (lastMessage st)))
            end
    end.

(** The documents of [groups/{groupId}/messages], by ascending id. *)
Definition messages_of (groupId : string) (st : store)
    : list (string * message_doc) :=
  sort by_id
    ((λ kv, (kv.1.2, kv.2)) <$>
       filter (λ kv : string * string * message_doc, kv.1.1 = groupId)
              (map_to_list (messages st))).

Definition newest_first (a b : string * message_doc) : Z :=
  timestamp b.2 - timestamp a.2.

(** [router.get('/:groupId/messages')]; the store refuses a limit or an
    offset that is negative, and messages with the same timestamp come by
    descending id. *)
Definition get_messages (user : User.t) (groupId : string) (limit offset : Z)
    (st : store) : response + list (string * message_doc) :=
  match groups (base st) !! groupId with
  | None => inl (message 404 "Group not found")
  | Some groupData =>
      if negb (includes (group.members groupData) (User.uid user)) then
        inl (message 403 "Not a member of this group")
      else if (limit <? 0) || (offset <? 0) then
        inl (message 500 "Failed to fetch messages")
      else
        inr (take (Z.to_nat limit)
               (drop (Z.to_nat offset)
                  (sort newest_first (reverse (messages_of groupId st)))))
  end.

End Messages.

(** ** routes/users.js *)

Module Users.
Import JS Firestore.

(** [DocumentReference.update(data)] on a profile document: the document
    has to exist and [data] has to pass the validation of the client;
    then every field of [data] is written over the stored one and every
    other stored field stays. [None]: the promise rejects. *)
Definition write_field (doc : gmap string value)
    (kv : string * option value) : gmap string value :=
  match kv.2 with
  | Some v => <[kv.1 := v]> doc
  | None => doc
  end.

Definition update (cfg : settings) (doc : option (gmap string value))
    (data : list (string * option value)) : option (gmap string value) :=
  match doc with
  | None => None
  | Some doc =>
      if accepts cfg (existsb (λ kv, is_undefined kv.2) data)
      then Some (foldl write_field doc data)
      else None
  end.

(** The object [updateData] built from the body of the request; [body] is
    the parsed JSON object and [body !! f] the value of
    [const { f } = req.body]. *)
Definition updateData (body : gmap string value) (now : Z)
    : list (string * option value) :=
  [("name", body !! "name");
   ("regNo", body !! "regNo");
   ("department", body !! "department");
   ("year", body !! "year");
   ("photoURL", body !! "photoURL");
   ("updatedAt", Some (VTimestamp now))].

Definition profile_fields : list string :=
  ["name"; "regNo"; "department"; "year"; "photoURL"].

(** [router.put('/profile')] *)
Definition update_profile (cfg : settings) (user : User.t)
    (body : gmap string value) (now : Z) (d : db) : response * db :=
  let uid := User.uid user in
  match update cfg (users d !! uid) (updateData body now) with
  | Some doc =>
      (message 200 "Profile updated successfully",
       set_users (<[uid := doc]> (users d)) d)
  | None => (message 500 "Failed to update profile", d)
  end.

(** [router.get('/profile')] *)
Definition get_profile (user : User.t) (d : db)
    : response + gmap string value :=
  match users d !! User.uid user with
  | None => inl (message 404 "User profile not found")
  | Some doc => inr doc
  end.

End Users.

(** ** The OTP page of the client ([pages/OTP.tsx]) *)

Module OtpPage.
Import JS.

(** [value.replace(/\D/g, '')] *)
Fixpoint strip_non_digits (value : string) : string :=
  match value with
  | EmptyString => EmptyString
  | String c s =>
      if Auth.is_digit c then String c (strip_non_digits s)
      else strip_non_digits s
  end.

(** [s.slice(0, n)] *)
Fixpoint slice_0 (n : nat) (s : string) : string :=
  match n, s with
  | S n', String c s' => String c (slice_0 n' s')
  | _, _ => EmptyString
  end.

(** The [onChange] of the input: what [setOtp] is given for the text in
    the field. *)
Definition onChange (value : string) : string :=
  slice_0 6 (strip_non_digits value).

(** What [handleSubmit] ends with: an error toast, or the sign-in with the
    token of the answer, after which come the success toast and the move
    to [/profile-setup]. *)
Inductive outcome :=
| toast_error (msg : jsval)
| signed_in (token : jsval).

(** Truthiness of a property of a JSON body. *)
Definition truthy_property (v : option jsval) : bool :=
  match v with
  | None => false
  | Some (JStr s) => negb (String.eqb s "")
  | Some (JNum n) => negb (n =? 0)
  | Some (JBool b) => b
  end.

(** The [try] block of [handleSubmit] from the answer on. [response] is
    what [fetch] and [response.json()] give, [None] when one of them
    rejects; [signInWithCustomToken] tells whether the sign-in resolves. *)
Definition settle (response : option response)
    (signInWithCustomToken : jsval → bool) : outcome :=
  match response with
  | None => toast_error (JStr "Failed to verify OTP. Please try again.")
  | Some response =>
      let ok := (200 <=? status response) && (status response <=? 299) in
      match field "token" response with
      | Some token =>
          if ok && truthy_property (Some token) then
            if signInWithCustomToken token then signed_in token
            else toast_error (JStr "Failed to verify OTP. Please try again.")
          else
            toast_error
              (if truthy_property (field "message" response)
               then default (JStr "Invalid OTP") (field "message" response)
               else JStr "Invalid OTP")
      | None =>
          toast_error
            (if truthy_property (field "message" response)
             then default (JStr "Invalid OTP") (field "message" response)
             else JStr "Invalid OTP")
      end
  end.

(** [handleSubmit]. [auth] tells whether the Firebase [auth] object is set,
    [email] and [otp] are the state of the page, and [fetch email otp] is the
    answer to the POST of [{email, otp}] to [/api/auth/verify-otp]. The
    result is the list of the requests that were sent, with the outcome. *)
Definition handleSubmit (auth : bool) (email otp : string)
    (fetch : string → string → option response)
    (signInWithCustomToken : jsval → bool)
    : list (string * string) * outcome :=
  if negb (truthy (Some otp)) || negb (String.length otp =? 6)%nat then
    ([], toast_error (JStr "Please enter a valid 6-digit OTP"))
  else if negb auth then
    ([], toast_error (JStr "Firebase not initialized"))
  else
    ([(email, otp)], settle (fetch email otp) signInWithCustomToken).

(** The callback of the countdown, run once a second. *)
Definition tick (prev : Z) : Z :=
  if prev <=? 1 then 0 else prev - 1.

End OtpPage.

(** ** Sample data

    The requests and stores at which the statements below are instantiated. *)

Module Sample.
Import JS Firestore.

(** [Math.random()] returns 3842276046088655 / 2^53, the first binary64
    value past 383920.5 / 900000, so the code is "483920". *)
Definition env : Auth.send_env :=
  Auth.SendEnv (3842276046088655 # 9007199254740992) 1000 (λ _, true).

Definition env_mail_down : Auth.send_env :=
  Auth.SendEnv (3842276046088655 # 9007199254740992) 1000 (λ _, false).

Definition env_other_code : Auth.send_env :=
  Auth.SendEnv (1 # 2) 1000 (λ _, true).

(** No user is known yet; creation and token minting succeed. *)
Definition idp : Auth.auth_provider :=
  Auth.AuthProvider (λ _, None) (λ email, Some ("uid:" +:+ email))
    (λ uid _, Some ("token:" +:+ uid)).

(** The identity provider is out of reach: every call rejects. *)
Definition idp_down : Auth.auth_provider :=
  Auth.AuthProvider (λ _, None) (λ _, None) (λ _ _, None).

Definition ann : User.t :=
  User.Make "u1" (Some "Ann") (Some "ann@ceg.edu") (Some "https://img/ann").

(** A caller whose token carries neither a name nor a picture. *)
Definition bob : User.t := User.Make "u2" None (Some "bob@ceg.edu") None.

(** A caller who belongs to no group and follows no community. *)
Definition carol : User.t :=
  User.Make "u3" (Some "Carol") (Some "carol@ceg.edu") (Some "https://img/carol").

Definition robotics : community.doc :=
  community.Doc "Robotics" "..." "Technical" (Some ["u1"]) "u1" "Ann" 0 None 0.

Definition post_at (t : Z) (likes : list string) : post.doc :=
  post.Doc (Some "hi") [] "u1" "Ann" (Some "https://img/ann") (Some t)
           (Some likes) 0.

(** A group whose admin [u1] is no longer in the member set. *)
Definition orphaned : group.doc :=
  group.Doc "Chess" "..." false ["u2"] "u1" 0 50.

Definition chess : group.doc :=
  group.Doc "Chess" "..." false ["u1"; "u2"] "u1" 0 50.

Definition profile : gmap string value :=
  {["name" := VStr "Ann"; "role" := VStr "student"]}.

(** A body with every profile field, the name being empty. *)
Definition full_body : gmap string value :=
  {["name" := VStr ""; "regNo" := VStr "2021103001";
    "department" := VStr "CSE"; "year" := VNum 3; "photoURL" := VNull]}.

(** A body that leaves [name] out. *)
Definition partial_body : gmap string value :=
  {["regNo" := VStr "2021103001"; "department" := VStr "CSE";
    "year" := VNum 3; "photoURL" := VStr ""]}.

Definition store : db :=
  Db {["c1" := robotics]}
     {[("c1", "p1") := post_at 86400000 ["a"];
       ("c1", "p2") := post_at 86401000 ["a"; "b"];
       ("c1", "p3") := post_at 10 ["a"; "b"; "c"];
       ("c1", "p4") := post_at 86402000 []]}
     {["g1" := chess; "g2" := orphaned]}
     {["u1" := profile]}.

End Sample.

(** * Properties *)

(** ** The OTP life cycle ([routes/auth.js]) *)

Section auth_properties.
Import JS Auth.

Lemma truthy_Some (s : string) : s ≠ "" → truthy (Some s) = true.
Proof.
  intros Hs. unfold truthy.
  destruct (String.eqb_spec s "") as [->|_]; [done | reflexivity].
Qed.

Lemma emailRegex_nonempty (email : string) :
  test emailRegex email = true → email ≠ "".
Proof. intros Ht ->. vm_compute in Ht. discriminate. Qed.

Lemma digits_acc_nonempty (fuel : nat) (n : Z) (acc : string) :
  acc ≠ "" → digits fuel n acc ≠ "".
Proof.
  revert n acc. induction fuel as [|fuel IH]; intros n acc Hacc; simpl; [done|].
  destruct (n / 10 =? 0); [done | by apply IH].
Qed.

Lemma Number_toString_nonempty (n : Z) : Number_toString n ≠ "".
Proof.
  unfold Number_toString. destruct (n <? 0); [done|].
  simpl. destruct (n / 10 =? 0); [done | by apply digits_acc_nonempty].
Qed.

Lemma generateOTP_nonempty (r : Q) : generateOTP r ≠ "".
Proof. apply Number_toString_nonempty. Qed.

(** *** The generator *)

(** Goals about quotients and remainders by ten. *)
Local Ltac decimal := Z.div_mod_to_equations; lia.

Lemma digit_char_is_digit (d : Z) : 0 ≤ d ≤ 9 → is_digit (digit_char d) = true.
Proof.
  intros Hd.
  assert (d = 0 ∨ d = 1 ∨ d = 2 ∨ d = 3 ∨ d = 4 ∨ d = 5 ∨ d = 6 ∨ d = 7
          ∨ d = 8 ∨ d = 9) as Hcases by lia.
  repeat (destruct Hcases as [-> | Hcases]; [reflexivity|]).
  by subst.
Qed.

(** What [toString] writes for a whole number is made of digits, after a
    minus sign when the number is negative. *)
Lemma all_digits_digits (fuel : nat) (n : Z) (acc : string) :
  all_digits acc = true → all_digits (digits fuel n acc) = true.
Proof.
  revert n acc. induction fuel as [|fuel IH]; intros n acc Hacc; [done|].
  assert (all_digits (String (digit_char (n mod 10)) acc) = true) as Hacc'.
  { cbn [all_digits]. rewrite Hacc, andb_true_r.
    apply digit_char_is_digit. pose proof (Z.mod_pos_bound n 10). lia. }
  cbn [digits]. destruct (n / 10 =? 0); [done | by apply IH].
Qed.

Lemma Number_toString_numeric (n : Z) :
  all_digits (Number_toString n) = true ∨
  String.get 0 (Number_toString n) = Some "-"%char.
Proof.
  unfold Number_toString. destruct (n <? 0); [by right|].
  left. by apply all_digits_digits.
Qed.

Lemma digit_char_inj (d e : Z) :
  0 ≤ d ≤ 9 → 0 ≤ e ≤ 9 → digit_char d = digit_char e → d = e.
Proof.
  intros Hd He Heq. unfold digit_char in Heq.
  apply (f_equal nat_of_ascii) in Heq.
  rewrite !nat_ascii_embedding in Heq by lia. lia.
Qed.

Lemma digit_char_zero (d : Z) : 1 ≤ d ≤ 9 → digit_char d ≠ "0"%char.
Proof.
  intros Hd Heq. change "0"%char with (digit_char 0) in Heq.
  apply digit_char_inj in Heq; lia.
Qed.

(** The decimal digits of a number of six digits, most significant first. *)
Lemma Number_toString_six (n : Z) :
  100000 ≤ n ≤ 999999 →
  Number_toString n =
    String (digit_char (n / 10 / 10 / 10 / 10 / 10 mod 10))
      (String (digit_char (n / 10 / 10 / 10 / 10 mod 10))
        (String (digit_char (n / 10 / 10 / 10 mod 10))
          (String (digit_char (n / 10 / 10 mod 10))
            (String (digit_char (n / 10 mod 10))
              (String (digit_char (n mod 10)) ""))))).
Proof.
  intros Hn. unfold Number_toString.
  replace (n <? 0) with false by lia.
  assert (16 ≤ Z.log2 n) as Hlog.
  { change 16 with (Z.log2 65536). apply Z.log2_le_mono. lia. }
  destruct (Z.to_nat (Z.log2 n)) as [|[|[|[|[|fuel]]]]] eqn:Hfuel; try lia.
  cbn [digits].
  repeat match goal with
  | |- context [?x / 10 =? 0] =>
      first
        [ replace (x / 10 =? 0) with false
            by (symmetry; apply Z.eqb_neq; decimal)
        | replace (x / 10 =? 0) with true
            by (symmetry; apply Z.eqb_eq; decimal) ]
  end.
  reflexivity.
Qed.

Lemma Number_toString_six_inj (n m : Z) :
  100000 ≤ n ≤ 999999 → 100000 ≤ m ≤ 999999 →
  Number_toString n = Number_toString m → n = m.
Proof.
  intros Hn Hm. rewrite !Number_toString_six by done. intros Heq.
  injection Heq as H5 H4 H3 H2 H1 H0.
  apply digit_char_inj in H0, H1, H2, H3, H4, H5; decimal.
Qed.

Lemma Number_toString_six_shape (n : Z) :
  100000 ≤ n ≤ 999999 →
  six_digit_code (Number_toString n) = true ∧
  String.get 0 (Number_toString n) ≠ Some "0"%char.
Proof.
  intros Hn. rewrite Number_toString_six by done. split.
  - unfold six_digit_code. cbn [String.length all_digits].
    rewrite !digit_char_is_digit by decimal.
    reflexivity.
  - cbn [String.get]. intros [= Heq]. revert Heq. apply digit_char_zero.
    decimal.
Qed.

Lemma Qfloor_eq_iff (x : Q) (m : Z) :
  Qfloor x = m ↔ (inject_Z m <= x ∧ x < inject_Z (m + 1))%Q.
Proof.
  split.
  - intros <-. split; [apply Qfloor_le | apply Qlt_floor].
  - intros [Hlo Hhi].
    apply Qfloor_resp_le in Hlo. rewrite Qfloor_Z in Hlo.
    pose proof (Qfloor_le x) as Hfl.
    assert (inject_Z (Qfloor x) < inject_Z (m + 1))%Q as Hlt
      by (eapply Qle_lt_trans; eassumption).
    rewrite <- Zlt_Qlt in Hlt. lia.
Qed.

(** *** Rounding to binary64 *)

Section rounding.

Lemma round_ties_even_cases (y : Q) :
  (round_ties_even y = Qfloor y ∧ (y - inject_Z (Qfloor y) <= 1 # 2)%Q) ∨
  (round_ties_even y = Qfloor y + 1 ∧ (1 # 2 <= y - inject_Z (Qfloor y))%Q).
Proof.
  unfold round_ties_even.
  destruct (Qcompare_spec (y - inject_Z (Qfloor y)) (1 # 2)) as [H|H|H].
  - destruct (Z.even (Qfloor y)); [left | right]; split; try done; lra.
  - left. split; [done | lra].
  - right. split; [done | lra].
Qed.

Lemma round_ties_even_comp (x y : Q) :
  (x == y)%Q → round_ties_even x = round_ties_even y.
Proof.
  intros H. unfold round_ties_even. rewrite (Qfloor_comp _ _ H).
  assert ((x - inject_Z (Qfloor y) ?= 1 # 2) = (y - inject_Z (Qfloor y) ?= 1 # 2))%Q
    as -> by by rewrite H.
  done.
Qed.

Lemma Qfloor_bounds (y : Q) :
  (inject_Z (Qfloor y) <= y)%Q ∧ (y < inject_Z (Qfloor y) + 1)%Q.
Proof.
  split; [apply Qfloor_le|]. pose proof (Qlt_floor y) as H.
  rewrite inject_Z_plus in H. exact H.
Qed.

Lemma round_ties_even_Z (j : Z) : round_ties_even (inject_Z j) = j.
Proof.
  destruct (round_ties_even_cases (inject_Z j)) as [[-> _]|[_ H]].
  - apply Qfloor_Z.
  - rewrite Qfloor_Z in H. exfalso. lra.
Qed.

Lemma round_ties_even_err (y : Q) :
  (- (1 # 2) <= inject_Z (round_ties_even y) - y)%Q ∧
  (inject_Z (round_ties_even y) - y <= 1 # 2)%Q.
Proof.
  destruct (Qfloor_bounds y) as [Hlo Hhi].
  destruct (round_ties_even_cases y) as [[-> H]|[-> H]];
    rewrite ?inject_Z_plus; change (inject_Z 1) with 1%Q; split; lra.
Qed.

Lemma round_ties_even_ge (y : Q) (j : Z) :
  (inject_Z j <= y)%Q → j ≤ round_ties_even y.
Proof.
  intros H. apply Qfloor_resp_le in H. rewrite Qfloor_Z in H.
  destruct (round_ties_even_cases y) as [[-> _]|[-> _]]; lia.
Qed.

Lemma round_ties_even_le (y : Q) (j : Z) :
  (y <= inject_Z j)%Q → round_ties_even y ≤ j.
Proof.
  intros H. destruct (Qfloor_bounds y) as [Hlo Hhi].
  destruct (round_ties_even_cases y) as [[-> _]|[-> Hh]].
  - rewrite Zle_Qle. lra.
  - assert (inject_Z (Qfloor y) < inject_Z j)%Q as Hlt by lra.
    rewrite <- Zlt_Qlt in Hlt. lia.
Qed.

Lemma round_ties_even_below_half (y : Q) (j : Z) :
  (y < inject_Z j - (1 # 2))%Q → round_ties_even y ≤ j - 1.
Proof.
  intros H. destruct (Qfloor_bounds y) as [Hlo Hhi].
  destruct (round_ties_even_cases y) as [[-> _]|[-> Hh]].
  - assert (inject_Z (Qfloor y) < inject_Z j)%Q as Hlt by lra.
    rewrite <- Zlt_Qlt in Hlt. lia.
  - assert (inject_Z (Qfloor y + 1) < inject_Z j)%Q as Hlt
      by (rewrite inject_Z_plus; change (inject_Z 1) with 1%Q; lra).
    rewrite <- Zlt_Qlt in Hlt. lia.
Qed.


Lemma spacing_pos (y : Q) : 0 < spacing y.
Proof. unfold spacing. apply Z.pow_pos_nonneg; lia. Qed.

Lemma spacing_pos_Q (y : Q) : (0 < inject_Z (spacing y))%Q.
Proof. rewrite <- (Zlt_Qlt 0). apply spacing_pos. Qed.

(** Below [2^b] the spacing is at most [2^(b - 53)]. *)
Lemma spacing_below (y : Q) (b : Z) :
  53 ≤ b → (y < inject_Z (2 ^ b))%Q →
  ∃ sh, 0 ≤ sh ≤ b - 53 ∧ spacing y = 2 ^ sh.
Proof.
  intros Hb Hy. exists (Z.max (Z.log2 (Qfloor y) - 52) 0). split; [|done].
  assert (Qfloor y < 2 ^ b) as Hf.
  { rewrite Zlt_Qlt. eapply Qle_lt_trans; [apply Qfloor_le | done]. }
  destruct (Z.le_gt_cases (Qfloor y) 0) as [H0|H0].
  - rewrite Z.log2_nonpos by done. lia.
  - apply Z.log2_lt_pow2 in Hf; [|done]. lia.
Qed.

(** From [2^a] to [2^(a+1)] the spacing is [2^(a - 52)]. *)
Lemma spacing_between (y : Q) (a : Z) :
  52 ≤ a → (inject_Z (2 ^ a) <= y)%Q → (y < inject_Z (2 ^ (a + 1)))%Q →
  spacing y = 2 ^ (a - 52).
Proof.
  intros Ha Hlo Hhi. unfold spacing.
  assert (Z.log2 (Qfloor y) = a) as ->.
  { apply Z.log2_unique; [lia|]. split.
    - apply Qfloor_resp_le in Hlo. by rewrite Qfloor_Z in Hlo.
    - rewrite Zlt_Qlt. eapply Qle_lt_trans; [apply Qfloor_le | done]. }
  f_equal. lia.
Qed.

Lemma pow2_split (t sh : Z) : 0 ≤ sh ≤ t → 2 ^ t = 2 ^ (t - sh) * 2 ^ sh.
Proof. intros H. rewrite <- Z.pow_add_r by lia. f_equal. lia. Qed.

(** [round64_pos x], in units of [2^-1074], is the number of steps of the
    spacing that is nearest to [x]. *)
Lemma round64_pos_units (x : Q) :
  (round64_pos x * inject_Z (2 ^ 1074) ==
   inject_Z (round_ties_even (x * inject_Z (2 ^ 1074) /
                              inject_Z (spacing (x * inject_Z (2 ^ 1074))))) *
   inject_Z (spacing (x * inject_Z (2 ^ 1074))))%Q.
Proof.
  unfold round64_pos. cbv zeta. rewrite inject_Z_mult.
  assert (0 < inject_Z (2 ^ 1074))%Q as HU.
  { rewrite <- (Zlt_Qlt 0). by apply Z.pow_pos_nonneg. }
  field. lra.
Qed.

Section units.
Variable x : Q.
Let y : Q := (x * inject_Z (2 ^ 1074))%Q.
Let s : Z := spacing y.

Lemma scaled_back : (y / inject_Z s * inject_Z s == y)%Q.
Proof. pose proof (spacing_pos_Q y). fold s in H. field. lra. Qed.

Lemma round64_pos_le_grid (j : Z) :
  (y <= inject_Z (j * s))%Q →
  (round64_pos x * inject_Z (2 ^ 1074) <= inject_Z (j * s))%Q.
Proof.
  intros H. rewrite round64_pos_units. fold y s.
  pose proof (spacing_pos_Q y) as Hs. fold s in Hs.
  rewrite inject_Z_mult in *.
  apply Qmult_le_compat_r; [|lra]. rewrite <- Zle_Qle.
  apply round_ties_even_le. apply Qle_shift_div_r; done.
Qed.

Lemma round64_pos_ge_grid (j : Z) :
  (inject_Z (j * s) <= y)%Q →
  (inject_Z (j * s) <= round64_pos x * inject_Z (2 ^ 1074))%Q.
Proof.
  intros H. rewrite round64_pos_units. fold y s.
  pose proof (spacing_pos_Q y) as Hs. fold s in Hs.
  rewrite inject_Z_mult in *.
  apply Qmult_le_compat_r; [|lra]. rewrite <- Zle_Qle.
  apply round_ties_even_ge. apply Qle_shift_div_l; done.
Qed.

Lemma round64_pos_below_half (j : Z) :
  (y < inject_Z (j * s) - inject_Z s * (1 # 2))%Q →
  (round64_pos x * inject_Z (2 ^ 1074) <= inject_Z ((j - 1) * s))%Q.
Proof.
  intros H. rewrite round64_pos_units. fold y s.
  pose proof (spacing_pos_Q y) as Hs. fold s in Hs.
  rewrite !inject_Z_mult in *.
  apply Qmult_le_compat_r; [|lra]. rewrite <- Zle_Qle.
  apply round_ties_even_below_half. apply Qlt_shift_div_r; [done|].
  lra.
Qed.

Lemma round64_pos_err :
  (- (inject_Z s * (1 # 2)) <= round64_pos x * inject_Z (2 ^ 1074) - y)%Q ∧
  (round64_pos x * inject_Z (2 ^ 1074) - y <= inject_Z s * (1 # 2))%Q.
Proof.
  rewrite round64_pos_units. fold y s.
  pose proof (spacing_pos_Q y) as Hs. fold s in Hs.
  pose proof scaled_back as Hy.
  destruct (round_ties_even_err (y / inject_Z s)) as [Hlo Hhi].
  split; nra.
Qed.

End units.


Lemma round64_nonneg (x : Q) : (0 <= x)%Q → round64 x = round64_pos x.
Proof.
  intros H. unfold round64. by rewrite (proj2 (Qle_bool_iff 0 x) H).
Qed.

Lemma round64_pos_le_dyadic (x : Q) (K t b : Z) :
  53 ≤ b → b - 53 ≤ t →
  (x * inject_Z (2 ^ 1074) < inject_Z (2 ^ b))%Q →
  (x * inject_Z (2 ^ 1074) <= inject_Z (K * 2 ^ t))%Q →
  (round64_pos x * inject_Z (2 ^ 1074) <= inject_Z (K * 2 ^ t))%Q.
Proof.
  intros Hb Ht Hlt Hle.
  destruct (spacing_below _ b Hb Hlt) as (sh & Hsh & Hs).
  replace (K * 2 ^ t) with (K * 2 ^ (t - sh) * spacing (x * inject_Z (2 ^ 1074))) in *
    by (rewrite Hs, (pow2_split t sh) by lia; ring).
  by apply round64_pos_le_grid.
Qed.

Lemma round64_pos_ge_dyadic (x : Q) (K t b : Z) :
  53 ≤ b → b - 53 ≤ t →
  (x * inject_Z (2 ^ 1074) < inject_Z (2 ^ b))%Q →
  (inject_Z (K * 2 ^ t) <= x * inject_Z (2 ^ 1074))%Q →
  (inject_Z (K * 2 ^ t) <= round64_pos x * inject_Z (2 ^ 1074))%Q.
Proof.
  intros Hb Ht Hlt Hle.
  destruct (spacing_below _ b Hb Hlt) as (sh & Hsh & Hs).
  replace (K * 2 ^ t) with (K * 2 ^ (t - sh) * spacing (x * inject_Z (2 ^ 1074))) in *
    by (rewrite Hs, (pow2_split t sh) by lia; ring).
  by apply round64_pos_ge_grid.
Qed.

Lemma round64_pos_err_below (x : Q) (b : Z) :
  53 ≤ b →
  (x * inject_Z (2 ^ 1074) < inject_Z (2 ^ b))%Q →
  (- (inject_Z (2 ^ (b - 53)) * (1 # 2)) <=
     round64_pos x * inject_Z (2 ^ 1074) - x * inject_Z (2 ^ 1074))%Q ∧
  (round64_pos x * inject_Z (2 ^ 1074) - x * inject_Z (2 ^ 1074) <=
     inject_Z (2 ^ (b - 53)) * (1 # 2))%Q.
Proof.
  intros Hb Hlt.
  destruct (spacing_below _ b Hb Hlt) as (sh & Hsh & Hs).
  destruct (round64_pos_err x) as [Hlo Hhi].
  assert (inject_Z (spacing (x * inject_Z (2 ^ 1074))) <= inject_Z (2 ^ (b - 53)))%Q
    as Hle.
  { rewrite <- Zle_Qle, Hs. apply Z.pow_le_mono_r; lia. }
  split; lra.
Qed.

(** Powers of two around the unit [2^1074], by the power [2^1041] that is
    the spacing of the binary64 values from [2^19] to [2^20]. *)
Lemma pow2_Q (a b : Z) :
  0 ≤ a → 0 ≤ b →
  (inject_Z (2 ^ (a + b)) == inject_Z (2 ^ a) * inject_Z (2 ^ b))%Q.
Proof. intros Ha Hb. by rewrite Z.pow_add_r, inject_Z_mult by done. Qed.

Lemma pow2_1041_pos : (0 < inject_Z (2 ^ 1041))%Q.
Proof. rewrite <- (Zlt_Qlt 0). by apply Z.pow_pos_nonneg. Qed.

Lemma pow2_1074 : (inject_Z (2 ^ 1074) == 8589934592 * inject_Z (2 ^ 1041))%Q.
Proof. by rewrite (pow2_Q 33 1041). Qed.

Lemma pow2_1094 :
  (inject_Z (2 ^ 1094) == 9007199254740992 * inject_Z (2 ^ 1041))%Q.
Proof. by rewrite (pow2_Q 53 1041). Qed.

Lemma pow2_1093 :
  (inject_Z (2 ^ 1093) == 4503599627370496 * inject_Z (2 ^ 1041))%Q.
Proof. by rewrite (pow2_Q 52 1041). Qed.


(** A binary64 value below 1 is at most [1 - 2^-53]. *)
Lemma binary64_below_one (r : Q) :
  (0 <= r)%Q → (r < 1)%Q → is_binary64 r = true →
  (r * 9007199254740992 <= 9007199254740991)%Q.
Proof.
  intros H0 H1 Hr. destruct (Qlt_le_dec r (1 # 2)) as [Hhalf|Hhalf]; [lra|].
  apply Qeq_bool_iff in Hr. rewrite round64_nonneg in Hr by done.
  pose proof (round64_pos_units r) as Hu. rewrite Hr in Hu.
  assert (inject_Z (2 ^ 1074) == 2 * inject_Z (2 ^ 1073))%Q as HU
    by by rewrite (pow2_Q 1 1073).
  assert (inject_Z (2 ^ 1074) == 9007199254740992 * inject_Z (2 ^ 1021))%Q as HU'
    by by rewrite (pow2_Q 53 1021).
  assert (0 < inject_Z (2 ^ 1021))%Q as HE.
  { rewrite <- (Zlt_Qlt 0). by apply Z.pow_pos_nonneg. }
  assert (0 < inject_Z (2 ^ 1073))%Q as HE'.
  { rewrite <- (Zlt_Qlt 0). by apply Z.pow_pos_nonneg. }
  rewrite (spacing_between _ 1073) in Hu; [| lia | nra | ].
  2:{ change (1073 + 1) with 1074. nra. }
  change (1073 - 52) with 1021 in Hu.
  set (q := round_ties_even _) in Hu.
  assert (q < 9007199254740992) as Hq.
  { rewrite Zlt_Qlt. change (inject_Z 9007199254740992) with 9007199254740992%Q.
    nra. }
  assert (inject_Z q <= 9007199254740991)%Q as Hq'.
  { change 9007199254740991%Q with (inject_Z 9007199254740991).
    rewrite <- Zle_Qle. lia. }
  nra.
Qed.

Lemma product_rounded (r : Q) :
  (0 <= r)%Q → (r < 1)%Q →
  (0 <= round64 (r * 900000))%Q ∧
  (- (1 # 17179869184) <= round64 (r * 900000) - r * 900000)%Q ∧
  (round64 (r * 900000) - r * 900000 <= 1 # 17179869184)%Q.
Proof.
  intros H0 H1. rewrite round64_nonneg by lra.
  pose proof pow2_1041_pos as HE. pose proof pow2_1074 as HU.
  pose proof pow2_1094 as HU'.
  assert (r * 900000 * inject_Z (2 ^ 1074) < inject_Z (2 ^ 1094))%Q as Hlt
    by nra.
  split.
  - pose proof (round64_pos_ge_dyadic (r * 900000) 0 1041 1094) as H.
    change (inject_Z (0 * 2 ^ 1041)) with 0%Q in H.
    assert (0 <= round64_pos (r * 900000) * inject_Z (2 ^ 1074))%Q as Hp
      by (apply H; [lia | lia | done | nra]).
    nra.
  - destruct (round64_pos_err_below (r * 900000) 1094) as [Hlo Hhi];
      [lia | done |].
    change (1094 - 53) with 1041 in *. split; nra.
Qed.

Lemma product_below (r : Q) :
  (0 <= r)%Q → (r * 9007199254740992 <= 9007199254740991)%Q →
  (round64 (r * 900000) <= 900000 - (1 # 8589934592))%Q.
Proof.
  intros H0 H1. rewrite round64_nonneg by lra.
  pose proof pow2_1041_pos as HE. pose proof pow2_1074 as HU.
  pose proof pow2_1094 as HU'. pose proof pow2_1093 as HU''.
  destruct (Qlt_le_dec (r * 900000 * inject_Z (2 ^ 1074)) (inject_Z (2 ^ 1093)))
    as [Hsmall|Hlarge].
  - pose proof (round64_pos_le_dyadic (r * 900000) 1 1093 1093) as H.
    rewrite Z.mul_1_l in H.
    assert (round64_pos (r * 900000) * inject_Z (2 ^ 1074) <= inject_Z (2 ^ 1093))%Q
      as Hp by (apply H; [lia | lia | done | lra]).
    nra.
  - pose proof (round64_pos_below_half (r * 900000) 7730941132800000) as H.
    cbv zeta in H.
    rewrite (spacing_between _ 1093) in H; [| lia | done | ].
    2:{ change (1093 + 1) with 1094. nra. }
    change (1093 - 52) with 1041 in H. rewrite !inject_Z_mult in H.
    change (inject_Z 7730941132800000) with 7730941132800000%Q in H.
    change (inject_Z (7730941132800000 - 1)) with 7730941132799999%Q in H.
    assert (round64_pos (r * 900000) * inject_Z (2 ^ 1074) <=
            7730941132799999 * inject_Z (2 ^ 1041))%Q as Hp
      by (apply H; nra).
    nra.
Qed.

Lemma sum_rounded (p : Q) :
  (0 <= p)%Q → (p <= 900000 - (1 # 8589934592))%Q →
  (100000 <= round64 (100000 + p))%Q ∧
  (round64 (100000 + p) <= 1000000 - (1 # 8589934592))%Q ∧
  (- (1 # 17179869184) <= round64 (100000 + p) - (100000 + p))%Q ∧
  (round64 (100000 + p) - (100000 + p) <= 1 # 17179869184)%Q.
Proof.
  intros H0 H1. rewrite round64_nonneg by lra.
  pose proof pow2_1041_pos as HE. pose proof pow2_1074 as HU.
  pose proof pow2_1094 as HU'.
  assert ((100000 + p) * inject_Z (2 ^ 1074) < inject_Z (2 ^ 1094))%Q as Hlt
    by nra.
  split; [|split].
  - pose proof (round64_pos_ge_dyadic (100000 + p) 858993459200000 1041 1094)
      as H.
    rewrite inject_Z_mult in H.
    change (inject_Z 858993459200000) with 858993459200000%Q in H.
    assert (858993459200000 * inject_Z (2 ^ 1041) <=
            round64_pos (100000 + p) * inject_Z (2 ^ 1074))%Q as Hp
      by (apply H; [lia | lia | done | nra]).
    nra.
  - pose proof (round64_pos_le_dyadic (100000 + p) 8589934591999999 1041 1094)
      as H.
    rewrite inject_Z_mult in H.
    change (inject_Z 8589934591999999) with 8589934591999999%Q in H.
    assert (round64_pos (100000 + p) * inject_Z (2 ^ 1074) <=
            8589934591999999 * inject_Z (2 ^ 1041))%Q as Hp
      by (apply H; [lia | lia | done | nra]).
    nra.
  - destruct (round64_pos_err_below (100000 + p) 1094) as [Hlo Hhi];
      [lia | done |].
    change (1094 - 53) with 1041 in *. split; nra.
Qed.


(** A multiple of [2^-53] below 1 is a binary64 value. *)
Lemma binary64_dyadic (k : Z) :
  0 ≤ k < 9007199254740992 →
  is_binary64 (k # 9007199254740992) = true.
Proof.
  intros Hk. apply Qeq_bool_iff.
  assert (0 <= k # 9007199254740992)%Q as H0 by (unfold Qle; simpl; lia).
  rewrite round64_nonneg by done.
  set (x := k # 9007199254740992) in *.
  assert (0 < inject_Z (2 ^ 1074))%Q as HU.
  { rewrite <- (Zlt_Qlt 0). by apply Z.pow_pos_nonneg. }
  assert (x * inject_Z (2 ^ 1074) == inject_Z (k * 2 ^ 1021))%Q as Hy.
  { rewrite (pow2_Q 53 1021), inject_Z_mult by done.
    change (inject_Z (2 ^ 53)) with 9007199254740992%Q.
    assert (x * 9007199254740992 == inject_Z k)%Q as Hx
      by (unfold x, Qeq; simpl; lia).
    rewrite <- Hx. ring. }
  assert (x * inject_Z (2 ^ 1074) < inject_Z (2 ^ 1074))%Q as Hlt.
  { rewrite Hy, <- Zlt_Qlt, (pow2_split 1074 1021) by lia.
    apply Z.mul_lt_mono_pos_r; [by apply Z.pow_pos_nonneg|].
    change (2 ^ (1074 - 1021)) with 9007199254740992. lia. }
  destruct (spacing_below _ 1074 ltac:(lia) Hlt) as (sh & Hsh & Hs).
  pose proof (round64_pos_units x) as Hu. rewrite Hs in Hu.
  assert (0 < inject_Z (2 ^ sh))%Q as Hpos.
  { rewrite <- (Zlt_Qlt 0). apply Z.pow_pos_nonneg; lia. }
  assert (x * inject_Z (2 ^ 1074) / inject_Z (2 ^ sh) ==
          inject_Z (k * 2 ^ (1021 - sh)))%Q as Hq.
  { rewrite Hy, (pow2_split 1021 sh), Z.mul_assoc, inject_Z_mult by lia.
    field. lra. }
  rewrite (round_ties_even_comp _ _ Hq), round_ties_even_Z in Hu.
  rewrite <- inject_Z_mult, <- Z.mul_assoc, <- pow2_split, <- Hy in Hu by lia.
  nra.
Qed.

End rounding.

(** The number that [generateOTP] prints lies between 100000 and 999999. *)
Lemma generateOTP_number (r : Q) :
  (0 <= r)%Q → (r < 1)%Q → is_binary64 r = true →
  100000 ≤ Qfloor (round64 (100000 + round64 (r * 900000))) ≤ 999999.
Proof.
  intros H0 H1 Hr.
  destruct (product_rounded r H0 H1) as (Hp0 & _ & _).
  pose proof (product_below r H0 (binary64_below_one r H0 H1 Hr)) as Hp1.
  destruct (sum_rounded _ Hp0 Hp1) as (Hlo & Hhi & _).
  split.
  - change 100000 with (Qfloor (inject_Z 100000)) at 1.
    by apply Qfloor_resp_le.
  - pose proof (Qfloor_le (round64 (100000 + round64 (r * 900000)))) as Hfl.
    assert (inject_Z (Qfloor (round64 (100000 + round64 (r * 900000)))) <
            inject_Z 1000000)%Q as Hlt.
    { change (inject_Z 1000000) with 1000000%Q. lra. }
    rewrite <- Zlt_Qlt in Hlt. lia.
Qed.

(** The sum that is floored is within [2^-33] of the exact one. *)
Lemma generateOTP_error (r : Q) :
  (0 <= r)%Q → (r < 1)%Q → is_binary64 r = true →
  (- (1 # 8589934592) <=
     round64 (100000 + round64 (r * 900000)) - (100000 + r * 900000))%Q ∧
  (round64 (100000 + round64 (r * 900000)) - (100000 + r * 900000) <=
     1 # 8589934592)%Q.
Proof.
  intros H0 H1 Hr.
  destruct (product_rounded r H0 H1) as (Hp0 & Hplo & Hphi).
  pose proof (product_below r H0 (binary64_below_one r H0 H1 Hr)) as Hp1.
  destruct (sum_rounded _ Hp0 Hp1) as (_ & _ & Hslo & Hshi).
  split; lra.
Qed.

Lemma generateOTP_only_if (r : Q) (m : Z) :
  (0 <= r)%Q → (r < 1)%Q → is_binary64 r = true → 100000 ≤ m ≤ 999999 →
  generateOTP r = Number_toString m →
  (inject_Z m - 100000 - (1 # 8589934592) <= r * 900000 ∧
   r * 900000 < inject_Z m - 99999 + (1 # 8589934592))%Q.
Proof.
  intros H0 H1 Hr Hm Heq. unfold generateOTP in Heq.
  apply Number_toString_six_inj in Heq; [|by apply generateOTP_number|done].
  apply Qfloor_eq_iff in Heq as [Hlo Hhi].
  rewrite inject_Z_plus in Hhi. change (inject_Z 1) with 1%Q in Hhi.
  destruct (generateOTP_error r H0 H1 Hr) as [Helo Hehi]. split; lra.
Qed.

Lemma generateOTP_if (r : Q) (m : Z) :
  (0 <= r)%Q → (r < 1)%Q → is_binary64 r = true →
  (inject_Z m - 100000 + (1 # 8589934592) <= r * 900000 ∧
   r * 900000 < inject_Z m - 99999 - (1 # 8589934592))%Q →
  generateOTP r = Number_toString m.
Proof.
  intros H0 H1 Hr [Hlo Hhi]. unfold generateOTP. f_equal.
  destruct (generateOTP_error r H0 H1 Hr) as [Helo Hehi].
  apply Qfloor_eq_iff. rewrite inject_Z_plus. change (inject_Z 1) with 1%Q.
  split; lra.
Qed.

(** Every number from 100000 to 999999 is printed for some binary64 value:
    the first multiple of [2^-53] past the middle of its interval. *)
Lemma generateOTP_reaches (m : Z) :
  100000 ≤ m ≤ 999999 →
  ∃ r, (0 <= r)%Q ∧ (r < 1)%Q ∧ is_binary64 r = true ∧
       generateOTP r = Number_toString m.
Proof.
  intros Hm.
  set (k := ((2 * (m - 100000) + 1) * 4503599627370496 + 899999) / 900000).
  assert ((2 * (m - 100000) + 1) * 4503599627370496 ≤ 900000 * k ∧
          900000 * k ≤ (2 * (m - 100000) + 1) * 4503599627370496 + 899999)
    as [Hklo Hkhi] by (unfold k; decimal).
  assert (0 ≤ k < 9007199254740992) as Hk by lia.
  exists (k # 9007199254740992).
  assert (0 <= k # 9007199254740992)%Q as H0 by (unfold Qle; simpl; lia).
  assert (k # 9007199254740992 < 1)%Q as H1 by (unfold Qlt; simpl; lia).
  pose proof (binary64_dyadic k Hk) as Hr.
  split; [done|]. split; [done|]. split; [done|].
  apply generateOTP_if; [done..|].
  unfold Qle, Qlt, Qminus, Qplus, Qmult, Qopp, inject_Z. simpl. lia.
Qed.

(** C3 (as amended). Whatever binary64 value in [0, 1) the random source
    returns, the code, computed in binary64 as the source computes it, is
    the decimal writing of a whole number between 100000 and 999999: six
    decimal digits of which the first is never 0. A number [m] of that range
    is the code only if the value times 900000, taken exactly, lies in
    [m - 100000, m - 99999) widened by [2^-33] at either end, and is the code
    whenever it lies in that interval narrowed by [2^-33] at either end: up
    to the rounding, an interval of the same length for every [m]. Each
    such [m] is the code for some binary64 value of the source. *)
Theorem generateOTP_codes (r : Q) (m : Z) :
  (0 <= r)%Q → (r < 1)%Q → is_binary64 r = true → 100000 ≤ m ≤ 999999 →
  (∃ n, 100000 ≤ n ≤ 999999 ∧ generateOTP r = Number_toString n) ∧
  six_digit_code (generateOTP r) = true ∧
  String.get 0 (generateOTP r) ≠ Some "0"%char ∧
  (generateOTP r = Number_toString m →
     (inject_Z m - 100000 - (1 # 8589934592) <= r * 900000 ∧
      r * 900000 < inject_Z m - 99999 + (1 # 8589934592))%Q) ∧
  ((inject_Z m - 100000 + (1 # 8589934592) <= r * 900000 ∧
    r * 900000 < inject_Z m - 99999 - (1 # 8589934592))%Q →
   generateOTP r = Number_toString m) ∧
  (∃ r', (0 <= r')%Q ∧ (r' < 1)%Q ∧ is_binary64 r' = true ∧
         generateOTP r' = Number_toString m).
Proof.
  intros H0 H1 Hr Hm. pose proof (generateOTP_number r H0 H1 Hr) as Hn.
  split; [by eexists|].
  destruct (Number_toString_six_shape _ Hn) as [Hshape Hlead].
  split; [done|]. split; [done|].
  split; [by apply generateOTP_only_if|].
  split; [by apply generateOTP_if|].
  by apply generateOTP_reaches.
Qed.

Lemma generateOTP_codes_witness :
  (∃ n, 100000 ≤ n ≤ 999999 ∧
        generateOTP (123183457807755 # 4503599627370496) = Number_toString n) ∧
  six_digit_code (generateOTP (123183457807755 # 4503599627370496)) = true ∧
  String.get 0 (generateOTP (123183457807755 # 4503599627370496)) ≠
    Some "0"%char ∧
  (generateOTP (123183457807755 # 4503599627370496) = Number_toString 124617 →
     (inject_Z 124617 - 100000 - (1 # 8589934592) <=
        (123183457807755 # 4503599627370496) * 900000 ∧
      (123183457807755 # 4503599627370496) * 900000 <
        inject_Z 124617 - 99999 + (1 # 8589934592))%Q) ∧
  ((inject_Z 124617 - 100000 + (1 # 8589934592) <=
      (123183457807755 # 4503599627370496) * 900000 ∧
    (123183457807755 # 4503599627370496) * 900000 <
      inject_Z 124617 - 99999 - (1 # 8589934592))%Q →
   generateOTP (123183457807755 # 4503599627370496) = Number_toString 124617) ∧
  (∃ r', (0 <= r')%Q ∧ (r' < 1)%Q ∧ is_binary64 r' = true ∧
         generateOTP r' = Number_toString 124617).
Proof.
  apply (generateOTP_codes (123183457807755 # 4503599627370496) 124617);
    [discriminate | reflexivity | vm_compute; reflexivity | lia].
Defined.

(** C3, as stated, fails: "000000" is a fixed-width string of six decimal
    digits and no value of the random source yields it. *)
Lemma generateOTP_misses_leading_zero :
  ¬ (∀ s, six_digit_code s = true →
       ∃ r, (0 <= r)%Q ∧ (r < 1)%Q ∧ is_binary64 r = true ∧
            generateOTP r = s).
Proof.
  intros Hall. destruct (Hall "000000" eq_refl) as (r & H0 & H1 & Hr & Heq).
  destruct (Number_toString_six_shape _ (generateOTP_number r H0 H1 Hr))
    as [_ Hlead].
  apply Hlead. unfold generateOTP in Heq. by rewrite Heq.
Qed.

(** The rounding shows: for [Math.random() = 123183457807755 / 2^52] the
    exact sum is just below 124617 and the binary64 sum is 124617, so the
    code is "124617" where exact arithmetic would give 124616. *)
Example generateOTP_rounds :
  is_binary64 (123183457807755 # 4503599627370496) = true ∧
  generateOTP (123183457807755 # 4503599627370496) = "124617" ∧
  Qfloor (100000 + (123183457807755 # 4503599627370496) * 900000) = 124616.
Proof. vm_compute. repeat split. Qed.

(** On the bit patterns, the operations of [SpecFloat] give the same codes:
    at the two ends of the range of [Math.random()], at the value above and
    at values across the range. *)
Example generateOTP_binary64_ends :
  generateOTP_binary64 (S754_zero false) = "100000" ∧
  generateOTP_binary64 below_one = "999999".
Proof. vm_compute. split; reflexivity. Qed.

Example generateOTP_binary64_agrees :
  forallb (λ x, is_binary64 (Number_of x) &&
                String.eqb (generateOTP (Number_of x)) (generateOTP_binary64 x))
    [S754_zero false; below_one;
     S754_finite false 123183457807755 (-52);
     S754_finite false 3842276046088655 (-53);
     S754_finite false 1 (-1074);
     S754_finite false 4503599627370496 (-53);
     S754_finite false 4503599627370497 (-53);
     S754_finite false 6004799503160661 (-54);
     S754_finite false 7205759403792794 (-56);
     S754_finite false 5000000000000001 (-53);
     S754_finite false 8999999999999999 (-53);
     S754_finite false 9007199254740990 (-53);
     S754_finite false 4503599627370495 (-1074)] = true.
Proof. vm_compute. reflexivity. Qed.

(** The codes of the sample environments. *)
Lemma sample_code : generateOTP (Math_random Sample.env) = "483920".
Proof. vm_compute. reflexivity. Qed.

Lemma sample_mail_down_code :
  generateOTP (Math_random Sample.env_mail_down) = "483920".
Proof. vm_compute. reflexivity. Qed.

Lemma sample_other_code :
  generateOTP (Math_random Sample.env_other_code) = "550000".
Proof. vm_compute. reflexivity. Qed.

(** *** Sending and verifying *)

(** What [send-otp] leaves in the store for a well-formed address, whether
    or not the mail goes out. *)
Lemma send_otp_store (env : send_env) (email : string) (st : otpStorage) :
  test emailRegex email = true →
  (send_otp env (Some email) st).2 =
    <[email := OtpRecord (generateOTP (Math_random env))
                         (Date_now env + 300000) 0]> st.
Proof.
  intros Ht. unfold send_otp.
  rewrite (truthy_Some email) by by apply emailRegex_nonempty.
  simpl. rewrite Ht. simpl. by destruct (sendMail env _).
Qed.

(** The four ways through [verify-otp] once a record is found. *)
Lemma verify_otp_found (idp : auth_provider) (now : Z) (email code : string)
    (st : otpStorage) (rec : otp_record) :
  email ≠ "" → code ≠ "" → st !! email = Some rec →
  verify_otp idp now (Some email) (Some code) st =
    if now >? expiresAt rec then
      (message 400 "OTP has expired", delete email st)
    else if attempts rec >=? 3 then
      (message 400 "Too many failed attempts. Please request a new OTP.",
       delete email st)
    else if negb (String.eqb (otp rec) code) then
      (message 400 "Invalid OTP",
       <[email := OtpRecord (otp rec) (expiresAt rec) (attempts rec + 1)]> st)
    else
      match get_or_create_user idp email with
      | None => (message 500 "Failed to create authentication token", st)
      | Some uid =>
          match createCustomToken idp uid email with
          | None => (message 500 "Failed to create authentication token", st)
          | Some customToken =>
              (Response 200 [("message", JStr "OTP verified successfully");
                             ("token", JStr customToken)],
               delete email st)
          end
      end.
Proof.
  intros He Hc Hst. unfold verify_otp.
  rewrite (truthy_Some email He), (truthy_Some code Hc). simpl.
  by rewrite Hst.
Qed.

Lemma verify_otp_absent (idp : auth_provider) (now : Z) (email code : string)
    (st : otpStorage) :
  email ≠ "" → code ≠ "" → st !! email = None →
  verify_otp idp now (Some email) (Some code) st =
    (message 400 "OTP not found or expired", st).
Proof.
  intros He Hc Hst. unfold verify_otp.
  rewrite (truthy_Some email He), (truthy_Some code Hc). simpl.
  by rewrite Hst.
Qed.

(** A mismatch on a record that is neither expired nor exhausted: the
    counter goes up by one and the record stays. *)
Lemma verify_otp_mismatch (idp : auth_provider) (now : Z)
    (email code wrong : string) (e a : Z) (st : otpStorage) :
  email ≠ "" → wrong ≠ "" → wrong ≠ code → now ≤ e → a < 3 →
  st !! email = Some (OtpRecord code e a) →
  verify_otp idp now (Some email) (Some wrong) st =
    (message 400 "Invalid OTP", <[email := OtpRecord code e (a + 1)]> st).
Proof.
  intros He Hw Hne Hnow Ha Hst.
  rewrite (verify_otp_found _ _ _ _ _ _ He Hw Hst). simpl.
  replace (now >? e) with false by lia.
  replace (a >=? 3) with false by lia.
  destruct (String.eqb_spec code wrong) as [->|_]; [done | reflexivity].
Qed.

(** C1 (as amended). For every well-formed address, once [send-otp] has
    stored a code, a first [verify-otp] with that code, made before the
    expiry and with the identity provider answering, returns the token and
    deletes the record; a second [verify-otp] with the same address and
    code finds no record and is answered with status 400 and the message
    "OTP not found or expired", leaving the store as it is. *)
Theorem verify_otp_single_use (env : send_env) (idp : auth_provider)
    (email uid token : string) (t1 t2 : Z) (st : otpStorage) :
  test emailRegex email = true →
  t1 ≤ Date_now env + 300000 →
  get_or_create_user idp email = Some uid →
  createCustomToken idp uid email = Some token →
  let code := generateOTP (Math_random env) in
  let sent := send_otp env (Some email) st in
  let first := verify_otp idp t1 (Some email) (Some code) sent.2 in
  let second := verify_otp idp t2 (Some email) (Some code) first.2 in
  sent.2 !! email = Some (OtpRecord code (Date_now env + 300000) 0) ∧
  first.1 = Response 200 [("message", JStr "OTP verified successfully");
                          ("token", JStr token)] ∧
  first.2 !! email = None ∧
  second.1 = message 400 "OTP not found or expired" ∧
  second.2 = first.2.
Proof.
  intros Ht Ht1 Huid Htok code sent first second.
  pose proof (emailRegex_nonempty _ Ht) as He.
  pose proof (generateOTP_nonempty (Math_random env)) as Hc.
  assert (Hsent : sent.2 !! email =
            Some (OtpRecord code (Date_now env + 300000) 0)).
  { subst sent. rewrite send_otp_store by done. apply lookup_insert_eq. }
  assert (Hfirst : first =
            (Response 200 [("message", JStr "OTP verified successfully");
                           ("token", JStr token)], delete email sent.2)).
  { subst first. rewrite (verify_otp_found _ _ _ _ _ _ He Hc Hsent). simpl.
    replace (t1 >? Date_now env + 300000) with false by lia.
    fold code. rewrite String.eqb_refl. simpl. by rewrite Huid, Htok. }
  assert (Hgone : first.2 !! email = None).
  { rewrite Hfirst. apply lookup_delete_eq. }
  split; [done|]. split; [by rewrite Hfirst|]. split; [done|].
  subst second. by rewrite (verify_otp_absent _ _ _ _ _ He Hc Hgone).
Qed.

Lemma verify_otp_single_use_witness :
  let sent := send_otp Sample.env (Some "x@ceg.edu") ∅ in
  let first := verify_otp Sample.idp 2000 (Some "x@ceg.edu") (Some "483920") sent.2 in
  let second := verify_otp Sample.idp 3000 (Some "x@ceg.edu") (Some "483920") first.2 in
  sent.2 !! "x@ceg.edu" = Some (OtpRecord "483920" 301000 0) ∧
  first.1 = Response 200 [("message", JStr "OTP verified successfully");
                          ("token", JStr "token:uid:x@ceg.edu")] ∧
  first.2 !! "x@ceg.edu" = None ∧
  second.1 = message 400 "OTP not found or expired" ∧
  second.2 = first.2.
Proof.
  cbv zeta. rewrite <- sample_code.
  apply (verify_otp_single_use Sample.env Sample.idp "x@ceg.edu"
           "uid:x@ceg.edu" "token:uid:x@ceg.edu" 2000 3000 ∅);
    [reflexivity | vm_compute; discriminate | reflexivity | reflexivity].
Defined.

(** C1, as stated, fails: the second [verify-otp] is answered with status
    400, not with the 404 of the taxonomy's NotFound. *)
Lemma verify_otp_second_call_status :
  let sent := send_otp Sample.env (Some "x@ceg.edu") ∅ in
  let first := verify_otp Sample.idp 2000 (Some "x@ceg.edu") (Some "483920") sent.2 in
  let second := verify_otp Sample.idp 3000 (Some "x@ceg.edu") (Some "483920") first.2 in
  status first.1 = 200 ∧ status second.1 = 400 ∧ status second.1 ≠ 404.
Proof. vm_compute. repeat split; discriminate. Qed.

(** C2. From the record that [send-otp] stores, three [verify-otp] calls
    in a row with a wrong code, each made before the expiry, are each
    answered "Invalid OTP" while the attempt counter is stored as 1, 2 and
    3 and the record stays; the fourth call, with the correct code, is
    answered "Too many failed attempts" and the record is deleted. *)
Theorem verify_otp_attempt_limit (env : send_env) (idp : auth_provider)
    (email w1 w2 w3 : string) (t1 t2 t3 t4 : Z) (st : otpStorage) :
  test emailRegex email = true →
  let code := generateOTP (Math_random env) in
  let expiry := Date_now env + 300000 in
  w1 ≠ "" ∧ w2 ≠ "" ∧ w3 ≠ "" →
  w1 ≠ code ∧ w2 ≠ code ∧ w3 ≠ code →
  t1 ≤ expiry ∧ t2 ≤ expiry ∧ t3 ≤ expiry ∧ t4 ≤ expiry →
  let issued := (send_otp env (Some email) st).2 in
  let r1 := verify_otp idp t1 (Some email) (Some w1) issued in
  let r2 := verify_otp idp t2 (Some email) (Some w2) r1.2 in
  let r3 := verify_otp idp t3 (Some email) (Some w3) r2.2 in
  let r4 := verify_otp idp t4 (Some email) (Some code) r3.2 in
  (r1.1 = message 400 "Invalid OTP" ∧
   r1.2 !! email = Some (OtpRecord code expiry 1)) ∧
  (r2.1 = message 400 "Invalid OTP" ∧
   r2.2 !! email = Some (OtpRecord code expiry 2)) ∧
  (r3.1 = message 400 "Invalid OTP" ∧
   r3.2 !! email = Some (OtpRecord code expiry 3)) ∧
  r4.1 = message 400 "Too many failed attempts. Please request a new OTP." ∧
  r4.2 !! email = None.
Proof.
  intros Ht code expiry (Hw1 & Hw2 & Hw3) (Hn1 & Hn2 & Hn3)
    (Ht1 & Ht2 & Ht3 & Ht4) issued r1 r2 r3 r4.
  pose proof (emailRegex_nonempty _ Ht) as He.
  pose proof (generateOTP_nonempty (Math_random env)) as Hc.
  assert (H0 : issued !! email = Some (OtpRecord code expiry 0)).
  { subst issued. rewrite send_otp_store by done. apply lookup_insert_eq. }
  assert (E1 : r1 = (message 400 "Invalid OTP",
                     <[email := OtpRecord code expiry (0 + 1)]> issued)).
  { subst r1. by apply verify_otp_mismatch. }
  assert (H1 : r1.2 !! email = Some (OtpRecord code expiry 1)).
  { rewrite E1. apply lookup_insert_eq. }
  assert (E2 : r2 = (message 400 "Invalid OTP",
                     <[email := OtpRecord code expiry (1 + 1)]> r1.2)).
  { subst r2. by apply verify_otp_mismatch. }
  assert (H2 : r2.2 !! email = Some (OtpRecord code expiry 2)).
  { rewrite E2. apply lookup_insert_eq. }
  assert (E3 : r3 = (message 400 "Invalid OTP",
                     <[email := OtpRecord code expiry (2 + 1)]> r2.2)).
  { subst r3. by apply verify_otp_mismatch. }
  assert (H3 : r3.2 !! email = Some (OtpRecord code expiry 3)).
  { rewrite E3. apply lookup_insert_eq. }
  assert (E4 : r4 =
            (message 400 "Too many failed attempts. Please request a new OTP.",
             delete email r3.2)).
  { subst r4. rewrite (verify_otp_found _ _ _ _ _ _ He Hc H3). simpl.
    by replace (t4 >? expiry) with false by lia. }
  repeat split; try done; try (by rewrite E1); try (by rewrite E2);
    try (by rewrite E3); rewrite E4; [done | apply lookup_delete_eq].
Qed.

Lemma verify_otp_attempt_limit_witness :
  let issued := (send_otp Sample.env (Some "x@ceg.edu") ∅).2 in
  let r1 := verify_otp Sample.idp 2000 (Some "x@ceg.edu") (Some "000000") issued in
  let r2 := verify_otp Sample.idp 3000 (Some "x@ceg.edu") (Some "111111") r1.2 in
  let r3 := verify_otp Sample.idp 4000 (Some "x@ceg.edu") (Some "000000") r2.2 in
  let r4 := verify_otp Sample.idp 5000 (Some "x@ceg.edu") (Some "483920") r3.2 in
  (r1.1 = message 400 "Invalid OTP" ∧
   r1.2 !! "x@ceg.edu" = Some (OtpRecord "483920" 301000 1)) ∧
  (r2.1 = message 400 "Invalid OTP" ∧
   r2.2 !! "x@ceg.edu" = Some (OtpRecord "483920" 301000 2)) ∧
  (r3.1 = message 400 "Invalid OTP" ∧
   r3.2 !! "x@ceg.edu" = Some (OtpRecord "483920" 301000 3)) ∧
  r4.1 = message 400 "Too many failed attempts. Please request a new OTP." ∧
  r4.2 !! "x@ceg.edu" = None.
Proof.
  cbv zeta. rewrite <- sample_code.
  apply (verify_otp_attempt_limit Sample.env Sample.idp "x@ceg.edu"
           "000000" "111111" "000000" 2000 3000 4000 5000 ∅);
    [reflexivity | repeat split; discriminate
    | rewrite sample_code; repeat split; discriminate
    | repeat split; vm_compute; discriminate].
Defined.

Lemma send_otp_response (env : send_env) (email : string) (st : otpStorage) :
  test emailRegex email = true →
  (send_otp env (Some email) st).1 =
    if sendMail env (mail_of email (generateOTP (Math_random env)))
    then Response 200 [("message", JStr "OTP sent successfully");
                       ("expiresIn", JNum 300)]
    else message 500 "Failed to send OTP. Please try again.".
Proof.
  intros Ht. unfold send_otp.
  rewrite (truthy_Some email) by by apply emailRegex_nonempty.
  simpl. rewrite Ht. simpl. by destruct (sendMail env _).
Qed.

(** C8. For every well-formed address, the success response of [send-otp]
    is the message together with [expiresIn: 300], the seconds after
    which the stored record expires, and nothing else: no property of the
    body holds the code, and two runs that differ only in the value drawn
    from the random source, and so in the code, and that both get the mail
    out, answer with the same body. *)
Theorem send_otp_response_hides_code (env : send_env) (r' : Q)
    (email : string) (st : otpStorage) :
  let env' := SendEnv r' (Date_now env) (sendMail env) in
  test emailRegex email = true →
  (0 <= Math_random env)%Q ∧ (Math_random env < 1)%Q →
  sendMail env (mail_of email (generateOTP (Math_random env))) = true →
  sendMail env' (mail_of email (generateOTP (Math_random env'))) = true →
  let answer := (send_otp env (Some email) st).1 in
  answer = Response 200 [("message", JStr "OTP sent successfully");
                         ("expiresIn", JNum 300)] ∧
  json answer = json (send_otp env' (Some email) st).1 ∧
  (∀ k v, field k answer = Some v → v ≠ JStr (generateOTP (Math_random env))) ∧
  expiresAt <$> (send_otp env (Some email) st).2 !! email =
    Some (Date_now env + 300 * 1000).
Proof.
  intros env' Ht [H0 H1] Hm Hm' answer. subst answer.
  rewrite !send_otp_response by done. rewrite Hm, Hm'.
  rewrite send_otp_store by done. rewrite lookup_insert_eq.
  repeat split; try done.
  intros k v Hk Hv. subst v.
  unfold field in Hk. simpl in Hk.
  destruct (String.eqb k "message"); [|by destruct (String.eqb k "expiresIn")].
  injection Hk as Hk. unfold generateOTP in Hk.
  destruct (Number_toString_numeric
              (Qfloor (round64 (100000 + round64 (Math_random env * 900000)))))
    as [Hnum|Hnum]; rewrite <- Hk in Hnum; vm_compute in Hnum; discriminate.
Qed.

Lemma send_otp_response_hides_code_witness :
  let answer := (send_otp Sample.env (Some "x@ceg.edu") ∅).1 in
  answer = Response 200 [("message", JStr "OTP sent successfully");
                         ("expiresIn", JNum 300)] ∧
  json answer = json (send_otp Sample.env_other_code (Some "x@ceg.edu") ∅).1 ∧
  (∀ k v, field k answer = Some v → v ≠ JStr "483920") ∧
  expiresAt <$> (send_otp Sample.env (Some "x@ceg.edu") ∅).2 !! "x@ceg.edu" =
    Some (1000 + 300 * 1000).
Proof.
  cbv zeta. rewrite <- sample_code.
  apply (send_otp_response_hides_code Sample.env (1 # 2) "x@ceg.edu" ∅);
    [reflexivity | split; [discriminate | reflexivity] | reflexivity
    | reflexivity].
Defined.

(** C9. [send-otp] writes the store before it hands the mail to the
    transport: when the transport fails, the answer is the status 500 and
    the store nevertheless holds, for that address, the new code with the
    new expiry and [attempts = 0] in place of whatever was stored, so the
    store has changed unless it held exactly that record; every other
    address is untouched, and a code stored before, if it differs from the
    new one, is from then on answered "Invalid OTP". *)
Theorem send_otp_stores_before_dispatch (env : send_env) (email : string)
    (st : otpStorage) :
  test emailRegex email = true →
  sendMail env (mail_of email (generateOTP (Math_random env))) = false →
  let r := send_otp env (Some email) st in
  let fresh := OtpRecord (generateOTP (Math_random env))
                         (Date_now env + 300000) 0 in
  r.1 = message 500 "Failed to send OTP. Please try again." ∧
  r.2 = <[email := fresh]> st ∧
  r.2 !! email = Some fresh ∧
  (st !! email ≠ Some fresh → r.2 ≠ st) ∧
  (∀ other, other ≠ email → r.2 !! other = st !! other) ∧
  (∀ idp now prior,
     prior ≠ "" → prior ≠ generateOTP (Math_random env) →
     now ≤ Date_now env + 300000 →
     (verify_otp idp now (Some email) (Some prior) r.2).1 =
       message 400 "Invalid OTP").
Proof.
  intros Ht Hm r fresh.
  pose proof (emailRegex_nonempty _ Ht) as He.
  assert (Hst : r.2 = <[email := fresh]> st).
  { subst r. by rewrite send_otp_store. }
  split; [subst r; by rewrite send_otp_response, Hm|].
  split; [done|]. rewrite Hst.
  split; [apply lookup_insert_eq|].
  split; [intros Hold Heq; apply Hold; rewrite <- Heq; apply lookup_insert_eq|].
  split; [intros other Hne; by rewrite lookup_insert_ne|].
  intros idp now prior Hp Hne Hnow.
  erewrite verify_otp_mismatch; [done..| | |apply lookup_insert_eq]; lia.
Qed.

Lemma send_otp_stores_before_dispatch_witness :
  let st := {["x@ceg.edu" := OtpRecord "123456" 200000 2]} : otpStorage in
  let r := send_otp Sample.env_mail_down (Some "x@ceg.edu") st in
  let fresh := OtpRecord "483920" 301000 0 in
  r.1 = message 500 "Failed to send OTP. Please try again." ∧
  r.2 = <[ "x@ceg.edu" := fresh]> st ∧
  r.2 !! "x@ceg.edu" = Some fresh ∧
  (st !! "x@ceg.edu" ≠ Some fresh → r.2 ≠ st) ∧
  (∀ other, other ≠ "x@ceg.edu" → r.2 !! other = st !! other) ∧
  (∀ idp now prior,
     prior ≠ "" → prior ≠ "483920" → now ≤ 301000 →
     (verify_otp idp now (Some "x@ceg.edu") (Some prior) r.2).1 =
       message 400 "Invalid OTP").
Proof.
  cbv zeta. rewrite <- sample_mail_down_code.
  apply (send_otp_stores_before_dispatch Sample.env_mail_down "x@ceg.edu"
           {["x@ceg.edu" := OtpRecord "123456" 200000 2]});
    reflexivity.
Defined.

(** The run of the specification: a code is sent, a wrong code is refused
    and counted, the right code is then accepted and the record is gone. *)
Example otp_scenario :
  let issued := (send_otp Sample.env (Some "x@ceg.edu") ∅).2 in
  let wrong := verify_otp Sample.idp 2000 (Some "x@ceg.edu") (Some "000000") issued in
  let right := verify_otp Sample.idp 3000 (Some "x@ceg.edu") (Some "483920") wrong.2 in
  issued !! "x@ceg.edu" = Some (OtpRecord "483920" (1000 + 300000) 0) ∧
  wrong.1 = message 400 "Invalid OTP" ∧
  attempts <$> wrong.2 !! "x@ceg.edu" = Some 1 ∧
  status right.1 = 200 ∧
  right.2 !! "x@ceg.edu" = None.
Proof. vm_compute. repeat split. Qed.

(** *** The sweep *)

Lemma cleanup_lookup (now : Z) (st : otpStorage) (email : string) :
  cleanup now st !! email =
    match st !! email with
    | Some rec => if now >? expiresAt rec then None else Some rec
    | None => None
    end.
Proof.
  unfold cleanup. rewrite map_lookup_filter.
  destruct (st !! email) as [rec|]; simpl; [|done].
  case_guard as Hg; simpl in Hg.
  - by replace (now >? expiresAt rec) with false by lia.
  - by replace (now >? expiresAt rec) with true by lia.
Qed.

(** A sweep before the expiry leaves the record to [verify-otp]; after a
    sweep past the expiry [verify-otp] finds nothing. *)
Lemma cleanup_then_verify (idp : auth_provider) (swept now : Z)
    (email code : string) (st : otpStorage) (rec : otp_record) :
  email ≠ "" → code ≠ "" → st !! email = Some rec →
  (verify_otp idp now (Some email) (Some code) (cleanup swept st)).1 =
    if swept >? expiresAt rec then message 400 "OTP not found or expired"
    else (verify_otp idp now (Some email) (Some code) st).1.
Proof.
  intros He Hc Hst.
  pose proof (cleanup_lookup swept st email) as Hl. rewrite Hst in Hl.
  destruct (swept >? expiresAt rec).
  - by rewrite (verify_otp_absent _ _ _ _ _ He Hc Hl).
  - rewrite (verify_otp_found _ _ _ _ _ _ He Hc Hl).
    rewrite (verify_otp_found _ _ _ _ _ _ He Hc Hst).
    repeat (match goal with |- context [if ?b then _ else _] => destruct b end;
            try done).
    destruct (get_or_create_user idp email) as [uid|]; [|done].
    by destruct (createCustomToken idp uid email).
Qed.

End auth_properties.

(** ** Following a community and posting in it ([routes/communities.js]) *)

Section community_properties.
Import JS Firestore Communities.

Lemma includes_elem_of (l : list string) (x : string) :
  includes l x = true ↔ x ∈ l.
Proof. unfold includes. apply bool_decide_eq_true. Qed.

Lemma includes_not_elem_of (l : list string) (x : string) :
  includes l x = false ↔ x ∉ l.
Proof. unfold includes. apply bool_decide_eq_false. Qed.

Lemma elem_of_arrayUnion (x y : string) (l : option (list string)) :
  y ∈ arrayUnion x l ↔ y = x ∨ y ∈ default [] l.
Proof.
  destruct l as [l|]; simpl.
  - destruct (includes l x) eqn:Hin.
    + apply includes_elem_of in Hin. split; [auto | by intros [->|]].
    + rewrite elem_of_app, list_elem_of_singleton. tauto.
  - rewrite list_elem_of_singleton, elem_of_nil. tauto.
Qed.

Lemma elem_of_arrayRemove (x y : string) (l : option (list string)) :
  y ∈ arrayRemove x l ↔ y ≠ x ∧ y ∈ default [] l.
Proof.
  destruct l as [l|]; simpl.
  - by rewrite list_elem_of_filter.
  - rewrite elem_of_nil. tauto.
Qed.

Lemma includes_opt_elem_of (l : option (list string)) (x : string) :
  includes_opt l x = true ↔ x ∈ default [] l.
Proof.
  destruct l as [l|]; simpl; [apply includes_elem_of|].
  split; [done | by intros ?%elem_of_nil].
Qed.

Lemma includes_opt_not_elem_of (l : option (list string)) (x : string) :
  includes_opt l x = false ↔ x ∉ default [] l.
Proof.
  rewrite <- includes_opt_elem_of. by destruct (includes_opt l x).
Qed.

Local Arguments arrayUnion : simpl never.
Local Arguments arrayRemove : simpl never.

(** One toggle, by the membership of the caller before it. *)
Lemma follow_found (user : User.t) (communityId : string) (now : Z) (d : db)
    (c : community.doc) :
  communities d !! communityId = Some c →
  follow user communityId now d =
    if includes_opt (community.followers c) (User.uid user) then
      (Response 200 [("message", JStr "Unfollowed community");
                     ("isFollowing", JBool false)],
       set_communities
         (<[communityId := update_followers (arrayRemove (User.uid user)) now c]>
            (communities d)) d)
    else
      (Response 200 [("message", JStr "Following community");
                     ("isFollowing", JBool true)],
       set_communities
         (<[communityId := update_followers (arrayUnion (User.uid user)) now c]>
            (communities d)) d).
Proof. intros Hc. unfold follow. by rewrite Hc. Qed.

(** C7. For every community and caller, two follow toggles in a row bring
    the follower set back to what it was, and the second response reports
    the [isFollowing] that held at the start (the first reports the
    opposite); after each toggle the reported flag is the membership of
    the caller in the stored follower array. Nothing but the [followers]
    array and [updatedAt] of that community is written. *)
Theorem follow_twice (user : User.t) (communityId : string) (t1 t2 : Z)
    (d : db) (c : community.doc) :
  communities d !! communityId = Some c →
  let uid := User.uid user in
  let was := includes_opt (community.followers c) uid in
  let r1 := follow user communityId t1 d in
  let r2 := follow user communityId t2 r1.2 in
  ∃ l1 l2,
    let c1 := update_followers (λ _, l1) t1 c in
    let c2 := update_followers (λ _, l2) t2 c in
    r1.2 = set_communities (<[communityId := c1]> (communities d)) d ∧
    r2.2 = set_communities (<[communityId := c2]> (communities d)) d ∧
    follower_set c2 = follower_set c ∧
    field "isFollowing" r1.1 = Some (JBool (negb was)) ∧
    field "isFollowing" r2.1 = Some (JBool was) ∧
    includes l1 uid = negb was ∧
    includes l2 uid = was.
Proof.
  intros Hc uid was r1 r2. subst r2 r1.
  rewrite (follow_found _ _ _ _ _ Hc). fold uid. fold was.
  destruct was eqn:Hwas.
  - pose proof (proj1 (includes_opt_elem_of _ _) Hwas) as Hin.
    set (l1 := arrayRemove uid (community.followers c)).
    assert (H1 : includes l1 uid = false).
    { apply includes_not_elem_of. unfold l1.
      rewrite elem_of_arrayRemove. tauto. }
    erewrite follow_found by (simpl; apply lookup_insert_eq).
    fold uid. simpl. fold l1. rewrite H1. simpl.
    exists l1, (arrayUnion uid (Some l1)). simpl.
    rewrite insert_insert_eq.
    repeat split; try done.
    + unfold follower_set. simpl. apply set_eq. intros y.
      rewrite !elem_of_list_to_set, elem_of_arrayUnion. simpl. unfold l1.
      rewrite elem_of_arrayRemove.
      destruct (decide (y = uid)) as [->|]; tauto.
    + apply includes_elem_of. rewrite elem_of_arrayUnion. by left.
  - pose proof (proj1 (includes_opt_not_elem_of _ _) Hwas) as Hin.
    set (l1 := arrayUnion uid (community.followers c)).
    assert (H1 : includes l1 uid = true).
    { apply includes_elem_of. unfold l1. rewrite elem_of_arrayUnion. by left. }
    erewrite follow_found by (simpl; apply lookup_insert_eq).
    fold uid. simpl. fold l1. rewrite H1. simpl.
    exists l1, (arrayRemove uid (Some l1)). simpl.
    rewrite insert_insert_eq.
    repeat split; try done.
    + unfold follower_set. simpl. apply set_eq. intros y.
      rewrite !elem_of_list_to_set, elem_of_arrayRemove. simpl. unfold l1.
      rewrite elem_of_arrayUnion.
      destruct (decide (y = uid)) as [->|]; tauto.
    + apply includes_not_elem_of. rewrite elem_of_arrayRemove. tauto.
Qed.

Lemma follow_twice_witness :
  let r1 := follow Sample.bob "c1" 100 Sample.store in
  let r2 := follow Sample.bob "c1" 200 r1.2 in
  ∃ l1 l2,
    let c1 := update_followers (λ _, l1) 100 Sample.robotics in
    let c2 := update_followers (λ _, l2) 200 Sample.robotics in
    r1.2 = set_communities (<["c1" := c1]> (communities Sample.store))
             Sample.store ∧
    r2.2 = set_communities (<["c1" := c2]> (communities Sample.store))
             Sample.store ∧
    follower_set c2 = follower_set Sample.robotics ∧
    field "isFollowing" r1.1 = Some (JBool (negb false)) ∧
    field "isFollowing" r2.1 = Some (JBool false) ∧
    includes l1 "u2" = negb false ∧
    includes l2 "u2" = false.
Proof.
  apply (follow_twice Sample.bob "c1" 100 200 Sample.store Sample.robotics).
  reflexivity.
Defined.

(** A post by a follower that the document store accepts. *)
Lemma create_post_follower (cfg : settings) (user : User.t)
    (communityId newId : string) (text : option string)
    (images : list string) (now : Z) (d : db) (c : community.doc) :
  communities d !! communityId = Some c →
  negb (truthy text) && (length images =? 0)%nat = false →
  includes_opt (community.followers c) (User.uid user) = true →
  accepts cfg (is_undefined text || is_undefined (User.picture user)) = true →
  posts d !! (communityId, newId) = None →
  create_post cfg user communityId text images now newId d =
    (Response 200 [("id", JStr newId);
                   ("message", JStr "Post created successfully")],
     Db (<[communityId := increment_postCount now c]> (communities d))
        (<[(communityId, newId) :=
             post.Doc text images (User.uid user) (User.displayName user)
               (User.picture user) (Some now) (Some []) 0]> (posts d))
        (groups d) (users d)).
Proof.
  intros Hc Hcontent Hin Hacc Hfresh. unfold create_post.
  rewrite Hcontent, Hc, Hin, Hacc, Hfresh. simpl. by rewrite Hc.
Qed.

(** The follower check of [create_post] and what lies behind it. A caller outside
    the follower set is answered 403 and nothing is written. Once the
    caller has followed, the same body is accepted whenever the document
    store takes the write (no field of the post is [undefined], or
    [ignoreUndefinedProperties] is set, and [newId] is not taken): the
    post is stored and [postCount] goes up by exactly one. *)
Lemma create_post_follow_gate (cfg : settings) (user : User.t)
    (communityId newId : string) (text : option string)
    (images : list string) (t0 t1 : Z) (d : db) (c : community.doc) :
  communities d !! communityId = Some c →
  includes_opt (community.followers c) (User.uid user) = false →
  truthy text = true ∨ images ≠ [] →
  create_post cfg user communityId text images t1 newId d =
    (message 403 "Must follow community to post", d) ∧
  (accepts cfg (is_undefined text || is_undefined (User.picture user)) = true →
   posts d !! (communityId, newId) = None →
   let followed := (follow user communityId t0 d).2 in
   let r := create_post cfg user communityId text images t1 newId followed in
   r.1 = Response 200 [("id", JStr newId);
                       ("message", JStr "Post created successfully")] ∧
   (community.postCount <$> communities r.2 !! communityId) =
     Some (community.postCount c + 1) ∧
   posts r.2 !! (communityId, newId) =
     Some (post.Doc text images (User.uid user) (User.displayName user)
             (User.picture user) (Some t1) (Some []) 0)).
Proof.
  intros Hc Hout Hbody.
  assert (Hcontent : negb (truthy text) && (length images =? 0)%nat = false).
  { destruct Hbody as [-> | Himg]; [done|].
    destruct images; [done|]. simpl. apply andb_false_r. }
  split.
  - unfold create_post. by rewrite Hcontent, Hc, Hout.
  - intros Hacc Hfresh followed r. subst r followed.
    rewrite (follow_found _ _ _ _ _ Hc), Hout. simpl.
    set (c1 := update_followers (arrayUnion (User.uid user)) t0 c).
    erewrite (create_post_follower _ _ _ _ _ _ _ _ c1);
      [ | simpl; apply lookup_insert_eq | done | | done | done ].
    + simpl. by rewrite !lookup_insert_eq.
    + apply includes_opt_elem_of. simpl. rewrite elem_of_arrayUnion. by left.
Qed.

(** C5, at a caller whose token carries no picture. Outside the follower
    set the caller is answered 403 and the store is unchanged. After
    following, the post carries [authorPhoto: undefined], which the
    document store refuses under the settings the handlers run with: the
    answer is 500, no post is written and [postCount] stays where it
    was. *)
Theorem create_post_without_picture :
  let d := Sample.store in
  create_post default_settings Sample.bob "c1" (Some "hello") [] 300 "n1" d =
    (message 403 "Must follow community to post", d) ∧
  let followed := (follow Sample.bob "c1" 100 d).2 in
  let r := create_post default_settings Sample.bob "c1" (Some "hello") [] 300
             "n1" followed in
  r.1 = message 500 "Failed to create post" ∧
  r.2 = followed ∧
  posts r.2 !! ("c1", "n1") = None ∧
  (community.postCount <$> communities d !! "c1") = Some 0 ∧
  (community.postCount <$> communities r.2 !! "c1") = Some 0.
Proof. vm_compute. repeat split. Qed.

(** The same request from a caller whose token carries a picture. *)
Example create_post_with_picture :
  let d := Sample.store in
  let followed := (follow Sample.carol "c1" 100 d).2 in
  let r := create_post default_settings Sample.carol "c1" (Some "hello") [] 300
             "n1" followed in
  r.1 = Response 200 [("id", JStr "n1");
                      ("message", JStr "Post created successfully")] ∧
  (community.postCount <$> communities r.2 !! "c1") = Some 1.
Proof. vm_compute. repeat split. Qed.

End community_properties.

(** ** Leaving a group ([routes/groups.js]) *)

Section group_properties.
Import JS Firestore Groups.

(** C6 (as amended). For every group and caller: a caller who is the
    group's admin and is in the member set is answered "Admin cannot leave
    the group", however many members there are; a caller absent from the
    member set, the admin included, is answered "Not a member of this
    group". In both cases nothing is written. *)
Theorem leave_rejected (user : User.t) (groupId : string) (now : Z) (d : db)
    (g : group.doc) :
  groups d !! groupId = Some g →
  (User.uid user ∈ group.members g → group.admin g = User.uid user →
     leave user groupId now d = (message 400 "Admin cannot leave the group", d)) ∧
  (User.uid user ∉ group.members g →
     leave user groupId now d = (message 400 "Not a member of this group", d)).
Proof.
  intros Hg. unfold leave. rewrite Hg. split.
  - intros Hin Hadmin.
    rewrite (proj2 (includes_elem_of _ _) Hin). simpl.
    by rewrite Hadmin, String.eqb_refl.
  - intros Hout. by rewrite (proj2 (includes_not_elem_of _ _) Hout).
Qed.

Lemma leave_rejected_witness :
  leave Sample.ann "g1" 100 Sample.store =
    (message 400 "Admin cannot leave the group", Sample.store) ∧
  leave Sample.carol "g1" 100 Sample.store =
    (message 400 "Not a member of this group", Sample.store).
Proof.
  split.
  - apply (leave_rejected Sample.ann "g1" 100 Sample.store Sample.chess);
      [reflexivity | apply (bool_decide_unpack _); reflexivity | reflexivity].
  - apply (leave_rejected Sample.carol "g1" 100 Sample.store Sample.chess);
      [reflexivity | apply (bool_decide_unpack _); reflexivity].
Defined.

(** C6, as stated, fails: the membership test comes first, so the admin of
    a group whose member set no longer holds the admin is answered "Not a
    member of this group". *)
Lemma leave_admin_not_member :
  group.admin Sample.orphaned = User.uid Sample.ann ∧
  leave Sample.ann "g2" 100 Sample.store =
    (message 400 "Not a member of this group", Sample.store) ∧
  (leave Sample.ann "g2" 100 Sample.store).1 ≠
    message 400 "Admin cannot leave the group".
Proof. vm_compute. repeat split. discriminate. Qed.

End group_properties.

(** ** Updating the profile ([routes/users.js]) *)

Section user_properties.
Import JS Firestore Users.

Lemma foldl_write_field_other (data : list (string * option value))
    (doc : gmap string value) (k : string) :
  k ∉ data.*1 → foldl write_field doc data !! k = doc !! k.
Proof.
  revert doc. induction data as [|[k0 v0] data IH]; intros doc Hk; [done|].
  simpl in *. apply not_elem_of_cons in Hk as [Hne Hk].
  rewrite IH by done. unfold write_field. simpl.
  destruct v0; [by rewrite lookup_insert_ne | done].
Qed.

Lemma foldl_write_field_at (data : list (string * option value))
    (doc : gmap string value) (k : string) (v : option value) :
  NoDup data.*1 → (k, v) ∈ data →
  foldl write_field doc data !! k =
    match v with Some x => Some x | None => doc !! k end.
Proof.
  revert doc. induction data as [|[k0 v0] data IH]; intros doc Hnd Hin.
  - by apply elem_of_nil in Hin.
  - simpl in *. apply NoDup_cons in Hnd as [Hk0 Hnd].
    apply elem_of_cons in Hin as [[= -> ->] | Hin].
    + rewrite foldl_write_field_other by done. unfold write_field. simpl.
      destruct v0; [apply lookup_insert_eq | done].
    + rewrite IH by done. destruct v as [x|]; [done|].
      assert (k ≠ k0) as Hne.
      { intros ->. apply Hk0. apply list_elem_of_fmap.
        by exists (k0, None). }
      unfold write_field. simpl.
      destruct v0; [by rewrite lookup_insert_ne | done].
Qed.

Lemma updateData_keys (body : gmap string value) (now : Z) :
  (updateData body now).*1 = (profile_fields ++ ["updatedAt"])%list.
Proof. reflexivity. Qed.

Lemma updateData_NoDup (body : gmap string value) (now : Z) :
  NoDup (updateData body now).*1.
Proof. rewrite updateData_keys. by apply (bool_decide_unpack _). Qed.

Lemma updateData_field (body : gmap string value) (now : Z) (f : string) :
  f ∈ profile_fields → (f, body !! f) ∈ updateData body now.
Proof.
  unfold profile_fields, updateData. intros Hf.
  rewrite !elem_of_cons in Hf. rewrite !elem_of_cons.
  destruct Hf as [->|[->|[->|[->|[->|Hnil]]]]];
    [| | | | |by apply elem_of_nil in Hnil]; auto 10.
Qed.

Lemma updateData_undefined (body : gmap string value) (now : Z) :
  existsb (λ kv, is_undefined kv.2) (updateData body now) = true ↔
  ∃ f, f ∈ profile_fields ∧ body !! f = None.
Proof.
  unfold updateData, profile_fields. simpl. split.
  - intros H.
    destruct (body !! "name") eqn:E1; [|exists "name"; split; [apply (bool_decide_unpack _); reflexivity|done]].
    destruct (body !! "regNo") eqn:E2; [|exists "regNo"; split; [apply (bool_decide_unpack _); reflexivity|done]].
    destruct (body !! "department") eqn:E3;
      [|exists "department"; split; [apply (bool_decide_unpack _); reflexivity|done]].
    destruct (body !! "year") eqn:E4; [|exists "year"; split; [apply (bool_decide_unpack _); reflexivity|done]].
    destruct (body !! "photoURL") eqn:E5;
      [|exists "photoURL"; split; [apply (bool_decide_unpack _); reflexivity|done]].
    done.
  - intros (f & Hf & Hnone). rewrite !elem_of_cons in Hf.
    destruct Hf as [->|[->|[->|[->|[->|Hnil]]]]];
      [| | | | |by apply elem_of_nil in Hnil];
      rewrite Hnone; simpl; rewrite ?orb_true_r; done.
Qed.

(** C10 (as amended). For every request body, the update that
    [PUT /users/profile] hands to the document store has exactly the
    fields name, regNo, department, year, photoURL and updatedAt; the
    handler checks neither presence nor emptiness. On an existing profile:
    when the body carries all five fields, each is written over the stored
    value, updatedAt is set, and every stored field outside this set is
    left unchanged. A field omitted from the body reaches the store as
    [undefined] and is never written: under the settings the handlers run
    with the whole update is refused, the answer is 500 and the profile is
    unchanged; with [ignoreUndefinedProperties] the field is left out of
    the write. Either way its stored value is preserved. *)
Theorem update_profile_fields (cfg : settings) (user : User.t)
    (body doc : gmap string value) (now : Z) (d : db) :
  users d !! User.uid user = Some doc →
  let r := update_profile cfg user body now d in
  (updateData body now).*1 = (profile_fields ++ ["updatedAt"])%list ∧
  ((∀ f, f ∈ profile_fields → is_Some (body !! f)) →
     r.1 = message 200 "Profile updated successfully" ∧
     ∃ doc', users r.2 !! User.uid user = Some doc' ∧
       (∀ f, f ∈ profile_fields → doc' !! f = body !! f) ∧
       doc' !! "updatedAt" = Some (VTimestamp now) ∧
       (∀ k, k ∉ profile_fields → k ≠ "updatedAt" → doc' !! k = doc !! k)) ∧
  (∀ f, f ∈ profile_fields → body !! f = None →
     (ignoreUndefinedProperties cfg = false →
        r = (message 500 "Failed to update profile", d)) ∧
     ∃ doc', users r.2 !! User.uid user = Some doc' ∧ doc' !! f = doc !! f).
Proof.
  intros Hdoc r. split; [apply updateData_keys|]. subst r.
  unfold update_profile, update. rewrite Hdoc. unfold accepts. split.
  - intros Hall.
    assert (existsb (λ kv, is_undefined kv.2) (updateData body now) = false)
      as ->.
    { apply not_true_is_false. rewrite updateData_undefined.
      intros (f & Hf & Hnone). destruct (Hall f Hf) as [v Hv]. congruence. }
    change (negb false) with true. rewrite orb_true_r. cbv beta iota.
    split; [done|]. cbn [snd users set_users].
    eexists. rewrite lookup_insert_eq. split; [done|].
    split; [|split].
    + intros f Hf.
      rewrite (foldl_write_field_at _ _ f (body !! f))
        by auto using updateData_NoDup, updateData_field.
      destruct (Hall f Hf) as [v ->]. done.
    + rewrite (foldl_write_field_at _ _ "updatedAt" (Some (VTimestamp now)));
        [done | apply updateData_NoDup |].
      unfold updateData. rewrite !elem_of_cons. auto 10.
    + intros k Hk Hne. apply foldl_write_field_other.
      rewrite updateData_keys. rewrite elem_of_app, list_elem_of_singleton.
      tauto.
  - intros f Hf Hnone.
    assert (existsb (λ kv, is_undefined kv.2) (updateData body now) = true)
      as -> by (apply updateData_undefined; eauto).
    change (negb true) with false.
    destruct (ignoreUndefinedProperties cfg) eqn:Hcfg; cbv beta iota;
      cbn [orb snd users set_users].
    + split; [done|]. eexists. rewrite lookup_insert_eq. split; [done|].
      rewrite (foldl_write_field_at _ _ f None);
        [done | apply updateData_NoDup |].
      rewrite <- Hnone. by apply updateData_field.
    + split; [done|]. by exists doc.
Qed.

Lemma update_profile_fields_witness :
  let r := update_profile default_settings Sample.ann Sample.full_body 900
             Sample.store in
  let r' := update_profile default_settings Sample.ann Sample.partial_body 900
              Sample.store in
  (r.1 = message 200 "Profile updated successfully" ∧
   ∃ doc', users r.2 !! "u1" = Some doc' ∧
     (∀ f, f ∈ profile_fields → doc' !! f = Sample.full_body !! f) ∧
     doc' !! "updatedAt" = Some (VTimestamp 900) ∧
     (∀ k, k ∉ profile_fields → k ≠ "updatedAt" →
        doc' !! k = Sample.profile !! k)) ∧
  ((ignoreUndefinedProperties default_settings = false →
      r' = (message 500 "Failed to update profile", Sample.store)) ∧
   ∃ doc', users r'.2 !! "u1" = Some doc' ∧
     doc' !! "name" = Sample.profile !! "name").
Proof.
  split.
  - apply (update_profile_fields default_settings Sample.ann Sample.full_body
             Sample.profile 900 Sample.store); [reflexivity|].
    intros f Hf. unfold profile_fields in Hf. rewrite !elem_of_cons in Hf.
    destruct Hf as [->|[->|[->|[->|[->|Hnil]]]]];
      [| | | | |by apply elem_of_nil in Hnil]; by eexists.
  - apply (update_profile_fields default_settings Sample.ann
             Sample.partial_body Sample.profile 900 Sample.store);
      [reflexivity | apply (bool_decide_unpack _); reflexivity | reflexivity].
Defined.

(** C10, as stated, fails: a body that leaves [name] out does not
    overwrite the stored name. Under the default settings the update is
    refused whole, and with [ignoreUndefinedProperties] the field is
    skipped; the stored name is "Ann" before and after. *)
Lemma update_profile_omitted_field_kept :
  let body := Sample.partial_body in
  let r := update_profile default_settings Sample.ann body 900 Sample.store in
  let r' := update_profile (Settings true) Sample.ann body 900 Sample.store in
  body !! "name" = None ∧
  (users Sample.store !! "u1") ≫= (.!! "name") = Some (VStr "Ann") ∧
  r = (message 500 "Failed to update profile", Sample.store) ∧
  (users r.2 !! "u1") ≫= (.!! "name") = Some (VStr "Ann") ∧
  (users r'.2 !! "u1") ≫= (.!! "name") = Some (VStr "Ann").
Proof. vm_compute. repeat split. Qed.

End user_properties.

(** ** The trending feed ([routes/posts.js]) *)

Section sort_properties.
Import Firestore.
Context {A : Type} (cmp : A → A → Z).

Hypothesis cmp_total : ∀ a b, before cmp a b ∨ before cmp b a.
Hypothesis cmp_trans :
  ∀ a b c, before cmp a b → before cmp b c → before cmp a c.

Lemma Forall_sort_insert (P : A → Prop) (x : A) (l : list A) :
  P x → Forall P l → Forall P (sort_insert cmp x l).
Proof.
  intros Hx. induction 1 as [|y l Hy Hl IH]; simpl.
  - by constructor.
  - destruct (cmp x y <=? 0); repeat constructor; done.
Qed.

Lemma Forall_sort (P : A → Prop) (l : list A) :
  Forall P l → Forall P (sort cmp l).
Proof.
  induction 1 as [|x l Hx Hl IH]; simpl; [constructor|].
  by apply Forall_sort_insert.
Qed.

Lemma sort_insert_sorted (x : A) (l : list A) :
  StronglySorted (before cmp) l →
  StronglySorted (before cmp) (sort_insert cmp x l).
Proof.
  induction 1 as [|y l Hl IH Hy]; simpl.
  - repeat constructor.
  - destruct (Z.leb_spec (cmp x y) 0) as [Hxy|Hxy].
    + constructor; [by constructor|].
      constructor; [done|].
      eapply Forall_impl; [exact Hy|]. intros z Hz. by eapply cmp_trans.
    + constructor; [done|].
      apply Forall_sort_insert; [|done].
      destruct (cmp_total x y) as [Hle|Hle]; [unfold before in Hle; lia|done].
Qed.

Lemma sort_sorted (l : list A) : StronglySorted (before cmp) (sort cmp l).
Proof.
  induction l as [|x l IH]; simpl; [constructor|].
  by apply sort_insert_sorted.
Qed.

End sort_properties.

Section slice_properties.
Import Firestore.
Context {A : Type}.

Lemma Forall_slice (P : A → Prop) (start end_ : Z) (l : list A) :
  Forall P l → Forall P (slice start end_ l).
Proof. intros Hl. unfold slice. by apply Forall_take, Forall_drop. Qed.

Lemma StronglySorted_weaken (R R' : relation A) (l : list A) :
  (∀ a b, R a b → R' a b) → StronglySorted R l → StronglySorted R' l.
Proof.
  intros HR. induction 1 as [|x l Hl IH Hx]; constructor; [done|].
  eapply Forall_impl; [exact Hx | apply HR].
Qed.

Lemma slice_sorted (R : relation A) (start end_ : Z) (l : list A) :
  StronglySorted R l → StronglySorted R (slice start end_ l).
Proof.
  intros Hl. unfold slice.
  set (k := Z.to_nat _). set (n := Z.to_nat _).
  rewrite <- (take_drop n l) in Hl. apply StronglySorted_app_1_r in Hl.
  rewrite <- (take_drop k (drop n l)) in Hl.
  by apply StronglySorted_app_1_l in Hl.
Qed.

End slice_properties.

(** The order of the documents does not change which documents there are. *)
Section order_properties.
Import Firestore.

Lemma elem_of_sort_insert {A} (cmp : A → A → Z) (x y : A) (l : list A) :
  y ∈ sort_insert cmp x l ↔ y = x ∨ y ∈ l.
Proof.
  induction l as [|z l IH]; simpl.
  - rewrite list_elem_of_singleton, elem_of_nil. tauto.
  - destruct (cmp x z <=? 0); rewrite !elem_of_cons; [done|].
    rewrite IH. tauto.
Qed.

Lemma elem_of_sort {A} (cmp : A → A → Z) (y : A) (l : list A) :
  y ∈ sort cmp l ↔ y ∈ l.
Proof.
  induction l as [|x l IH]; [done|]. simpl.
  by rewrite elem_of_sort_insert, IH, elem_of_cons.
Qed.

Lemma length_sort_insert {A} (cmp : A → A → Z) (x : A) (l : list A) :
  length (sort_insert cmp x l) = S (length l).
Proof.
  induction l as [|y l IH]; [done|]. simpl.
  destruct (cmp x y <=? 0); simpl; by rewrite ?IH.
Qed.

Lemma length_sort {A} (cmp : A → A → Z) (l : list A) :
  length (sort cmp l) = length l.
Proof.
  induction l as [|x l IH]; [done|]. simpl.
  by rewrite length_sort_insert, IH.
Qed.

Lemma length_filter_sort {A} (f : A → bool) (cmp : A → A → Z) (l : list A) :
  length (List.filter f (sort cmp l)) = length (List.filter f l).
Proof.
  assert (∀ x l', length (List.filter f (sort_insert cmp x l')) =
                  length (List.filter f (x :: l'))) as Hins.
  { intros x l'. induction l' as [|y l' IH]; [done|]. simpl in *.
    destruct (cmp x y <=? 0); [done|]. simpl.
    destruct (f x), (f y); simpl in *; lia. }
  induction l as [|x l IH]; [done|]. simpl. rewrite Hins. simpl.
  destruct (f x); simpl; by rewrite IH.
Qed.

Lemma elem_of_documents {A} (m : gmap string A) (k : string) (v : A) :
  (k, v) ∈ documents m ↔ m !! k = Some v.
Proof. unfold documents. by rewrite elem_of_sort, elem_of_map_to_list. Qed.

(** Ties in a sample collection: the documents come by ascending id, and
    under [orderBy('timestamp', 'desc')] those of the same instant by
    descending id. *)
Example ties_sample :
  let d := Db ∅ {[("c", "b") := Sample.post_at 5 [];
                  ("c", "z") := Sample.post_at 9 [];
                  ("c", "a") := Sample.post_at 5 []]} ∅ ∅ in
  (Posts.posts_of "c" d).*1 = ["a"; "b"; "z"] ∧
  (Posts.query_all_posts "c" None d).*1 = ["z"; "b"; "a"] ∧
  (documents {["c2" := Sample.robotics; "c10" := Sample.robotics;
               "c1" := Sample.robotics]}).*1 = ["c1"; "c10"; "c2"].
Proof. vm_compute. repeat split. Qed.

End order_properties.


Section feed_properties.
Import JS Firestore Posts.

Lemma Forall_List_filter {A} (f : A → bool) (l : list A) :
  Forall (λ x, f x = true) (List.filter f l).
Proof.
  induction l as [|x l IH]; simpl; [constructor|].
  destruct (f x) eqn:Hx; [by constructor | done].
Qed.

(** Every document that a windowed query returns has a timestamp, and one
    that is not before the start of the window. *)
Lemma query_posts_since (communityId : string) (since limit : Z) (d : db)
    (docs : list (string * post.doc)) :
  query_posts communityId (Some since) limit d = Some docs →
  Forall (λ kv, ∃ t, post.timestamp kv.2 = Some t ∧ since ≤ t) docs.
Proof.
  unfold query_posts. destruct (limit <? 0); [done|]. intros [= <-].
  apply Forall_take, Forall_sort.
  eapply Forall_impl; [apply Forall_List_filter|].
  intros kv Hkv. unfold timestamp_ge in Hkv.
  destruct (post.timestamp kv.2) as [t|]; [|done].
  exists t. split; [done | lia].
Qed.

Lemma query_posts_total (communityId : string) (since : option Z)
    (limit : Z) (d : db) :
  0 ≤ limit → is_Some (query_posts communityId since limit d).
Proof.
  intros Hl. unfold query_posts. by replace (limit <? 0) with false by lia.
Qed.

(** What the loop gathers under [trending]: each post was, in some
    iteration, within the twenty-four hours before that iteration's
    reading of the clock. *)
Lemma collect_trending (uid : string) (limit : Z) (Date_now : nat → Z)
    (d : db) (ids : list string) :
  ∀ (i : nat) (ps : list feed_post),
    collect uid "trending" limit Date_now d i ids = Some ps →
    Forall (λ p, ∃ j t, post.timestamp (data p) = Some t ∧
                        Date_now j - 24 * 60 * 60 * 1000 ≤ t) ps.
Proof.
  induction ids as [|communityId rest IH]; intros i ps; simpl.
  - intros [= <-]. constructor.
  - destruct (query_posts _ _ _ _) as [docs|] eqn:Hq; [|done].
    destruct (collect _ _ _ _ _ _ rest) as [later|] eqn:Hc; [|done].
    intros [= <-]. apply Forall_app. split; [|by eapply IH].
    apply Forall_fmap. apply query_posts_since in Hq.
    eapply Forall_impl; [exact Hq|]. intros kv (t & Ht & Hle). simpl.
    by exists i, t.
Qed.

Lemma collect_total (uid filter : string) (limit : Z) (Date_now : nat → Z)
    (d : db) (ids : list string) :
  0 ≤ limit → ∀ i, is_Some (collect uid filter limit Date_now d i ids).
Proof.
  intros Hl. induction ids as [|communityId rest IH]; intros i; simpl; [done|].
  destruct (query_posts_total communityId
              (if String.eqb filter "trending"
               then Some (Date_now i - 24 * 60 * 60 * 1000) else None)
              limit d Hl) as [docs ->].
  by destruct (IH (S i)) as [later ->].
Qed.

Lemma by_likes_before (a b : feed_post) :
  before by_likes a b ↔ likeCount (data b) ≤ likeCount (data a).
Proof. unfold before, by_likes. lia. Qed.

(** C4. For every caller and every request to [/feed] with
    [filter=trending], whatever the limit and the offset: each post of the
    answer carries a timestamp that is at most twenty-four hours older
    than the arrival of the request ([t0], which no reading of the clock
    during the request precedes), and the answer is in descending order of
    the size of the like set. With a limit that is not negative the
    request is answered with such a list. *)
Theorem feed_trending (user : User.t) (limit offset t0 : Z)
    (Date_now : nat → Z) (d : db) :
  (∀ i, t0 ≤ Date_now i) →
  (0 ≤ limit → ∃ ps, feed user limit offset "trending" Date_now d = FeedOk ps) ∧
  (∀ ps, feed user limit offset "trending" Date_now d = FeedOk ps →
     Forall (λ p, ∃ t, post.timestamp (data p) = Some t ∧
                       t0 - 24 * 60 * 60 * 1000 ≤ t) ps ∧
     StronglySorted (λ a b, likeCount (data b) ≤ likeCount (data a)) ps).
Proof.
  intros Hclock. unfold feed.
  set (ids := (List.filter _ (documents (communities d))).*1).
  destruct (length ids =? 0)%nat.
  { split; [by eexists|]. intros ps [= <-]. split; constructor. }
  split.
  - intros Hl.
    destruct (collect_total (User.uid user) "trending" limit Date_now d ids
                Hl 0%nat) as [allPosts ->].
    by eexists.
  - intros ps.
    destruct (collect _ _ _ _ _ _ ids) as [allPosts|] eqn:Hc; [|done].
    simpl. intros [= <-]. split.
    + apply Forall_slice, Forall_sort.
      apply collect_trending in Hc.
      eapply Forall_impl; [exact Hc|]. intros p (j & t & Ht & Hle).
      exists t. split; [done|]. specialize (Hclock j). lia.
    + apply slice_sorted.
      eapply (StronglySorted_weaken (before by_likes));
        [intros a b; apply by_likes_before|].
      apply sort_sorted; unfold before, by_likes; intros; lia.
Qed.

Lemma feed_trending_witness :
  let Date_now := λ i : nat, 86403000 + Z.of_nat i in
  ∃ ps, feed Sample.ann 20 0 "trending" Date_now Sample.store = FeedOk ps ∧
    Forall (λ p, ∃ t, post.timestamp (data p) = Some t ∧
                      86403000 - 24 * 60 * 60 * 1000 ≤ t) ps ∧
    StronglySorted (λ a b, likeCount (data b) ≤ likeCount (data a)) ps.
Proof.
  intros Date_now.
  destruct (feed_trending Sample.ann 20 0 86403000 Date_now Sample.store)
    as [Hanswer Hposts].
  - intros i. unfold Date_now. lia.
  - destruct Hanswer as [ps Hps]; [lia|].
    exists ps. split; [exact Hps | exact (Hposts ps Hps)].
Defined.

(** The sample store under [trending]: the post of the first day is left
    out and the others come by decreasing number of likes. *)
Example feed_trending_sample :
  match feed Sample.ann 20 0 "trending" (λ i, 86403000 + Z.of_nat i)
             Sample.store with
  | FeedOk ps => (λ p, (id p, likeCount (data p))) <$> ps
  | FeedFail _ _ => []
  end = [("p2", 2); ("p1", 1); ("p4", 0)].
Proof. vm_compute. reflexivity. Qed.

End feed_properties.

(** * Further properties of the route files *)

(** ** Patterns and the shape of an address *)

Section regex_properties.
Import JS Auth.

Lemma append_nil_l (s : string) : "" +:+ s = s.
Proof. reflexivity. Qed.

Lemma append_cons (c : ascii) (s1 s2 : string) :
  String c s1 +:+ s2 = String c (s1 +:+ s2).
Proof. reflexivity. Qed.

Lemma append_nil_r (s : string) : s +:+ "" = s.
Proof.
  induction s as [|c s IH]; [done|]. by rewrite append_cons, IH.
Qed.

Lemma append_assoc (s1 s2 s3 : string) :
  (s1 +:+ s2) +:+ s3 = s1 +:+ s2 +:+ s3.
Proof.
  induction s1 as [|c s1 IH]; [done|]. by rewrite !append_cons, IH.
Qed.

Lemma append_eq_nil (s1 s2 : string) : s1 +:+ s2 = "" → s1 = "" ∧ s2 = "".
Proof. destruct s1; [done|]. by rewrite append_cons. Qed.

Lemma append_eq_cons (s1 s2 s : string) (c : ascii) :
  s1 +:+ s2 = String c s →
  (s1 = "" ∧ s2 = String c s) ∨ (∃ s1', s1 = String c s1' ∧ s = s1' +:+ s2).
Proof.
  destruct s1 as [|c' s1]; [by left|]. rewrite append_cons.
  intros [= -> <-]. right. by exists s1.
Qed.

Lemma matches_nil_nullable (r : regex) (s : string) :
  matches r s → s = "" → nullable r = true.
Proof.
  induction 1 as [| | r1 r2 s1 s2 _ IH1 _ IH2 | r1 r2 s _ IH | r1 r2 s _ IH
                  | | ]; intros Hs; simpl; try done.
  - apply append_eq_nil in Hs as [-> ->]. by rewrite IH1, IH2.
  - by rewrite IH.
  - rewrite IH by done. apply orb_true_r.
Qed.

Lemma nullable_matches (r : regex) : nullable r = true ↔ matches r "".
Proof.
  split; [|intros H; by eapply matches_nil_nullable].
  induction r as [| | p | r1 IH1 r2 IH2 | r1 IH1 r2 IH2 | r IH]; simpl;
    intros Hn; try done.
  - constructor.
  - apply andb_true_iff in Hn as [H1 H2].
    change "" with ("" +:+ ""). constructor; auto.
  - apply orb_true_iff in Hn as [H1|H2];
      [apply matches_Alt_l | apply matches_Alt_r]; auto.
  - constructor.
Qed.

Lemma deriv_sound (c : ascii) (r : regex) :
  ∀ s, matches (deriv c r) s → matches r (String c s).
Proof.
  induction r as [| | p | r1 IH1 r2 IH2 | r1 IH1 r2 IH2 | r IH]; simpl;
    intros s H.
  - inversion H.
  - inversion H.
  - destruct (p c) eqn:Hp; inversion H; subst. by constructor.
  - assert (∀ s, matches (Seq (deriv c r1) r2) s → matches (Seq r1 r2) (String c s))
      as Hseq.
    { intros s' H'. inversion H' as [| |? ? s1 s2 H1 H2| | | |]; subst.
      change (String c (s1 +:+ s2)) with (String c s1 +:+ s2).
      constructor; auto. }
    destruct (nullable r1) eqn:Hn; [|by apply Hseq].
    inversion H; subst; [by apply Hseq|].
    change (String c s) with ("" +:+ String c s).
    constructor; [by apply nullable_matches | auto].
  - inversion H; subst; [apply matches_Alt_l | apply matches_Alt_r]; auto.
  - inversion H as [| |? ? s1 s2 H1 H2| | | |]; subst.
    change (String c (s1 +:+ s2)) with (String c s1 +:+ s2).
    constructor; auto.
Qed.

Lemma deriv_complete (r : regex) (s0 : string) :
  matches r s0 → ∀ c s, s0 = String c s → matches (deriv c r) s.
Proof.
  induction 1 as [| p c' Hp | r1 r2 s1 s2 H1 IH1 H2 IH2 | r1 r2 s0 _ IH
                  | r1 r2 s0 _ IH | | r s1 s2 H1 IH1 H2 IH2];
    intros c s Hs; simpl.
  - done.
  - injection Hs as -> <-. rewrite Hp. constructor.
  - apply append_eq_cons in Hs as [[-> ->] | (s1' & -> & ->)].
    + rewrite (matches_nil_nullable _ _ H1 eq_refl).
      apply matches_Alt_r. by apply IH2.
    + destruct (nullable r1); [apply matches_Alt_l|];
        constructor; auto.
  - apply matches_Alt_l. by apply IH.
  - apply matches_Alt_r. by apply IH.
  - done.
  - apply append_eq_cons in Hs as [[-> ->] | (s1' & -> & ->)].
    + by apply IH2.
    + constructor; auto.
Qed.

(** [test] decides what a pattern matches. *)
Lemma test_matches (r : regex) (s : string) : test r s = true ↔ matches r s.
Proof.
  revert r. induction s as [|c s IH]; intros r; simpl.
  - apply nullable_matches.
  - rewrite IH. split; [apply deriv_sound|].
    intros H. by eapply deriv_complete.
Qed.

Lemma matches_Star_Class (p : ascii → bool) (s : string) :
  matches (Star (Class p)) s ↔ all_chars p s = true.
Proof.
  split.
  - intros H. remember (Star (Class p)) as r eqn:Hr.
    induction H as [| | | | | | r s1 s2 H1 _ H2 IH2]; try done.
    injection Hr as ->. inversion H1; subst.
    rewrite append_cons, append_nil_l. simpl.
    apply andb_true_iff. auto.
  - induction s as [|c s IH]; simpl; [constructor|].
    intros [Hc Hs]%andb_true_iff.
    change (String c s) with (String c "" +:+ s).
    constructor; [by constructor | auto].
Qed.

Lemma matches_Plus_Class (p : ascii → bool) (s : string) :
  matches (Plus (Class p)) s ↔ s ≠ "" ∧ all_chars p s = true.
Proof.
  unfold Plus. split.
  - intros H. inversion H as [| |? ? s1 s2 H1 H2| | | |]; subst.
    inversion H1; subst. rewrite append_cons, append_nil_l.
    apply matches_Star_Class in H2.
    split; [done|]. simpl. apply andb_true_iff. auto.
  - intros [Hne Hall]. destruct s as [|c s]; [done|]. simpl in Hall.
    apply andb_true_iff in Hall as [Hc Hs].
    change (String c s) with (String c "" +:+ s).
    constructor; [by constructor | by apply matches_Star_Class].
Qed.

Lemma matches_Lit (c : ascii) (s : string) :
  matches (Lit c) s ↔ s = String c "".
Proof.
  unfold Lit. split.
  - intros H. inversion H as [|? c' Hc| | | | |]; subst.
    apply Ascii.eqb_eq in Hc. by subst.
  - intros ->. constructor. apply Ascii.eqb_refl.
Qed.

(** The addresses that pass [emailRegex.test]. *)
Lemma emailRegex_shape (s : string) :
  test emailRegex s = true ↔ email_shape s.
Proof.
  rewrite test_matches. unfold emailRegex, email_shape. split.
  - intros H.
    inversion H as [| |? ? l s1 Hl H1| | | |]; subst.
    inversion H1 as [| |? ? a s2 Ha H2| | | |]; subst.
    inversion H2 as [| |? ? d s3 Hd H3| | | |]; subst.
    inversion H3 as [| |? ? b t Hb Ht| | | |]; subst.
    apply matches_Lit in Ha, Hb. subst.
    apply matches_Plus_Class in Hl as [? ?], Hd as [? ?], Ht as [? ?].
    by exists l, d, t.
  - intros (l & d & t & -> & (Hl & Hd & Ht) & Al & Ad & At).
    repeat constructor; try (apply matches_Plus_Class; done);
      apply Ascii.eqb_refl.
Qed.

End regex_properties.

(** ** More on the OTP life cycle ([routes/auth.js]) *)

Section auth_further.
Import JS Auth.

(** X1. [send-otp] answers 400 "Please use a valid email address" and
    leaves the store as it is exactly when the address is missing or is not
    of the shape local@domain.last, with the three parts non-empty and free
    of white space and "@". *)
Theorem send_otp_validation (env : send_env) (email : option string)
    (st : otpStorage) :
  (∀ s, email = Some s → ¬ email_shape s) ↔
  send_otp env email st = (message 400 "Please use a valid email address", st).
Proof.
  unfold send_otp. destruct email as [s|]; simpl.
  - destruct (test emailRegex s) eqn:Ht.
    + pose proof (proj1 (emailRegex_shape s) Ht) as Hshape.
      assert (String.eqb s "" = false) as ->.
      { apply String.eqb_neq. by apply emailRegex_nonempty. }
      simpl. split; [intros H; by destruct (H s eq_refl)|].
      by destruct (sendMail env _).
    + rewrite orb_true_r. split; [done|]. intros _ s' [= <-] Hshape.
      apply emailRegex_shape in Hshape. congruence.
  - split; [done|]. by intros _ s [=].
Qed.

(** X2. A code verified after its window is refused even when it is the
    right one: past [Date.now() + 5 min] the answer is "OTP has expired",
    the record is deleted, and the next call finds no record. *)
Theorem verify_otp_expired (env : send_env) (idp : auth_provider)
    (email : string) (late later : Z) (st : otpStorage) :
  test emailRegex email = true →
  Date_now env + 5 * 60 * 1000 < late →
  let code := generateOTP (Math_random env) in
  let issued := (send_otp env (Some email) st).2 in
  let r := verify_otp idp late (Some email) (Some code) issued in
  r.1 = message 400 "OTP has expired" ∧
  r.2 !! email = None ∧
  (verify_otp idp later (Some email) (Some code) r.2).1 =
    message 400 "OTP not found or expired".
Proof.
  intros Ht Hlate code issued r.
  pose proof (emailRegex_nonempty _ Ht) as He.
  pose proof (generateOTP_nonempty (Math_random env)) as Hc.
  assert (Hr : r = (message 400 "OTP has expired", delete email issued)).
  { subst r issued. rewrite send_otp_store by done.
    erewrite verify_otp_found by (done || apply lookup_insert_eq). simpl.
    by replace (late >? Date_now env + 300000) with true by lia. }
  assert (Hgone : r.2 !! email = None).
  { rewrite Hr. apply lookup_delete_eq. }
  rewrite Hr at 1. split; [done|]. split; [done|].
  by rewrite (verify_otp_absent _ _ _ _ _ He Hc Hgone).
Qed.

Lemma verify_otp_expired_witness :
  let issued := (send_otp Sample.env (Some "x@ceg.edu") ∅).2 in
  let r := verify_otp Sample.idp 301001 (Some "x@ceg.edu") (Some "483920") issued in
  r.1 = message 400 "OTP has expired" ∧
  r.2 !! "x@ceg.edu" = None ∧
  (verify_otp Sample.idp 301002 (Some "x@ceg.edu") (Some "483920") r.2).1 =
    message 400 "OTP not found or expired".
Proof.
  cbv zeta. rewrite <- sample_code.
  apply (verify_otp_expired Sample.env Sample.idp "x@ceg.edu" 301001 301002 ∅);
    reflexivity.
Defined.

(** X3. A failure of the identity provider costs nothing: the answer is 500,
    the record stays with its attempt counter, and the same code is accepted
    by a later call, made within the window, once the provider answers. *)
Theorem verify_otp_provider_failure (down up : auth_provider) (now later : Z)
    (email uid token : string) (rec : otp_record) (st : otpStorage) :
  email ≠ "" ∧ otp rec ≠ "" →
  st !! email = Some rec →
  now ≤ expiresAt rec ∧ later ≤ expiresAt rec ∧ attempts rec < 3 →
  (∀ u, get_or_create_user down email = Some u →
        createCustomToken down u email = None) →
  get_or_create_user up email = Some uid ∧
  createCustomToken up uid email = Some token →
  let failed := verify_otp down now (Some email) (Some (otp rec)) st in
  failed = (message 500 "Failed to create authentication token", st) ∧
  verify_otp up later (Some email) (Some (otp rec)) failed.2 =
    (Response 200 [("message", JStr "OTP verified successfully");
                   ("token", JStr token)], delete email st).
Proof.
  intros [He Hc] Hst (Hnow & Hlater & Ha) Hdown [Hu Ht] failed.
  assert (Hfailed : failed =
            (message 500 "Failed to create authentication token", st)).
  { subst failed. rewrite (verify_otp_found _ _ _ _ _ _ He Hc Hst).
    replace (now >? expiresAt rec) with false by lia.
    replace (attempts rec >=? 3) with false by lia.
    rewrite String.eqb_refl. simpl.
    destruct (get_or_create_user down email) as [u|] eqn:Hg; [|done].
    by rewrite (Hdown u eq_refl). }
  split; [done|]. rewrite Hfailed. simpl.
  rewrite (verify_otp_found _ _ _ _ _ _ He Hc Hst).
  replace (later >? expiresAt rec) with false by lia.
  replace (attempts rec >=? 3) with false by lia.
  rewrite String.eqb_refl. simpl. by rewrite Hu, Ht.
Qed.

Lemma verify_otp_provider_failure_witness :
  let st := {["x@ceg.edu" := OtpRecord "483920" 301000 2]} : otpStorage in
  let failed := verify_otp Sample.idp_down 2000 (Some "x@ceg.edu")
                  (Some "483920") st in
  failed = (message 500 "Failed to create authentication token", st) ∧
  verify_otp Sample.idp 3000 (Some "x@ceg.edu") (Some "483920") failed.2 =
    (Response 200 [("message", JStr "OTP verified successfully");
                   ("token", JStr "token:uid:x@ceg.edu")],
     delete "x@ceg.edu" st).
Proof.
  apply (verify_otp_provider_failure Sample.idp_down Sample.idp 2000 3000
           "x@ceg.edu" "uid:x@ceg.edu" "token:uid:x@ceg.edu"
           (OtpRecord "483920" 301000 2));
    [split; discriminate | reflexivity | repeat split; vm_compute; discriminate
    | intros u; discriminate | split; reflexivity].
Defined.

(** X4. The attempt counter of a stored record never leaves the range 0 to
    3: [send-otp], [verify-otp] and the sweep keep it there whatever they
    are called with. *)
Theorem attempts_bounded_kept (env : send_env) (idp : auth_provider)
    (now : Z) (email code : option string) (st : otpStorage) :
  attempts_bounded st →
  attempts_bounded (send_otp env email st).2 ∧
  attempts_bounded (verify_otp idp now email code st).2 ∧
  attempts_bounded (cleanup now st).
Proof.
  intros Hst. split; [|split].
  - unfold send_otp. destruct (_ || _); [done|]. simpl.
    assert (attempts_bounded
              (<[default "" email := OtpRecord (generateOTP (Math_random env))
                   (Date_now env + 5 * 60 * 1000) 0]> st)) as Hins.
    { intros e rec. rewrite lookup_insert.
      case_decide; [intros [= <-]; simpl; lia | apply Hst]. }
    by destruct (sendMail env _).
  - unfold verify_otp. destruct (_ || _); [done|]. simpl.
    destruct (st !! default "" email) as [rec|] eqn:Hrec; [|done].
    assert (attempts_bounded (delete (default "" email) st)) as Hdel.
    { intros e r. rewrite lookup_delete. case_decide; [done | apply Hst]. }
    destruct (now >? expiresAt rec); [done|].
    destruct (Z.geb_spec (attempts rec) 3) as [|Hlt]; [done|].
    destruct (negb _).
    + simpl. intros e r. rewrite lookup_insert.
      case_decide; [|apply Hst]. intros [= <-]. simpl.
      pose proof (Hst _ _ Hrec). lia.
    + destruct (get_or_create_user idp _) as [uid|]; [|done].
      by destruct (createCustomToken idp uid _).
  - intros e rec Hl. rewrite cleanup_lookup in Hl.
    destruct (st !! e) as [rec'|] eqn:Hrec; [|done].
    destruct (now >? expiresAt rec'); [done|]. injection Hl as <-.
    by eapply Hst.
Qed.

Lemma attempts_bounded_kept_witness :
  let st := (send_otp Sample.env (Some "x@ceg.edu") ∅).2 in
  attempts_bounded (send_otp Sample.env_other_code (Some "x@ceg.edu") st).2 ∧
  attempts_bounded
    (verify_otp Sample.idp 2000 (Some "x@ceg.edu") (Some "000000") st).2 ∧
  attempts_bounded (cleanup 2000 st).
Proof.
  apply (attempts_bounded_kept Sample.env_other_code Sample.idp 2000
           (Some "x@ceg.edu") (Some "000000")
           (send_otp Sample.env (Some "x@ceg.edu") ∅).2).
  refine (proj1 (attempts_bounded_kept Sample.env Sample.idp 0
                   (Some "x@ceg.edu") None ∅ _)).
  intros email rec Hl. rewrite lookup_empty in Hl. discriminate.
Defined.

End auth_further.

Section auth_frame.
Import JS Auth.

(** X5. [send-otp] and [verify-otp] touch no address but the one of the
    request, and [verify-otp] never creates a record. *)
Theorem otp_store_frame (env : send_env) (idp : auth_provider) (now : Z)
    (email code : option string) (other : string) (st : otpStorage) :
  email ≠ Some other →
  (send_otp env email st).2 !! other = st !! other ∧
  (verify_otp idp now email code st).2 !! other = st !! other ∧
  (∀ k, is_Some ((verify_otp idp now email code st).2 !! k) → is_Some (st !! k)).
Proof.
  intros Hother.
  assert (truthy email = true → default "" email ≠ other) as Hne.
  { destruct email as [e|]; [|done]. simpl. congruence. }
  split; [|split].
  - unfold send_otp. destruct (truthy email); [|done]. simpl.
    destruct (test emailRegex _); [|done]. simpl.
    destruct (sendMail env _); simpl; by rewrite lookup_insert_ne by auto.
  - unfold verify_otp. destruct (truthy email); [|done].
    destruct (truthy code); [|done]. simpl.
    destruct (st !! default "" email) as [rec|]; [|done].
    repeat (match goal with |- context [if ?b then _ else _] => destruct b end;
            simpl;
            rewrite ?lookup_delete_ne, ?lookup_insert_ne by auto; try done).
    destruct (get_or_create_user idp _) as [uid|]; [|done].
    destruct (createCustomToken idp uid _); simpl;
      by rewrite ?lookup_delete_ne by auto.
  - intros k. unfold verify_otp. destruct (_ || _); [done|]. simpl.
    destruct (st !! default "" email) as [rec|] eqn:Hrec; [|done].
    assert (∀ m : otpStorage, (m = st ∨ m = delete (default "" email) st
              ∨ ∃ r, m = <[default "" email := r]> st) →
            is_Some (m !! k) → is_Some (st !! k)) as Hcases.
    { intros m [-> | [-> | [r ->]]]; [done | |].
      - rewrite lookup_delete. by case_decide; [intros [? [=]]|].
      - rewrite lookup_insert. case_decide; [subst; by rewrite Hrec | done]. }
    repeat (match goal with |- context [if ?b then _ else _] => destruct b end;
            simpl; try (apply Hcases; eauto; fail)).
    destruct (get_or_create_user idp _) as [uid|]; [|apply Hcases; eauto].
    destruct (createCustomToken idp uid _); apply Hcases; eauto.
Qed.

Lemma otp_store_frame_witness :
  let st := {["y@ceg.edu" := OtpRecord "123456" 200000 1]} : otpStorage in
  (send_otp Sample.env (Some "x@ceg.edu") st).2 !! "y@ceg.edu" =
    st !! "y@ceg.edu" ∧
  (verify_otp Sample.idp 2000 (Some "x@ceg.edu") (Some "000000") st).2
     !! "y@ceg.edu" = st !! "y@ceg.edu" ∧
  (∀ k, is_Some ((verify_otp Sample.idp 2000 (Some "x@ceg.edu")
                    (Some "000000") st).2 !! k) → is_Some (st !! k)).
Proof.
  apply (otp_store_frame Sample.env Sample.idp 2000 (Some "x@ceg.edu")
           (Some "000000") "y@ceg.edu"). discriminate.
Defined.

(** X6. The sweep and [verify-otp]. The sweep deletes the records whose
    expiry has passed and no other. So a sweep that runs before the expiry
    of a record changes nothing of what [verify-otp] answers for it, and
    after a sweep that runs past the expiry the answer is "OTP not found or
    expired", where without the sweep it would have been "OTP has
    expired". *)
Theorem sweep_then_verify (idp : auth_provider) (swept now : Z)
    (email code : string) (st : otpStorage) (rec : otp_record) :
  email ≠ "" ∧ code ≠ "" → st !! email = Some rec → swept ≤ now →
  (∀ k r, cleanup swept st !! k = Some r ↔
          st !! k = Some r ∧ swept ≤ expiresAt r) ∧
  (swept ≤ expiresAt rec →
     (verify_otp idp now (Some email) (Some code) (cleanup swept st)).1 =
     (verify_otp idp now (Some email) (Some code) st).1) ∧
  (expiresAt rec < swept →
     (verify_otp idp now (Some email) (Some code) (cleanup swept st)).1 =
       message 400 "OTP not found or expired" ∧
     (verify_otp idp now (Some email) (Some code) st).1 =
       message 400 "OTP has expired").
Proof.
  intros [He Hc] Hst Hnow. split; [|split].
  - intros k r. rewrite cleanup_lookup.
    destruct (st !! k) as [r'|]; [|by split; [|intros []]].
    destruct (Z.gtb_spec swept (expiresAt r')); split;
      try (intros [= <-]); try (intros [[= <-] ?]); try done; lia.
  - intros Hle.
    rewrite (cleanup_then_verify _ _ _ _ _ _ _ He Hc Hst).
    by replace (swept >? expiresAt rec) with false by lia.
  - intros Hlt. split.
    + rewrite (cleanup_then_verify _ _ _ _ _ _ _ He Hc Hst).
      by replace (swept >? expiresAt rec) with true by lia.
    + rewrite (verify_otp_found _ _ _ _ _ _ He Hc Hst).
      by replace (now >? expiresAt rec) with true by lia.
Qed.

Lemma sweep_then_verify_witness :
  let st := {["x@ceg.edu" := OtpRecord "483920" 301000 0]} : otpStorage in
  (∀ k r, cleanup 302000 st !! k = Some r ↔
          st !! k = Some r ∧ 302000 ≤ expiresAt r) ∧
  (302000 ≤ 301000 →
     (verify_otp Sample.idp 303000 (Some "x@ceg.edu") (Some "483920")
        (cleanup 302000 st)).1 =
     (verify_otp Sample.idp 303000 (Some "x@ceg.edu") (Some "483920") st).1) ∧
  (301000 < 302000 →
     (verify_otp Sample.idp 303000 (Some "x@ceg.edu") (Some "483920")
        (cleanup 302000 st)).1 = message 400 "OTP not found or expired" ∧
     (verify_otp Sample.idp 303000 (Some "x@ceg.edu") (Some "483920") st).1 =
       message 400 "OTP has expired").
Proof.
  apply (sweep_then_verify Sample.idp 302000 303000 "x@ceg.edu" "483920"
           {["x@ceg.edu" := OtpRecord "483920" 301000 0]}
           (OtpRecord "483920" 301000 0));
    [split; discriminate | reflexivity | lia].
Defined.

End auth_frame.

(** ** The middleware [verifyToken] *)

Section middleware_properties.
Import JS Middleware.

Lemma strip_prefix_append (p s : string) : strip_prefix p (p +:+ s) = Some s.
Proof.
  induction p as [|c p IH]; [done|].
  rewrite append_cons. simpl. by rewrite Ascii.eqb_refl.
Qed.

Lemma after_first_includes (sep s : string) :
  after_first sep s = None ↔ String_includes sep s = false.
Proof.
  induction s as [|c s IH]; simpl; destruct (strip_prefix sep _); try done.
Qed.

Lemma before_first_absent (sep s : string) :
  after_first sep s = None → before_first sep s = s.
Proof.
  induction s as [|c s IH]; simpl; destruct (strip_prefix sep _); try done.
  intros H. by rewrite IH.
Qed.

(** X7. Without a bearer token nothing gets through: when the header is
    missing or does not contain "Bearer ", the middleware answers 401 "No
    token provided" and the identity provider is not asked. *)
Theorem verifyToken_no_token (verifyIdToken : string → option User.t)
    (authorization : option string) :
  (∀ h, authorization = Some h → String_includes "Bearer " h = false) →
  verifyToken verifyIdToken authorization =
    inl (message 401 "No token provided").
Proof.
  intros Hh. unfold verifyToken, split_1.
  destruct authorization as [h|]; [|done]. simpl.
  by rewrite (proj2 (after_first_includes _ _) (Hh h eq_refl)).
Qed.

Lemma verifyToken_no_token_witness :
  verifyToken (λ _, Some Sample.ann) (Some "Basic dXNlcjpwYXNz") =
    inl (message 401 "No token provided").
Proof.
  apply (verifyToken_no_token (λ _, Some Sample.ann) (Some "Basic dXNlcjpwYXNz")).
  intros h [= <-]. reflexivity.
Defined.

(** X8. With the header "Bearer " followed by a token (not empty, and not
    itself containing "Bearer "), the token is what the identity provider
    is asked about: the request goes on with the decoded identity when the
    provider accepts the token and is answered 401 "Invalid token" when it
    does not. *)
Theorem verifyToken_bearer (verifyIdToken : string → option User.t)
    (token : string) :
  token ≠ "" → String_includes "Bearer " token = false →
  verifyToken verifyIdToken (Some ("Bearer " +:+ token)) =
    match verifyIdToken token with
    | Some decodedToken => inr decodedToken
    | None => inl (message 401 "Invalid token")
    end.
Proof.
  intros Hne Hin. unfold verifyToken, split_1.
  change (Some ("Bearer " +:+ token) ≫= _)
    with (before_first "Bearer " <$> after_first "Bearer " ("Bearer " +:+ token)).
  assert (after_first "Bearer " ("Bearer " +:+ token) = Some token) as ->.
  { destruct token; [done|]. reflexivity. }
  simpl. rewrite before_first_absent by by apply after_first_includes.
  by destruct (String.eqb_spec token "").
Qed.

Lemma verifyToken_bearer_witness :
  verifyToken (λ t, if String.eqb t "good" then Some Sample.ann else None)
    (Some "Bearer good") = inr Sample.ann ∧
  verifyToken (λ t, if String.eqb t "good" then Some Sample.ann else None)
    (Some "Bearer bad") = inl (message 401 "Invalid token").
Proof.
  split.
  - apply (verifyToken_bearer
             (λ t, if String.eqb t "good" then Some Sample.ann else None)
             "good"); [discriminate | reflexivity].
  - apply (verifyToken_bearer
             (λ t, if String.eqb t "good" then Some Sample.ann else None)
             "bad"); [discriminate | reflexivity].
Defined.

End middleware_properties.

(** ** More on communities and posts ([routes/communities.js]) *)

Section community_further.
Import JS Firestore Communities.

Local Arguments arrayUnion : simpl never.
Local Arguments arrayRemove : simpl never.

Lemma includes_singleton (x y : string) :
  includes [x] y = bool_decide (y = x).
Proof.
  unfold includes. apply bool_decide_ext. by rewrite list_elem_of_singleton.
Qed.

(** X9. A community that has just been created has its creator as admin
    and as only follower and counts no post; read back, it shows
    [isFollowing: true] to the creator and [false] to anyone else. No other
    community is touched. *)
Theorem create_then_get (user other : User.t)
    (name description category : option string) (now : Z) (newId : string)
    (d : db) :
  truthy name = true ∧ truthy description = true ∧ truthy category = true →
  communities d !! newId = None →
  let uid := User.uid user in
  let r := create user name description category now newId d in
  r.1 = Response 200 [("id", JStr newId);
                      ("message", JStr "Community created successfully")] ∧
  (∃ c, communities r.2 !! newId = Some c ∧
     community.followers c = Some [uid] ∧
     community.admin c = uid ∧
     community.postCount c = 0 ∧
     get user newId r.2 = inr (CommunityView newId c true) ∧
     (User.uid other ≠ uid → get other newId r.2 = inr (CommunityView newId c false))) ∧
  (∀ k, k ≠ newId → communities r.2 !! k = communities d !! k).
Proof.
  intros (Hn & Hd & Hc) Hfresh uid r. subst r. unfold create.
  rewrite Hn, Hd, Hc, Hfresh. simpl. split; [done|]. split.
  - eexists. rewrite lookup_insert_eq. split; [done|]. simpl.
    repeat split; unfold get; simpl; rewrite lookup_insert_eq; simpl.
    + by rewrite includes_singleton, bool_decide_eq_true_2.
    + intros Hne. by rewrite includes_singleton, bool_decide_eq_false_2.
  - intros k Hk. by rewrite lookup_insert_ne.
Qed.

Lemma create_then_get_witness :
  let r := create Sample.ann (Some "Music") (Some "Bands") (Some "Arts") 500
             "c2" Sample.store in
  r.1 = Response 200 [("id", JStr "c2");
                      ("message", JStr "Community created successfully")] ∧
  (∃ c, communities r.2 !! "c2" = Some c ∧
     community.followers c = Some ["u1"] ∧
     community.admin c = "u1" ∧
     community.postCount c = 0 ∧
     get Sample.ann "c2" r.2 = inr (CommunityView "c2" c true) ∧
     (User.uid Sample.bob ≠ "u1" →
      get Sample.bob "c2" r.2 = inr (CommunityView "c2" c false))) ∧
  (∀ k, k ≠ "c2" → communities r.2 !! k = communities Sample.store !! k).
Proof.
  apply (create_then_get Sample.ann Sample.bob (Some "Music") (Some "Bands")
           (Some "Arts") 500 "c2" Sample.store);
    [repeat split | reflexivity].
Defined.

(** X10. The creator of a community can post in it at once: the follower
    check passes, and when the document store takes the write the post is
    stored and [postCount] is 1. *)
Theorem create_then_post (cfg : settings) (user : User.t)
    (name description category text : option string) (images : list string)
    (t0 t1 : Z) (newId postId : string) (d : db) :
  truthy name = true ∧ truthy description = true ∧ truthy category = true →
  communities d !! newId = None ∧ posts d !! (newId, postId) = None →
  truthy text = true ∨ images ≠ [] →
  accepts cfg (is_undefined text || is_undefined (User.picture user)) = true →
  let created := (create user name description category t0 newId d).2 in
  let r := create_post cfg user newId text images t1 postId created in
  r.1 = Response 200 [("id", JStr postId);
                      ("message", JStr "Post created successfully")] ∧
  (community.postCount <$> communities r.2 !! newId) = Some 1 ∧
  (post.author <$> posts r.2 !! (newId, postId)) = Some (User.uid user).
Proof.
  intros (Hn & Hd & Hc) [Hfresh Hpost] Hbody Hacc created r.
  subst r created. unfold create. rewrite Hn, Hd, Hc, Hfresh. simpl.
  erewrite create_post_follower;
    [ | simpl; apply lookup_insert_eq | | simpl | done | done ].
  - simpl. by rewrite !lookup_insert_eq.
  - destruct Hbody as [-> | Himg]; [done|].
    destruct images; [done|]. apply andb_false_r.
  - by rewrite includes_singleton, bool_decide_eq_true_2.
Qed.

Lemma create_then_post_witness :
  let created := (create Sample.ann (Some "Music") (Some "Bands") (Some "Arts")
                    500 "c2" Sample.store).2 in
  let r := create_post default_settings Sample.ann "c2" (Some "hello") [] 600
             "n1" created in
  r.1 = Response 200 [("id", JStr "n1");
                      ("message", JStr "Post created successfully")] ∧
  (community.postCount <$> communities r.2 !! "c2") = Some 1 ∧
  (post.author <$> posts r.2 !! ("c2", "n1")) = Some "u1".
Proof.
  apply (create_then_post default_settings Sample.ann (Some "Music")
           (Some "Bands") (Some "Arts") (Some "hello") [] 500 600 "c2" "n1"
           Sample.store);
    [repeat split | split; reflexivity | by left | reflexivity].
Defined.

(** X11. The right to post follows the follow toggle: after a toggle, a
    post with content by the same caller is refused with 403 exactly when
    the toggle reported [isFollowing: false]. *)
Theorem follow_governs_posting (cfg : settings) (user : User.t)
    (communityId postId : string) (text : option string)
    (images : list string) (t0 t1 : Z) (d : db) (c : community.doc) :
  communities d !! communityId = Some c →
  truthy text = true ∨ images ≠ [] →
  let r := follow user communityId t0 d in
  (create_post cfg user communityId text images t1 postId r.2).1 =
    message 403 "Must follow community to post" ↔
  field "isFollowing" r.1 = Some (JBool false).
Proof.
  intros Hc Hbody r. subst r.
  assert (Hcontent : negb (truthy text) && (length images =? 0)%nat = false).
  { destruct Hbody as [-> | Himg]; [done|].
    destruct images; [done|]. apply andb_false_r. }
  rewrite (follow_found _ _ _ _ _ Hc).
  destruct (includes_opt (community.followers c) (User.uid user)) eqn:Hwas;
    simpl; unfold create_post; rewrite Hcontent; simpl;
    rewrite lookup_insert_eq; simpl.
  - assert (includes (arrayRemove (User.uid user) (community.followers c))
              (User.uid user) = false) as ->.
    { apply includes_not_elem_of. rewrite elem_of_arrayRemove. tauto. }
    done.
  - assert (includes (arrayUnion (User.uid user) (community.followers c))
              (User.uid user) = true) as ->.
    { apply includes_elem_of. rewrite elem_of_arrayUnion. by left. }
    simpl. split; [|done].
    destruct (negb (accepts cfg _)); [done|].
    by destruct (posts d !! (communityId, postId)).
Qed.

Lemma follow_governs_posting_witness :
  let r := follow Sample.ann "c1" 100 Sample.store in
  (create_post default_settings Sample.ann "c1" (Some "hello") [] 200 "n1"
     r.2).1 = message 403 "Must follow community to post" ↔
  field "isFollowing" r.1 = Some (JBool false).
Proof.
  apply (follow_governs_posting default_settings Sample.ann "c1" "n1"
           (Some "hello") [] 100 200 Sample.store Sample.robotics);
    [reflexivity | by left].
Defined.

(** One like toggle, by the membership of the caller before it. *)
Lemma like_found (user : User.t) (communityId postId : string) (d : db)
    (p : post.doc) :
  posts d !! (communityId, postId) = Some p →
  like user communityId postId d =
    if includes_opt (post.likes p) (User.uid user) then
      (Response 200 [("message", JStr "Post unliked"); ("isLiked", JBool false)],
       set_posts
         (<[(communityId, postId) := update_likes (arrayRemove (User.uid user)) p]>
            (posts d)) d)
    else
      (Response 200 [("message", JStr "Post liked"); ("isLiked", JBool true)],
       set_posts
         (<[(communityId, postId) := update_likes (arrayUnion (User.uid user)) p]>
            (posts d)) d).
Proof. intros Hp. unfold like. by rewrite Hp. Qed.

(** X12. The like toggle. A first toggle reports the opposite of what
    held, and reading the post back shows the same flag; a like by a caller
    who had not liked raises the like count by exactly one, an unlike
    lowers it. A second toggle brings the like set back to what it was. *)
Theorem like_twice (user : User.t) (communityId postId : string) (d : db)
    (p : post.doc) :
  communityId ≠ "" →
  posts d !! (communityId, postId) = Some p →
  let uid := User.uid user in
  let was := includes_opt (post.likes p) uid in
  let r1 := like user communityId postId d in
  let r2 := like user communityId postId r1.2 in
  ∃ p1 p2,
    posts r1.2 !! (communityId, postId) = Some p1 ∧
    posts r2.2 !! (communityId, postId) = Some p2 ∧
    field "isLiked" r1.1 = Some (JBool (negb was)) ∧
    Posts.get_post user postId (Some communityId) r1.2 =
      inr (Posts.PostView postId p1 (negb was)) ∧
    (if was then Posts.likeCount p1 < Posts.likeCount p
     else Posts.likeCount p1 = Posts.likeCount p + 1) ∧
    like_set p2 = like_set p ∧
    Posts.get_post user postId (Some communityId) r2.2 =
      inr (Posts.PostView postId p2 was).
Proof.
  intros Hcid Hp uid was r1 r2. subst r2 r1 was uid.
  rewrite (like_found _ _ _ _ _ Hp). set (uid := User.uid user) in *.
  unfold Posts.get_post. rewrite (truthy_Some _ Hcid). simpl.
  destruct (includes_opt (post.likes p) uid) eqn:Hwas.
  - pose proof (proj1 (includes_opt_elem_of _ _) Hwas) as Hin.
    set (l1 := arrayRemove uid (post.likes p)).
    assert (H1 : includes l1 uid = false).
    { apply includes_not_elem_of. unfold l1.
      rewrite elem_of_arrayRemove. tauto. }
    erewrite like_found by (simpl; apply lookup_insert_eq).
    fold uid. simpl. fold l1. rewrite H1. simpl.
    eexists _, _. rewrite !lookup_insert_eq. simpl. fold l1. rewrite H1.
    repeat split.
    + unfold Posts.likeCount. simpl. unfold l1, arrayRemove.
      destruct (post.likes p) as [l|]; simpl in *; [|by apply elem_of_nil in Hin].
      apply inj_lt. apply (length_filter_lt _ _ uid); [done | tauto].
    + unfold like_set. simpl. apply set_eq. intros y.
      rewrite !elem_of_list_to_set, elem_of_arrayUnion. simpl. unfold l1.
      rewrite elem_of_arrayRemove.
      destruct (decide (y = uid)) as [->|]; tauto.
    + do 2 f_equal. apply includes_elem_of. rewrite elem_of_arrayUnion. by left.
  - pose proof (proj1 (includes_opt_not_elem_of _ _) Hwas) as Hin.
    set (l1 := arrayUnion uid (post.likes p)).
    assert (H1 : includes l1 uid = true).
    { apply includes_elem_of. unfold l1. rewrite elem_of_arrayUnion. by left. }
    erewrite like_found by (simpl; apply lookup_insert_eq).
    fold uid. simpl. fold l1. rewrite H1. simpl.
    eexists _, _. rewrite !lookup_insert_eq. simpl. fold l1. rewrite H1.
    repeat split.
    + unfold Posts.likeCount. simpl. unfold l1, arrayUnion.
      destruct (post.likes p) as [l|]; simpl in *; [|done].
      unfold includes_opt in Hwas. simpl in Hwas. rewrite Hwas.
      rewrite length_app. simpl. lia.
    + unfold like_set. simpl. apply set_eq. intros y.
      rewrite !elem_of_list_to_set, elem_of_arrayRemove. simpl. unfold l1.
      rewrite elem_of_arrayUnion.
      destruct (decide (y = uid)) as [->|]; tauto.
    + do 2 f_equal. apply includes_not_elem_of.
      rewrite elem_of_arrayRemove. tauto.
Qed.

Lemma like_twice_witness :
  let r1 := like Sample.bob "c1" "p1" Sample.store in
  let r2 := like Sample.bob "c1" "p1" r1.2 in
  ∃ p1 p2,
    posts r1.2 !! ("c1", "p1") = Some p1 ∧
    posts r2.2 !! ("c1", "p1") = Some p2 ∧
    field "isLiked" r1.1 = Some (JBool (negb false)) ∧
    Posts.get_post Sample.bob "p1" (Some "c1") r1.2 =
      inr (Posts.PostView "p1" p1 (negb false)) ∧
    Posts.likeCount p1 = Posts.likeCount (Sample.post_at 86400000 ["a"]) + 1 ∧
    like_set p2 = like_set (Sample.post_at 86400000 ["a"]) ∧
    Posts.get_post Sample.bob "p1" (Some "c1") r2.2 =
      inr (Posts.PostView "p1" p2 false).
Proof.
  apply (like_twice Sample.bob "c1" "p1" Sample.store
           (Sample.post_at 86400000 ["a"])); [discriminate | reflexivity].
Defined.

End community_further.

(** ** More on groups ([routes/groups.js]) *)

Section group_further.
Import JS Firestore Groups.

Local Arguments arrayUnion : simpl never.
Local Arguments arrayRemove : simpl never.

(** X13. The handlers of the server never take the admin out of the member
    set: when every group counts its admin among its members, it is still
    so after a create, a join or a leave, whoever calls and whatever the
    outcome. *)
Theorem admin_is_member_kept (user : User.t) (name description : option string)
    (isPrivate : bool) (groupId newId : string) (now : Z) (d : db) :
  admin_is_member d →
  admin_is_member (create user name description isPrivate now newId d).2 ∧
  admin_is_member (join user groupId now d).2 ∧
  admin_is_member (leave user groupId now d).2.
Proof.
  intros Hd. split; [|split].
  - unfold create. destruct (_ || _); [done|].
    destruct (groups d !! newId); [done|].
    intros k g. simpl. rewrite lookup_insert. case_decide; [|apply Hd].
    intros [= <-]. simpl. by apply list_elem_of_singleton.
  - unfold join. destruct (groups d !! groupId) as [g0|] eqn:Hg; [|done].
    destruct (includes _ _); [done|].
    intros k g. simpl. rewrite lookup_insert. case_decide; [|apply Hd].
    intros [= <-]. simpl. rewrite elem_of_arrayUnion. right. simpl.
    by eapply Hd.
  - unfold leave. destruct (groups d !! groupId) as [g0|] eqn:Hg; [|done].
    destruct (negb _); [done|].
    destruct (String.eqb_spec (group.admin g0) (User.uid user)); [done|].
    intros k g. simpl. rewrite lookup_insert. case_decide; [|apply Hd].
    intros [= <-]. simpl. rewrite elem_of_arrayRemove. split; [done|].
    simpl. by eapply Hd.
Qed.

Lemma admin_is_member_kept_witness :
  let d := set_groups {["g1" := Sample.chess]} Sample.store in
  admin_is_member
    (create Sample.bob (Some "Go") (Some "Board games") false 100 "g3" d).2 ∧
  admin_is_member (join Sample.bob "g1" 100 d).2 ∧
  admin_is_member (leave Sample.bob "g1" 100 d).2.
Proof.
  apply (admin_is_member_kept Sample.bob (Some "Go") (Some "Board games")
           false "g1" "g3" 100
           (set_groups {["g1" := Sample.chess]} Sample.store)).
  intros k g. simpl. rewrite lookup_singleton_Some. intros [_ <-].
  apply (bool_decide_unpack _). reflexivity.
Defined.

Lemma filter_ne_app_singleton (x : string) (l : list string) :
  x ∉ l → filter (λ y, y ≠ x) (l ++ [x])%list = l.
Proof.
  induction l as [|y l IH]; intros Hx.
  - simpl. by rewrite filter_cons_False, filter_nil by (intros H; by apply H).
  - apply not_elem_of_cons in Hx as [Hne Hx]. simpl.
    rewrite filter_cons_True by done. by rewrite IH.
Qed.

(** X14. Joining and leaving undo each other. For a caller who is neither
    a member nor the admin of a group: the join is accepted and a second
    join is refused "Already a member of this group"; a leave after the
    join is accepted and gives back the member list as it was, in the same
    order; a second leave is refused "Not a member of this group". *)
Theorem join_then_leave (user : User.t) (groupId : string) (t0 t1 t2 : Z)
    (d : db) (g : group.doc) :
  groups d !! groupId = Some g →
  User.uid user ∉ group.members g → group.admin g ≠ User.uid user →
  let r1 := join user groupId t0 d in
  let r2 := leave user groupId t1 r1.2 in
  r1.1 = message 200 "Successfully joined group" ∧
  join user groupId t1 r1.2 =
    (message 400 "Already a member of this group", r1.2) ∧
  r2.1 = message 200 "Successfully left group" ∧
  (group.members <$> groups r2.2 !! groupId) = Some (group.members g) ∧
  leave user groupId t2 r2.2 =
    (message 400 "Not a member of this group", r2.2).
Proof.
  intros Hg Hout Hadmin r1 r2. subst r2 r1.
  pose proof (proj2 (includes_not_elem_of _ _) Hout) as Hinc.
  assert (Hunion : arrayUnion (User.uid user) (Some (group.members g)) =
                     (group.members g ++ [User.uid user])%list).
  { unfold arrayUnion. by rewrite Hinc. }
  assert (Hjoin : join user groupId t0 d =
            (message 200 "Successfully joined group",
             set_groups (<[groupId := update_members (arrayUnion (User.uid user)) t0 g]>
                           (groups d)) d)).
  { unfold join. by rewrite Hg, Hinc. }
  rewrite Hjoin. cbn [fst snd]. split; [done|].
  assert (Hin1 : includes (group.members g ++ [User.uid user])%list (User.uid user)
                 = true).
  { apply includes_elem_of. rewrite elem_of_app, list_elem_of_singleton. auto. }
  split.
  { unfold join. cbn [groups set_groups]. rewrite lookup_insert_eq.
    cbn [update_members group.members]. by rewrite Hunion, Hin1. }
  assert (Hleave : ∀ d1 : db,
            groups d1 !! groupId =
              Some (update_members (arrayUnion (User.uid user)) t0 g) →
            leave user groupId t1 d1 =
              (message 200 "Successfully left group",
               set_groups
                 (<[groupId := update_members (arrayRemove (User.uid user)) t1
                                 (update_members (arrayUnion (User.uid user)) t0 g)]>
                    (groups d1)) d1)).
  { intros d1 Hd1. unfold leave. rewrite Hd1.
    cbn [update_members group.members group.admin]. rewrite Hunion, Hin1.
    cbn [negb]. by destruct (String.eqb_spec (group.admin g) (User.uid user)). }
  rewrite Hleave by (cbn [groups set_groups]; apply lookup_insert_eq).
  cbn [fst snd]. split; [done|].
  assert (Hback : arrayRemove (User.uid user)
                    (Some (group.members g ++ [User.uid user])%list) = group.members g).
  { unfold arrayRemove. by apply filter_ne_app_singleton. }
  split.
  { cbn [groups set_groups]. rewrite lookup_insert_eq.
    cbn [fmap option_fmap option_map update_members group.members].
    by rewrite Hunion, Hback. }
  unfold leave. cbn [groups set_groups]. rewrite lookup_insert_eq.
  cbn [update_members group.members]. rewrite Hunion, Hback, Hinc. done.
Qed.

Lemma join_then_leave_witness :
  let r1 := join Sample.carol "g1" 100 Sample.store in
  let r2 := leave Sample.carol "g1" 200 r1.2 in
  r1.1 = message 200 "Successfully joined group" ∧
  join Sample.carol "g1" 200 r1.2 =
    (message 400 "Already a member of this group", r1.2) ∧
  r2.1 = message 200 "Successfully left group" ∧
  (group.members <$> groups r2.2 !! "g1") = Some (group.members Sample.chess) ∧
  leave Sample.carol "g1" 300 r2.2 =
    (message 400 "Not a member of this group", r2.2).
Proof.
  apply (join_then_leave Sample.carol "g1" 100 200 300 Sample.store Sample.chess);
    [reflexivity | apply (bool_decide_unpack _); reflexivity | discriminate].
Defined.

End group_further.

(** ** More on profiles ([routes/users.js]) *)

Section user_further.
Import JS Firestore Users.

(** X15. [PUT /users/profile] never creates a profile and never touches
    anything but the caller's own: for a caller without a profile the answer
    is 500 and the store is unchanged (the profile is still "not found");
    whatever the outcome, every other user reads the same profile as before,
    the users who have a profile are the same, and communities, posts and
    groups are as they were. *)
Theorem update_profile_frame (cfg : settings) (user other : User.t)
    (body : gmap string value) (now : Z) (d : db) :
  (get_profile user d = inl (message 404 "User profile not found") →
     update_profile cfg user body now d =
       (message 500 "Failed to update profile", d)) ∧
  (User.uid other ≠ User.uid user →
     get_profile other (update_profile cfg user body now d).2 =
     get_profile other d) ∧
  (∀ k, is_Some (users (update_profile cfg user body now d).2 !! k) ↔
        is_Some (users d !! k)) ∧
  communities (update_profile cfg user body now d).2 = communities d ∧
  posts (update_profile cfg user body now d).2 = posts d ∧
  groups (update_profile cfg user body now d).2 = groups d.
Proof.
  unfold update_profile, get_profile, update.
  destruct (users d !! User.uid user) as [doc|] eqn:Hdoc.
  - split; [done|]. destruct (accepts cfg _); cbn [snd].
    + cbn [users set_users communities posts groups].
      split; [intros Hne; by rewrite lookup_insert_ne|].
      split; [|done]. intros k. rewrite lookup_insert.
      case_decide; [subst; by rewrite Hdoc | done].
    + done.
  - done.
Qed.

Lemma updateData_undefined_now (body : gmap string value) (t1 t2 : Z) :
  existsb (λ kv, is_undefined kv.2) (updateData body t1) =
  existsb (λ kv, is_undefined kv.2) (updateData body t2).
Proof. reflexivity. Qed.

Lemma foldl_write_field_again (body doc : gmap string value) (t1 t2 : Z) :
  foldl write_field (foldl write_field doc (updateData body t1))
        (updateData body t2) =
  foldl write_field doc (updateData body t2).
Proof.
  apply map_eq. intros k.
  destruct (decide (k ∈ (updateData body t2).*1)) as [Hin|Hout].
  - rewrite updateData_keys in Hin. apply elem_of_app in Hin as [Hf|Hu].
    + rewrite !(foldl_write_field_at _ _ k (body !! k))
        by auto using updateData_NoDup, updateData_field.
      by destruct (body !! k).
    + apply list_elem_of_singleton in Hu as ->.
      rewrite !(foldl_write_field_at _ _ "updatedAt" (Some (VTimestamp t2)));
        [done | apply updateData_NoDup | | apply updateData_NoDup |];
        unfold updateData; rewrite !elem_of_cons; auto 10.
  - rewrite updateData_keys in Hout.
    by rewrite !foldl_write_field_other by by rewrite updateData_keys.
Qed.

(** X16. The last profile update wins and the one before it leaves no
    trace: a request repeated with the same body gives the answer and the
    store that the later request alone would have given. *)
Theorem update_profile_repeated (cfg : settings) (user : User.t)
    (body : gmap string value) (t1 t2 : Z) (d : db) :
  update_profile cfg user body t2 (update_profile cfg user body t1 d).2 =
  update_profile cfg user body t2 d.
Proof.
  unfold update_profile at 2. unfold update.
  destruct (users d !! User.uid user) as [doc|] eqn:Hdoc; [|done].
  destruct (accepts cfg _) eqn:Hacc; [|done]. cbn [snd].
  unfold update_profile, update. cbn [users set_users].
  rewrite lookup_insert_eq, Hdoc.
  rewrite (updateData_undefined_now body t2 t1), Hacc.
  rewrite foldl_write_field_again. unfold set_users. cbn [communities posts groups users].
  by rewrite insert_insert_eq.
Qed.

End user_further.

(** ** More on the feed ([routes/posts.js]) *)

Section sort_on_properties.
Import Firestore.
Context {A : Type} (cmp : A → A → Z) (P : A → Prop).

Hypothesis cmp_total : ∀ a b, P a → P b → before cmp a b ∨ before cmp b a.
Hypothesis cmp_trans :
  ∀ a b c, P a → P b → P c → before cmp a b → before cmp b c → before cmp a c.



End sort_on_properties.

Section feed_further.
Import JS Firestore Posts.


Lemma elem_of_posts_of (communityId postId : string) (p : post.doc) (d : db) :
  (postId, p) ∈ posts_of communityId d ↔ posts d !! (communityId, postId) = Some p.
Proof.
  unfold posts_of. rewrite elem_of_sort, list_elem_of_fmap. split.
  - intros ([[c i] p'] & [= -> ->] & Hin). simpl in *.
    apply list_elem_of_filter in Hin as [Hc Hin]. simpl in Hc. subst c.
    by apply elem_of_map_to_list in Hin.
  - intros Hp. exists (communityId, postId, p). split; [done|].
    apply list_elem_of_filter. split; [done|]. by apply elem_of_map_to_list.
Qed.

(** Every document that a query returns is a stored post of the community
    and has a timestamp. *)
Lemma query_posts_stored (communityId : string) (since : option Z) (limit : Z)
    (d : db) (docs : list (string * post.doc)) :
  query_posts communityId since limit d = Some docs →
  Forall (λ kv, posts d !! (communityId, kv.1) = Some kv.2 ∧
                is_Some (post.timestamp kv.2)) docs.
Proof.
  unfold query_posts. destruct (limit <? 0); [done|]. intros [= <-].
  apply Forall_take, Forall_sort. apply Forall_forall. intros [i p] Hin.
  apply list_elem_of_In, filter_In in Hin as [Hin Hts].
  apply list_elem_of_In, elem_of_reverse, elem_of_posts_of in Hin.
  split; [done|].
  unfold timestamp_ge in Hts. simpl in *. by destruct (post.timestamp p).
Qed.

Lemma query_posts_length (communityId : string) (since : option Z) (limit : Z)
    (d : db) (docs : list (string * post.doc)) :
  query_posts communityId since limit d = Some docs →
  0 ≤ limit ∧ Z.of_nat (length docs) ≤ limit.
Proof.
  unfold query_posts. destruct (Z.ltb_spec limit 0); [done|]. intros [= <-].
  rewrite length_take. lia.
Qed.

Lemma collect_shown (uid filter : string) (limit : Z) (Date_now : nat → Z)
    (d : db) (ids : list string) :
  Forall (λ cid, ∃ c, communities d !! cid = Some c ∧
                      uid ∈ default [] (community.followers c)) ids →
  ∀ (i : nat) (ps : list feed_post),
    collect uid filter limit Date_now d i ids = Some ps →
    Forall (shown uid d) ps.
Proof.
  induction 1 as [|cid rest (c & Hc & Hfol) Hrest IH]; intros i ps; simpl.
  - intros [= <-]. constructor.
  - destruct (query_posts _ _ _ _) as [docs|] eqn:Hq; [|done].
    destruct (collect _ _ _ _ _ _ rest) as [later|] eqn:Hl; [|done].
    intros [= <-]. apply Forall_app. split; [|by eapply IH].
    apply Forall_fmap. apply query_posts_stored in Hq.
    eapply Forall_impl; [exact Hq|]. intros kv [Hkv Hts].
    exists c. unfold annotate. simpl. by rewrite Hc.
Qed.

Lemma followed_ids (uid : string) (d : db) :
  Forall (λ cid, ∃ c, communities d !! cid = Some c ∧
                      uid ∈ default [] (community.followers c))
    (List.filter (λ c, includes_opt (community.followers c.2) uid)
                 (documents (communities d))).*1.
Proof.
  apply Forall_fmap, Forall_forall. intros [cid c] Hin.
  apply list_elem_of_In, filter_In in Hin as [Hin Hfol].
  apply list_elem_of_In, elem_of_documents in Hin.
  exists c. split; [done|]. by apply includes_opt_elem_of.
Qed.

(** X17. The feed shows nothing from a community that the caller does not
    follow. Whatever the filter, the limit and the offset, each post of the
    answer is a stored post of a followed community, carries the name of that
    community and has [isLiked] set exactly when the caller is in its like
    set. *)
Theorem feed_only_followed (user : User.t) (limit offset : Z) (filter : string)
    (Date_now : nat → Z) (d : db) (ps : list feed_post) :
  feed user limit offset filter Date_now d = FeedOk ps →
  Forall (λ p, ∃ c, communities d !! communityId p = Some c ∧
                    User.uid user ∈ default [] (community.followers c) ∧
                    communityName p = Some (community.name c) ∧
                    posts d !! (communityId p, id p) = Some (data p) ∧
                    isLiked p =
                      includes_opt (post.likes (data p)) (User.uid user)) ps.
Proof.
  unfold feed. destruct (length _ =? 0)%nat; [intros [= <-]; constructor|].
  destruct (collect _ _ _ _ _ _ _) as [allPosts|] eqn:Hc; [|done].
  intros [= <-]. apply collect_shown in Hc; [|apply followed_ids].
  apply Forall_slice.
  assert (∀ cmp, Forall (shown (User.uid user) d) (sort cmp allPosts)) as Hs.
  { intros cmp. by apply Forall_sort. }
  eapply Forall_impl; [destruct (String.eqb filter "trending"); apply Hs|].
  intros p (c & ? & ? & ? & ? & ? & ?). by exists c.
Qed.

Lemma feed_only_followed_witness :
  ∃ ps, feed Sample.ann 2 1 "all" (λ _, 86403000) Sample.store = FeedOk ps ∧
    Forall (λ p, ∃ c, communities Sample.store !! communityId p = Some c ∧
                      User.uid Sample.ann ∈ default [] (community.followers c) ∧
                      communityName p = Some (community.name c) ∧
                      posts Sample.store !! (communityId p, id p) = Some (data p) ∧
                      isLiked p =
                        includes_opt (post.likes (data p)) (User.uid Sample.ann))
           ps.
Proof.
  exists (match feed Sample.ann 2 1 "all" (λ _, 86403000) Sample.store with
          | FeedOk ps => ps
          | FeedFail _ _ => []
          end).
  split; [vm_compute; reflexivity|].
  apply (feed_only_followed Sample.ann 2 1 "all" (λ _, 86403000) Sample.store).
  vm_compute. reflexivity.
Defined.






(** The sample feed with limit 2 and offset 1: the query keeps the two
    newest posts of the community, and the page starts after the first. *)
Example feed_all_sample :
  match feed Sample.ann 2 1 "all" (λ _, 86403000) Sample.store with
  | FeedOk ps => (λ p, (id p, post.timestamp (data p))) <$> ps
  | FeedFail _ _ => []
  end = [("p2", Some 86401000)].
Proof. vm_compute. reflexivity. Qed.


Lemma slice_past_end {A} (start end_ : Z) (l : list A) :
  Z.of_nat (length l) ≤ start → slice start end_ l = [].
Proof.
  intros Hlen. unfold slice.
  replace (start <? 0) with false by lia.
  rewrite drop_ge by lia. by rewrite take_nil.
Qed.

Lemma collect_length (uid filter : string) (limit : Z) (Date_now : nat → Z)
    (d : db) (ids : list string) :
  0 ≤ limit →
  ∀ (i : nat) (ps : list feed_post),
    collect uid filter limit Date_now d i ids = Some ps →
    Z.of_nat (length ps) ≤ limit * Z.of_nat (length ids).
Proof.
  intros Hlimit. induction ids as [|cid rest IH]; intros i ps; simpl.
  - intros [= <-]. simpl. lia.
  - destruct (query_posts _ _ _ _) as [docs|] eqn:Hq; [|done].
    destruct (collect _ _ _ _ _ _ rest) as [later|] eqn:Hl; [|done].
    intros [= <-]. rewrite length_app, length_fmap.
    apply query_posts_length in Hq as [_ Hq]. apply IH in Hl. lia.
Qed.

(** X19. The pages of the feed end early. Each followed community
    contributes at most its [limit] newest posts before the page is cut, so
    an offset of [limit] times the number of followed communities, or more,
    is answered with an empty page, however many posts the communities
    hold. *)
Theorem feed_pages_end (user : User.t) (limit offset : Z) (filter : string)
    (Date_now : nat → Z) (d : db) :
  let followed :=
    List.filter (λ c : string * community.doc,
                   includes_opt (community.followers c.2) (User.uid user))
                (map_to_list (communities d)) in
  0 ≤ limit → limit * Z.of_nat (length followed) ≤ offset →
  feed user limit offset filter Date_now d = FeedOk [].
Proof.
  intros followed Hlimit Hoffset. unfold feed.
  set (snapshot := List.filter _ (documents (communities d))).
  assert (length snapshot = length followed) as Hsame
    by apply length_filter_sort.
  destruct (length snapshot.*1 =? 0)%nat; [done|].
  destruct (collect_total (User.uid user) filter limit Date_now d snapshot.*1
              Hlimit 0%nat) as [allPosts Hc].
  rewrite Hc. apply collect_length in Hc; [|done].
  rewrite length_fmap, Hsame in Hc.
  f_equal. destruct (String.eqb filter "trending");
    apply slice_past_end; rewrite length_sort; lia.
Qed.

Lemma feed_pages_end_witness :
  feed Sample.ann 2 2 "all" (λ _, 86403000) Sample.store = FeedOk [].
Proof.
  apply (feed_pages_end Sample.ann 2 2 "all" (λ _, 86403000) Sample.store);
    [lia | vm_compute; discriminate].
Defined.

(** In the sample store the followed community holds four posts: with
    limit 2 the feed shows the two newest and nothing after them. *)
Example feed_pages_sample :
  length (posts_of "c1" Sample.store) = 4%nat ∧
  match feed Sample.ann 2 0 "all" (λ _, 86403000) Sample.store with
  | FeedOk ps => id <$> ps
  | FeedFail _ _ => []
  end = ["p4"; "p2"] ∧
  feed Sample.ann 2 2 "all" (λ _, 86403000) Sample.store = FeedOk [].
Proof. vm_compute. repeat split. Qed.


Lemma sort_insert_fmap {A B} (cmp : A → A → Z) (cmp' : B → B → Z) (h : A → B)
    (x : A) (l : list A) :
  (∀ a b, cmp' (h a) (h b) = cmp a b) →
  sort_insert cmp' (h x) (h <$> l) = h <$> sort_insert cmp x l.
Proof.
  intros Hh. induction l as [|y l IH]; [done|]. simpl. rewrite Hh.
  destruct (cmp x y <=? 0); [done|]. rewrite fmap_cons. f_equal. exact IH.
Qed.

Lemma sort_fmap {A B} (cmp : A → A → Z) (cmp' : B → B → Z) (h : A → B)
    (l : list A) :
  (∀ a b, cmp' (h a) (h b) = cmp a b) →
  sort cmp' (h <$> l) = h <$> sort cmp l.
Proof.
  intros Hh. induction l as [|x l IH]; [done|].
  rewrite fmap_cons. cbn [sort foldr]. fold (sort cmp' (h <$> l)).
  fold (sort cmp l). rewrite IH. by apply sort_insert_fmap.
Qed.

Lemma slice_fmap {A B} (h : A → B) (start end_ : Z) (l : list A) :
  slice start end_ (h <$> l) = h <$> slice start end_ l.
Proof. unfold slice. by rewrite length_fmap, fmap_take, fmap_drop. Qed.

Lemma concat_fmap_fmap {A B C} (h : B → C) (f : A → list B) (l : list A) :
  h <$> concat (f <$> l) = concat ((λ x, h <$> f x) <$> l).
Proof.
  induction l as [|x l IH]; [done|].
  rewrite !fmap_cons. cbn [concat]. by rewrite fmap_app, IH.
Qed.

Lemma Forall_concat_fmap {A B} (P : B → Prop) (f : A → list B) (l : list A) :
  (∀ x, x ∈ l → Forall P (f x)) → Forall P (concat (f <$> l)).
Proof.
  induction l as [|x l IH]; intros Hl; [constructor|].
  rewrite fmap_cons. cbn [concat]. apply Forall_app. split.
  - apply Hl. by left.
  - apply IH. intros y Hy. apply Hl. by right.
Qed.

(** Every document of an unlimited query is a stored post of the community
    and has a timestamp, one within the window when there is a window. *)
Lemma query_all_posts_stored (communityId : string) (since : option Z)
    (d : db) :
  Forall (λ kv, posts d !! (communityId, kv.1) = Some kv.2 ∧
                ∃ t, post.timestamp kv.2 = Some t ∧
                     ∀ s, since = Some s → s ≤ t)
         (query_all_posts communityId since d).
Proof.
  unfold query_all_posts. apply Forall_sort, Forall_forall. intros [i p] Hin.
  apply list_elem_of_In, filter_In in Hin as [Hin Hts].
  apply list_elem_of_In, elem_of_reverse, elem_of_posts_of in Hin.
  split; [done|].
  unfold timestamp_ge in Hts. simpl in *.
  destruct (post.timestamp p) as [t|]; [|done]. exists t. split; [done|].
  intros s ->. lia.
Qed.

(** X20. The ranking of [/trending] is the same for everybody. Two callers
    who ask with the same limit and offset at the same instant get the same
    posts in the same order, whatever they follow; only [isLiked] is the
    caller's own. Each post of the answer is a stored post of the last
    twenty-four hours, and the answer is in descending order of the size of
    the like set. *)
Theorem trending_same_for_all (user other : User.t) (limit offset now : Z)
    (d : db) :
  public <$> trending user limit offset now d =
  public <$> trending other limit offset now d ∧
  Forall (λ p, posts d !! (communityId p, id p) = Some (data p) ∧
               (∃ t, post.timestamp (data p) = Some t ∧
                     now - 24 * 60 * 60 * 1000 ≤ t) ∧
               isLiked p = includes_opt (post.likes (data p)) (User.uid user))
         (trending user limit offset now d) ∧
  StronglySorted (λ a b, likeCount (data b) ≤ likeCount (data a))
                 (trending user limit offset now d).
Proof.
  unfold trending. split; [|split].
  - set (h := λ p : feed_post,
               FeedPost (id p) (communityId p) (communityName p) (data p)
                 (includes_opt (post.likes (data p)) (User.uid other))).
    match goal with
    | |- _ = public <$> slice _ _ (sort _ (concat (?f <$> ?cs))) =>
        replace (concat (f <$> cs)) with
          (h <$> concat ((λ communityDoc : string * community.doc,
                  annotate_with (User.uid user) communityDoc <$>
                    query_all_posts communityDoc.1
                      (Some (now - 24 * 60 * 60 * 1000)) d) <$> cs))
    end.
    + rewrite (sort_fmap by_likes by_likes h) by done.
      rewrite slice_fmap, <- list_fmap_compose.
      by apply list_fmap_ext.
    + rewrite concat_fmap_fmap. f_equal. apply list_fmap_ext.
      intros _ communityDoc _. rewrite <- list_fmap_compose.
      by apply list_fmap_ext.
  - apply Forall_slice, Forall_sort, Forall_concat_fmap.
    intros communityDoc _. apply Forall_fmap.
    eapply Forall_impl; [apply query_all_posts_stored|].
    intros kv (Hkv & t & Ht & Hs). simpl. repeat split; [done|].
    exists t. split; [done|]. by apply Hs.
  - apply slice_sorted.
    eapply (StronglySorted_weaken (before by_likes));
      [intros a b; apply by_likes_before|].
    apply sort_sorted; unfold before, by_likes; intros; lia.
Qed.

(** The sample store at the end of its second day, asked by a caller who
    follows nothing: the post of the first day is left out. *)
Example trending_sample :
  (λ p, (id p, likeCount (data p), isLiked p)) <$>
    trending Sample.carol 20 0 86403000 Sample.store =
  [("p2", 2, false); ("p1", 1, false); ("p4", 0, false)].
Proof. vm_compute. reflexivity. Qed.

End feed_further.

(** ** Searching the posts ([routes/posts.js]) *)

Section string_properties.
Import JS.

Lemma strip_prefix_spec (p s r : string) :
  strip_prefix p s = Some r ↔ s = p +:+ r.
Proof.
  revert s. induction p as [|a p IH]; intros s.
  - rewrite append_nil_l. destruct s; simpl; split; congruence.
  - rewrite append_cons. destruct s as [|b s]; simpl; [split; congruence|].
    destruct (Ascii.eqb_spec a b) as [->|Hne].
    + rewrite IH. split; congruence.
    + split; congruence.
Qed.

Lemma String_includes_cons (sub : string) (c : ascii) (s : string) :
  String_includes sub (String c s) =
    match strip_prefix sub (String c s) with
    | Some _ => true
    | None => String_includes sub s
    end.
Proof. reflexivity. Qed.

Lemma String_includes_nil (sub : string) :
  String_includes sub "" =
    match strip_prefix sub "" with Some _ => true | None => false end.
Proof. reflexivity. Qed.

(** [s.includes(sub)] holds exactly when [sub] occurs in [s]. *)
Lemma String_includes_spec (sub s : string) :
  String_includes sub s = true ↔ ∃ a b, s = a +:+ sub +:+ b.
Proof.
  split.
  - induction s as [|c s IH].
    + rewrite String_includes_nil.
      destruct (strip_prefix sub "") as [r|] eqn:Hr; [|done]. intros _.
      apply strip_prefix_spec in Hr. exists "", r. by rewrite append_nil_l.
    + rewrite String_includes_cons.
      destruct (strip_prefix sub (String c s)) as [r|] eqn:Hr.
      * intros _. apply strip_prefix_spec in Hr.
        exists "", r. by rewrite append_nil_l.
      * intros (a & b & ->)%IH. exists (String c a), b.
        by rewrite append_cons.
  - intros (a & b & ->). induction a as [|c a IH].
    + rewrite append_nil_l.
      assert (strip_prefix sub (sub +:+ b) = Some b) as Hr
        by by apply strip_prefix_spec.
      destruct (sub +:+ b) as [|c s] eqn:Hs.
      * by rewrite String_includes_nil, Hr.
      * by rewrite String_includes_cons, Hr.
    + rewrite append_cons, String_includes_cons, IH.
      by destruct (strip_prefix _ _).
Qed.

Lemma lower_char_idemp (c : ascii) : lower_char (lower_char c) = lower_char c.
Proof. destruct c as [[] [] [] [] [] [] [] []]; reflexivity. Qed.

Lemma is_space_lower_char (c : ascii) : is_space (lower_char c) = is_space c.
Proof. destruct c as [[] [] [] [] [] [] [] []]; reflexivity. Qed.

Lemma toLowerCase_idemp (s : string) :
  toLowerCase (toLowerCase s) = toLowerCase s.
Proof.
  induction s as [|c s IH]; [done|]. simpl. by rewrite lower_char_idemp, IH.
Qed.

Lemma length_toLowerCase (s : string) :
  String.length (toLowerCase s) = String.length s.
Proof. induction s as [|c s IH]; [done|]. simpl. by rewrite IH. Qed.

Lemma toLowerCase_eq_nil (s : string) :
  String.eqb (toLowerCase s) "" = String.eqb s "".
Proof. by destruct s. Qed.

Lemma trimStart_toLowerCase (s : string) :
  trimStart (toLowerCase s) = toLowerCase (trimStart s).
Proof.
  induction s as [|c s IH]; [done|]. simpl. rewrite is_space_lower_char.
  by destruct (is_space c).
Qed.

Lemma trimEnd_toLowerCase (s : string) :
  trimEnd (toLowerCase s) = toLowerCase (trimEnd s).
Proof.
  induction s as [|c s IH]; [done|]. simpl.
  rewrite is_space_lower_char, IH, toLowerCase_eq_nil.
  by destruct (is_space c && _).
Qed.

(** Trimming and lowering commute. *)
Lemma trim_toLowerCase (s : string) :
  trim (toLowerCase s) = toLowerCase (trim s).
Proof. unfold trim. by rewrite trimStart_toLowerCase, trimEnd_toLowerCase. Qed.

Lemma trimEnd_idemp (s : string) : trimEnd (trimEnd s) = trimEnd s.
Proof.
  induction s as [|c s IH]; [done|]. simpl.
  destruct (is_space c && String.eqb (trimEnd s) "") eqn:Hc; [done|].
  simpl. by rewrite IH, Hc.
Qed.

Lemma trimStart_clean (s : string) : starts_clean (trimStart s) = true.
Proof.
  induction s as [|c s IH]; [done|]. simpl.
  destruct (is_space c) eqn:Hc; [done|]. simpl. by rewrite Hc.
Qed.

Lemma trimStart_of_clean (s : string) :
  starts_clean s = true → trimStart s = s.
Proof. destruct s as [|c s]; [done|]. simpl. by destruct (is_space c). Qed.

Lemma trimEnd_clean (s : string) :
  starts_clean s = true → starts_clean (trimEnd s) = true.
Proof.
  destruct s as [|c s]; [done|]. simpl. intros Hc.
  apply negb_true_iff in Hc. rewrite Hc. simpl. by rewrite Hc.
Qed.

Lemma trim_idemp (s : string) : trim (trim s) = trim s.
Proof.
  unfold trim.
  rewrite (trimStart_of_clean (trimEnd (trimStart s)))
    by apply trimEnd_clean, trimStart_clean.
  apply trimEnd_idemp.
Qed.

End string_properties.


Section search_properties.
Import JS Firestore Posts.

Lemma text_includes_spec (term : string) (kv : string * post.doc) :
  term ≠ "" →
  text_includes term kv = true ↔
  ∃ text a b, post.text kv.2 = Some text ∧
              toLowerCase text = a +:+ term +:+ b.
Proof.
  intros Hterm. unfold text_includes.
  destruct (post.text kv.2) as [text|]; cbn [fmap option_fmap option_map].
  - assert (or_else (Some (toLowerCase text)) "" = toLowerCase text) as ->.
    { unfold or_else. simpl. by destruct (String.eqb_spec (toLowerCase text) ""). }
    rewrite String_includes_spec. split.
    + intros (a & b & H). by exists text, a, b.
    + intros (text' & a & b & [= <-] & H). by exists a, b.
  - split; [|by intros (? & ? & ? & ? & ?)].
    change (or_else None "") with "". intros H.
    apply String_includes_spec in H as (a & b & H).
    symmetry in H. apply append_eq_nil in H as [_ H].
    apply append_eq_nil in H as [H _]. done.
Qed.

(** X21. What [/search] finds. A search that is answered with posts was
    asked with a query of at least two characters once trimmed, and each post
    of the answer is a stored post whose text, in lower case, contains the
    query trimmed and in lower case; a post without text is never found. *)
Theorem search_hits (user : User.t) (q : option string) (limit offset : Z)
    (d : db) (ps : list feed_post) :
  search user q limit offset d = inr ps →
  ∃ qs term, q = Some qs ∧ term = trim (toLowerCase qs) ∧
    (2 ≤ String.length term)%nat ∧
    Forall (λ p, posts d !! (communityId p, id p) = Some (data p) ∧
                 ∃ text a b, post.text (data p) = Some text ∧
                             toLowerCase text = a +:+ term +:+ b) ps.
Proof.
  unfold search. destruct q as [qs|]; [|done]. simpl.
  destruct (negb (String.eqb qs "")); [|done]. simpl.
  destruct (Nat.ltb_spec (String.length (trim qs)) 2) as [|Hlen]; [done|].
  intros [= <-]. exists qs, (trim (toLowerCase qs)).
  assert (2 ≤ String.length (trim (toLowerCase qs)))%nat as Hlen'.
  { by rewrite trim_toLowerCase, length_toLowerCase. }
  repeat split; [done|].
  assert (trim (toLowerCase qs) ≠ "") as Hterm.
  { intros H. rewrite H in Hlen'. simpl in Hlen'. lia. }
  apply Forall_slice, Forall_sort, Forall_concat_fmap.
  intros communityDoc _. apply Forall_fmap, Forall_forall. intros kv Hin.
  apply list_elem_of_In, filter_In in Hin as [Hin Hhit].
  apply list_elem_of_In in Hin.
  pose proof (query_all_posts_stored communityDoc.1 None d) as Hq.
  rewrite Forall_forall in Hq. destruct (Hq kv Hin) as [Hkv _].
  simpl. split; [done|]. by apply text_includes_spec.
Qed.

Lemma search_hits_witness :
  ∃ ps, search Sample.carol (Some " HI ") 2 0 Sample.store = inr ps ∧
    ∃ qs term, Some " HI " = Some qs ∧ term = trim (toLowerCase qs) ∧
      (2 ≤ String.length term)%nat ∧
      Forall (λ p, posts Sample.store !! (communityId p, id p) = Some (data p) ∧
                   ∃ text a b, post.text (data p) = Some text ∧
                               toLowerCase text = a +:+ term +:+ b) ps.
Proof.
  exists (match search Sample.carol (Some " HI ") 2 0 Sample.store with
          | inr ps => ps
          | inl _ => []
          end).
  split; [vm_compute; reflexivity|].
  apply (search_hits Sample.carol (Some " HI ") 2 0 Sample.store).
  vm_compute. reflexivity.
Defined.

(** X22. For a query of Latin-1 characters (code units below 256, the
    strings of this development, on which [toLowerCase] maps unit to unit),
    [/search] ignores the case of the query and the white space around it:
    the query, the query in lower case and the query trimmed get the same
    answer, the refusal of a query that is too short included. Beyond
    Latin-1 the first of these fails: for U+0130, the one character becomes
    two in lower case, and the query is refused where its lower case is
    answered. *)
Theorem search_normalises (user : User.t) (q : string) (limit offset : Z)
    (d : db) :
  search user (Some (toLowerCase q)) limit offset d =
    search user (Some q) limit offset d ∧
  search user (Some (trim q)) limit offset d =
    search user (Some q) limit offset d.
Proof.
  assert (∀ s, negb (truthy (Some s)) || (String.length (trim s) <? 2)%nat =
               (String.length (trim s) <? 2)%nat) as Hcheck.
  { intros s. destruct s; [done|]. simpl. done. }
  unfold search. rewrite !Hcheck. cbn [default from_option Datatypes.id].
  split.
  - by rewrite toLowerCase_idemp, trim_toLowerCase, length_toLowerCase.
  - by rewrite trim_idemp, trim_toLowerCase, trim_idemp, <- trim_toLowerCase.
Qed.

(** The sample store: every post says "hi". *)
Example search_sample :
  match search Sample.carol (Some " HI ") 2 0 Sample.store with
  | inr ps => id <$> ps
  | inl _ => []
  end = ["p4"; "p2"] ∧
  search Sample.carol (Some " h ") 2 0 Sample.store =
    inl (message 400 "Search query must be at least 2 characters").
Proof. vm_compute. split; reflexivity. Qed.

End search_properties.


(** ** Commenting on a post ([routes/posts.js]) *)

Section comment_properties.
Import JS Firestore Comments.

(** X23. A comment on a stored post. Whoever the caller is, a follower of
    the community or not, a comment with a text is stored under the caller's
    id and raises the comment count of the post by exactly one; the rest of
    the post, the other posts and the communities are as they were. *)
Theorem add_comment_counts (cfg : settings) (user : User.t)
    (postId communityId text newId : string) (now : Z) (st : store)
    (p : post.doc) :
  text ≠ "" ∧ communityId ≠ "" →
  accepts cfg (is_undefined (User.picture user)) = true →
  comments st !! (communityId, postId, newId) = None →
  posts (base st) !! (communityId, postId) = Some p →
  let r := add_comment cfg user postId (Some communityId) (Some text) now newId
             st in
  r.1 = Response 200 [("id", JStr newId);
                      ("message", JStr "Comment added successfully")] ∧
  comments r.2 !! (communityId, postId, newId) =
    Some (Comment text (User.uid user) (User.displayName user)
            (User.picture user) now) ∧
  (∃ p', posts (base r.2) !! (communityId, postId) = Some p' ∧
     post.comments p' = post.comments p + 1 ∧
     post.likes p' = post.likes p ∧ post.text p' = post.text p ∧
     post.author p' = post.author p ∧ post.timestamp p' = post.timestamp p) ∧
  (∀ k, k ≠ (communityId, postId) → posts (base r.2) !! k = posts (base st) !! k) ∧
  communities (base r.2) = communities (base st).
Proof.
  intros [Ht Hc] Hacc Hfresh Hp r. subst r. unfold add_comment.
  rewrite (truthy_Some _ Ht), (truthy_Some _ Hc), Hacc. simpl.
  rewrite Hfresh, Hp. simpl. rewrite !lookup_insert_eq.
  repeat split; [by eexists|].
  intros k Hk. by rewrite lookup_insert_ne.
Qed.

Lemma add_comment_counts_witness :
  let st := Store Sample.store ∅ in
  let r := add_comment default_settings Sample.carol "p1" (Some "c1")
             (Some "nice") 90000000 "k1" st in
  r.1 = Response 200 [("id", JStr "k1");
                      ("message", JStr "Comment added successfully")] ∧
  comments r.2 !! ("c1", "p1", "k1") =
    Some (Comment "nice" "u3" "Carol" (Some "https://img/carol") 90000000) ∧
  (∃ p', posts (base r.2) !! ("c1", "p1") = Some p' ∧
     post.comments p' = post.comments (Sample.post_at 86400000 ["a"]) + 1 ∧
     post.likes p' = post.likes (Sample.post_at 86400000 ["a"]) ∧
     post.text p' = post.text (Sample.post_at 86400000 ["a"]) ∧
     post.author p' = post.author (Sample.post_at 86400000 ["a"]) ∧
     post.timestamp p' = post.timestamp (Sample.post_at 86400000 ["a"])) ∧
  (∀ k, k ≠ ("c1", "p1") →
        posts (base r.2) !! k = posts (base st) !! k) ∧
  communities (base r.2) = communities (base st).
Proof.
  apply (add_comment_counts default_settings Sample.carol "p1" "c1" "nice" "k1"
           90000000 (Store Sample.store ∅) (Sample.post_at 86400000 ["a"]));
    [split; discriminate | reflexivity | reflexivity | reflexivity].
Defined.



(** An element that every other element has to follow comes first. *)
Lemma sort_head {A} (cmp : A → A → Z) (x : A) (l : list A) :
  (∀ a b, before cmp a b ∨ before cmp b a) →
  (∀ a b c, before cmp a b → before cmp b c → before cmp a c) →
  x ∈ l → (∀ y, y ∈ l → y = x ∨ 0 < cmp y x) →
  ∃ rest, sort cmp l = x :: rest.
Proof.
  intros Htotal Htrans Hx Hfirst.
  pose proof (sort_sorted cmp Htotal Htrans l) as Hsorted.
  apply (elem_of_sort cmp) in Hx.
  destruct (sort cmp l) as [|h t] eqn:Hl; [by apply elem_of_nil in Hx|].
  destruct (Hfirst h) as [->|Hh]; [|by eexists|].
  { apply (elem_of_sort cmp). rewrite Hl. by left. }
  apply elem_of_cons in Hx as [->|Hx]; [by eexists|].
  apply StronglySorted_inv in Hsorted as [_ Hall].
  rewrite Forall_forall in Hall. specialize (Hall x Hx).
  unfold before in Hall. lia.
Qed.




End comment_properties.


(** ** The OTP page and the codes of the server ([pages/OTP.tsx]) *)

Section otp_page_properties.
Import JS Auth OtpPage.

Lemma all_digits_strip (value : string) :
  all_digits (strip_non_digits value) = true.
Proof.
  induction value as [|c s IH]; [done|]. simpl.
  destruct (is_digit c) eqn:Hc; [|done]. simpl. by rewrite Hc.
Qed.

Lemma strip_of_digits (s : string) :
  all_digits s = true → strip_non_digits s = s.
Proof.
  induction s as [|c s IH]; [done|]. simpl.
  intros [Hc Hs]%andb_true_iff. by rewrite Hc, IH.
Qed.

Lemma all_digits_slice_0 (n : nat) (s : string) :
  all_digits s = true → all_digits (slice_0 n s) = true.
Proof.
  revert s. induction n as [|n IH]; intros [|c s]; try done. simpl.
  intros [Hc Hs]%andb_true_iff. by rewrite Hc, IH.
Qed.

Lemma length_slice_0 (n : nat) (s : string) :
  String.length (slice_0 n s) = Nat.min n (String.length s).
Proof.
  revert s. induction n as [|n IH]; intros [|c s]; try done. simpl.
  by rewrite IH.
Qed.

Lemma slice_0_short (n : nat) (s : string) :
  (String.length s ≤ n)%nat → slice_0 n s = s.
Proof.
  revert s. induction n as [|n IH]; intros [|c s]; simpl; try done; try lia.
  intros Hlen. rewrite IH; [done | lia].
Qed.

Lemma onChange_of_code (s : string) :
  six_digit_code s = true → onChange s = s.
Proof.
  unfold six_digit_code. intros [Hl Hd]%andb_true_iff.
  apply Nat.eqb_eq in Hl. unfold onChange. rewrite strip_of_digits by done.
  apply slice_0_short. lia.
Qed.

(** The requests that [handleSubmit] sends. *)
Lemma handleSubmit_requests (auth : bool) (email otp : string)
    (fetch : string → string → option response)
    (signInWithCustomToken : jsval → bool) :
  (handleSubmit auth email otp fetch signInWithCustomToken).1 =
    if auth && (String.length otp =? 6)%nat then [(email, otp)] else [].
Proof.
  unfold handleSubmit.
  destruct (Nat.eqb_spec (String.length otp) 6) as [H6|H6].
  - destruct otp; [done|]. simpl. by destruct auth.
  - rewrite orb_true_r, andb_false_r. done.
Qed.

(** X26. What the OTP field can hold and what the page sends. Whatever is
    typed or pasted, the field holds digits only, six at most, and filtering
    it again changes nothing; a code of six digits goes through the filter
    as it is. [handleSubmit] sends a request exactly when Firebase is
    initialised and the field holds a code of six digits, and the request
    carries the e-mail address and the content of the field. *)
Theorem otp_input_sanitised (value : string) :
  all_digits (onChange value) = true ∧
  (String.length (onChange value) ≤ 6)%nat ∧
  onChange (onChange value) = onChange value ∧
  (six_digit_code value = true → onChange value = value) ∧
  (∀ auth email fetch signInWithCustomToken,
     (handleSubmit auth email (onChange value) fetch signInWithCustomToken).1 =
       if auth && six_digit_code (onChange value)
       then [(email, onChange value)] else []).
Proof.
  assert (all_digits (onChange value) = true) as Hdigits.
  { apply all_digits_slice_0, all_digits_strip. }
  assert (String.length (onChange value) ≤ 6)%nat as Hlen.
  { unfold onChange. rewrite length_slice_0. lia. }
  split; [done|]. split; [done|]. split; [|split].
  - unfold onChange at 1. rewrite strip_of_digits by done.
    by apply slice_0_short.
  - apply onChange_of_code.
  - intros auth email fetch signIn. rewrite handleSubmit_requests.
    unfold six_digit_code. by rewrite Hdigits, andb_true_r.
Qed.

(** X27. The page takes every code that the server sends: a code of the
    generator, for a binary64 value of the random source in [0, 1), typed
    into the field, is held unchanged, and with Firebase initialised
    [handleSubmit] sends it, with the e-mail address, to [verify-otp] and
    goes on with the answer. *)
Theorem otp_page_takes_generated (r : Q) (email : string)
    (fetch : string → string → option response)
    (signInWithCustomToken : jsval → bool) :
  (0 <= r)%Q → (r < 1)%Q → is_binary64 r = true →
  onChange (generateOTP r) = generateOTP r ∧
  handleSubmit true email (onChange (generateOTP r)) fetch
    signInWithCustomToken =
    ([(email, generateOTP r)],
     settle (fetch email (generateOTP r)) signInWithCustomToken).
Proof.
  intros H0 H1 Hr.
  destruct (Number_toString_six_shape _ (generateOTP_number r H0 H1 Hr))
    as [Hshape _].
  fold (generateOTP r) in Hshape.
  rewrite (onChange_of_code _ Hshape). split; [done|].
  unfold six_digit_code in Hshape.
  apply andb_true_iff in Hshape as [Hl _]. apply Nat.eqb_eq in Hl.
  unfold handleSubmit. rewrite (proj2 (Nat.eqb_eq _ _) Hl).
  by destruct (generateOTP r).
Qed.

Lemma otp_page_takes_generated_witness :
  onChange (generateOTP (1 # 2)) = generateOTP (1 # 2) ∧
  handleSubmit true "x@ceg.edu" (onChange (generateOTP (1 # 2)))
    (λ _ _, None) (λ _, true) =
    ([("x@ceg.edu", generateOTP (1 # 2))],
     settle ((λ _ _, None) "x@ceg.edu" (generateOTP (1 # 2))) (λ _, true)).
Proof.
  apply (otp_page_takes_generated (1 # 2) "x@ceg.edu" (λ _ _, None) (λ _, true));
    [discriminate | reflexivity | vm_compute; reflexivity].
Defined.

(** A page whose [fetch] is the server with the record of the sample
    environment: the code of the mail signs the user in, and without
    Firebase nothing is sent. *)
Example otp_page_sample :
  let st := (send_otp Sample.env (Some "x@ceg.edu") ∅).2 in
  let fetch := λ email otp,
    Some (verify_otp Sample.idp 2000 (Some email) (Some otp) st).1 in
  handleSubmit true "x@ceg.edu" (onChange "483 920") fetch (λ _, true) =
    ([("x@ceg.edu", "483920")], signed_in (JStr "token:uid:x@ceg.edu")) ∧
  handleSubmit false "x@ceg.edu" (onChange "483 920") fetch (λ _, true) =
    ([], toast_error (JStr "Firebase not initialized")) ∧
  handleSubmit true "x@ceg.edu" (onChange "48392") fetch (λ _, true) =
    ([], toast_error (JStr "Please enter a valid 6-digit OTP")) ∧
  handleSubmit true "x@ceg.edu" (onChange "000000") fetch (λ _, true) =
    ([("x@ceg.edu", "000000")], toast_error (JStr "Invalid OTP")).
Proof. vm_compute. repeat split. Qed.

(** X28. The countdown of the page. Started at a number of seconds that is
    not negative, after [k] ticks it shows that number less [k], and 0 from
    then on: it never goes below 0 and, started at 300, it reaches 0 with
    the 300th tick, when the five minutes of the server are over. *)
Theorem countdown (start : Z) (k : nat) :
  0 ≤ start →
  Nat.iter k tick start = Z.max 0 (start - Z.of_nat k).
Proof.
  intros Hstart. induction k as [|k IH]; [simpl; lia|].
  rewrite Nat.iter_succ, IH. unfold tick.
  destruct (Z.leb_spec (Z.max 0 (start - Z.of_nat k)) 1); lia.
Qed.

Lemma countdown_witness :
  Nat.iter 299 tick 300 = Z.max 0 (300 - Z.of_nat 299) ∧
  Nat.iter 300 tick 300 = Z.max 0 (300 - Z.of_nat 300).
Proof.
  split; [apply (countdown 300 299) | apply (countdown 300 300)]; lia.
Defined.

End otp_page_properties.


(** ** Reading the posts of a community ([routes/communities.js]) *)

Section community_posts_properties.
Import JS Firestore Communities CommunityPosts.

(** X29. A post that has been created is read back first. When a follower's
    post is accepted and is later than the posts that the community has, the
    list of the posts of the community, asked from the start with a limit of
    one or more by any caller, begins with it, with an empty like set and
    [isLiked: false]. *)
Theorem post_shows_first (cfg : settings) (user reader : User.t)
    (communityId newId : string) (text : option string) (images : list string)
    (now limit : Z) (d : db) (c : community.doc) :
  communities d !! communityId = Some c →
  truthy text = true ∨ images ≠ [] →
  User.uid user ∈ default [] (community.followers c) →
  accepts cfg (is_undefined text || is_undefined (User.picture user)) = true →
  posts d !! (communityId, newId) = None →
  (∀ i p t, posts d !! (communityId, i) = Some p →
            post.timestamp p = Some t → t < now) →
  1 ≤ limit →
  let r := create_post cfg user communityId text images now newId d in
  ∃ rest,
    get_posts reader communityId limit 0 r.2 =
      inr (Posts.PostView newId
             (post.Doc text images (User.uid user) (User.displayName user)
                (User.picture user) (Some now) (Some []) 0) false :: rest).
Proof.
  intros Hc Hbody Hfol Hacc Hfresh Hlater Hlimit r.
  set (postData := post.Doc text images (User.uid user) (User.displayName user)
                     (User.picture user) (Some now) (Some []) 0).
  assert (Hr : posts r.2 = <[(communityId, newId) := postData]> (posts d)).
  { subst r. erewrite create_post_follower; [done | exact Hc | | | done | done].
    - destruct Hbody as [-> | Himg]; [done|].
      destruct images; [done|]. apply andb_false_r.
    - by apply includes_opt_elem_of. }
  unfold get_posts. replace (limit <? 0) with false by lia. simpl.
  destruct (sort_head Posts.newest_first (newId, postData)
              (List.filter (Posts.timestamp_ge None)
                 (reverse (Posts.posts_of communityId r.2)))) as [rest Hsort].
  - intros a b. unfold before, Posts.newest_first. lia.
  - intros a b e. unfold before, Posts.newest_first. lia.
  - apply list_elem_of_In, filter_In. split; [|done].
    apply list_elem_of_In, elem_of_reverse, elem_of_posts_of.
    rewrite Hr. apply lookup_insert_eq.
  - intros [i p] Hin. apply list_elem_of_In, filter_In in Hin as [Hin Hts].
    apply list_elem_of_In, elem_of_reverse, elem_of_posts_of in Hin.
    rewrite Hr in Hin.
    rewrite lookup_insert in Hin. case_decide as Hk.
    + left. congruence.
    + right. unfold Posts.timestamp_ge in Hts. simpl in Hts.
      destruct (post.timestamp p) as [t|] eqn:Ht; [|done].
      pose proof (Hlater i p t Hin Ht). unfold Posts.newest_first. simpl.
      rewrite Ht. simpl. lia.
  - unfold Posts.query_all_posts. rewrite Hsort.
    destruct (Z.to_nat limit) as [|n] eqn:Hn; [lia|]. by eexists.
Qed.

Lemma post_shows_first_witness :
  let r := create_post default_settings Sample.ann "c1" (Some "hello") []
             86403000 "n1" Sample.store in
  ∃ rest,
    get_posts Sample.carol "c1" 2 0 r.2 =
      inr (Posts.PostView "n1"
             (post.Doc (Some "hello") [] "u1" "Ann" (Some "https://img/ann")
                (Some 86403000) (Some []) 0) false :: rest).
Proof.
  apply (post_shows_first default_settings Sample.ann Sample.carol "c1" "n1"
           (Some "hello") [] 86403000 2 Sample.store Sample.robotics);
    [reflexivity | by left | apply (bool_decide_unpack _); reflexivity
    | reflexivity | reflexivity | | lia].
  intros i p t Hp Ht.
  unfold Sample.store in Hp. simpl in Hp.
  repeat (rewrite lookup_insert in Hp; case_decide;
          [injection Hp as <-; injection Ht as <-; reflexivity|]).
  apply lookup_singleton_Some in Hp as [_ <-]. injection Ht as <-. reflexivity.
Defined.

End community_posts_properties.


(** ** The messages of a group ([routes/groups.js]) *)

Section message_properties.
Import JS Firestore Groups Messages.

Local Arguments arrayUnion : simpl never.
Local Arguments arrayRemove : simpl never.

(** X30. Reading and writing the messages of a group goes with the
    membership. A caller who is neither a member nor the admin can neither
    send a message nor read the messages (403, nothing written); once the
    caller has joined, a message with content that the store takes is stored
    under the caller's id and the messages can be read; once the caller has
    left again, both are refused as before. *)
Theorem messaging_follows_membership (cfg : settings) (user : User.t)
    (groupId newId : string) (text type fileUrl fileName : option string)
    (t0 t1 t2 limit offset : Z) (st : store) (g : group.doc) :
  groups (base st) !! groupId = Some g →
  (User.uid user ∉ group.members g) ∧ (group.admin g ≠ User.uid user) →
  truthy text = true ∨ truthy fileUrl = true →
  accepts cfg (is_undefined fileUrl || is_undefined fileName) = true →
  messages st !! (groupId, newId) = None →
  0 ≤ limit ∧ 0 ≤ offset →
  let joined :=
    Store (join user groupId t0 (base st)).2 (messages st) (lastMessage st) in
  let sent :=
    send_message cfg user groupId text type fileUrl fileName t1 newId joined in
  let gone :=
    Store (leave user groupId t2 (base sent.2)).2 (messages sent.2)
      (lastMessage sent.2) in
  send_message cfg user groupId text type fileUrl fileName t1 newId st =
    (message 403 "Not a member of this group", st) ∧
  get_messages user groupId limit offset st =
    inl (message 403 "Not a member of this group") ∧
  sent.1 = Response 200 [("id", JStr newId);
                         ("message", JStr "Message sent successfully")] ∧
  (author <$> messages sent.2 !! (groupId, newId)) = Some (User.uid user) ∧
  (last_author <$> lastMessage sent.2 !! groupId) = Some (User.uid user) ∧
  (∃ ms, get_messages user groupId limit offset sent.2 = inr ms) ∧
  (∀ id', send_message cfg user groupId text type fileUrl fileName t2 id' gone =
            (message 403 "Not a member of this group", gone)) ∧
  get_messages user groupId limit offset gone =
    inl (message 403 "Not a member of this group").
Proof.
  intros Hg [Hout Hadmin] Hbody Hacc Hfresh [Hlimit Hoffset] joined sent gone.
  pose proof (proj2 (includes_not_elem_of _ _) Hout) as Hinc.
  assert (Hcontent : negb (truthy text) && negb (truthy fileUrl) = false).
  { destruct Hbody as [-> | ->]; [done | apply andb_false_r]. }
  assert (Hunion : arrayUnion (User.uid user) (Some (group.members g)) =
                     (group.members g ++ [User.uid user])%list).
  { unfold arrayUnion. by rewrite Hinc. }
  assert (Hin1 : includes (group.members g ++ [User.uid user])%list
                   (User.uid user) = true).
  { apply includes_elem_of. rewrite elem_of_app, list_elem_of_singleton. auto. }
  assert (Hback : arrayRemove (User.uid user)
                    (Some (group.members g ++ [User.uid user])%list) =
                  group.members g).
  { unfold arrayRemove. by apply filter_ne_app_singleton. }
  set (g1 := update_members (arrayUnion (User.uid user)) t0 g).
  assert (Hjoined : joined =
            Store (set_groups (<[groupId := g1]> (groups (base st))) (base st))
              (messages st) (lastMessage st)).
  { subst joined. unfold join. by rewrite Hg, Hinc. }
  assert (Hg1 : group.members g1 = (group.members g ++ [User.uid user])%list).
  { unfold g1. cbn [update_members group.members]. by rewrite Hunion. }
  assert (Hsent : sent =
            (Response 200 [("id", JStr newId);
                           ("message", JStr "Message sent successfully")],
             Store
               (set_groups (<[groupId := touch t1 g1]> (groups (base joined)))
                  (base joined))
               (<[(groupId, newId) :=
                    MessageDoc
                      (or_else text ("Shared a file: " +:+ template fileName))
                      (User.uid user) (default "text" type) fileUrl fileName
                      t1]> (messages st))
               (<[groupId :=
                    LastMessage
                      (or_else text ("Shared a file: " +:+ template fileName))
                      t1 (User.uid user)]> (lastMessage st)))).
  { subst sent. unfold send_message. rewrite Hcontent, Hjoined.
    cbn [base groups set_groups messages lastMessage].
    rewrite lookup_insert_eq, Hg1, Hin1, Hacc, Hfresh. done. }
  set (g2 := touch t1 g1) in Hsent.
  assert (Hgone : groups (base gone) !! groupId =
                    Some (update_members (arrayRemove (User.uid user)) t2 g2)).
  { subst gone. rewrite Hsent. cbn [snd base groups set_groups].
    unfold leave. cbn [groups set_groups]. rewrite lookup_insert_eq.
    unfold g2. cbn [touch group.members group.admin]. rewrite Hg1, Hin1.
    cbn [negb]. unfold g1. cbn [update_members group.admin].
    destruct (String.eqb_spec (group.admin g) (User.uid user)); [done|].
    cbn [snd groups set_groups]. by rewrite lookup_insert_eq. }
  assert (Hmem2 : includes
                    (group.members
                       (update_members (arrayRemove (User.uid user)) t2 g2))
                    (User.uid user) = false).
  { cbn [update_members group.members]. unfold g2.
    cbn [touch group.members]. by rewrite Hg1, Hback. }
  split; [|split; [|split; [|split; [|split; [|split; [|split]]]]]].
  - unfold send_message. by rewrite Hcontent, Hg, Hinc.
  - unfold get_messages. by rewrite Hg, Hinc.
  - by rewrite Hsent.
  - rewrite Hsent. cbn [snd messages]. by rewrite lookup_insert_eq.
  - rewrite Hsent. cbn [snd lastMessage]. by rewrite lookup_insert_eq.
  - rewrite Hsent. unfold get_messages. cbn [snd base groups set_groups].
    rewrite lookup_insert_eq. unfold g2. cbn [touch group.members].
    rewrite Hg1, Hin1. cbn [negb].
    replace (limit <? 0) with false by lia.
    replace (offset <? 0) with false by lia. by eexists.
  - intros id'. unfold send_message. by rewrite Hcontent, Hgone, Hmem2.
  - unfold get_messages. by rewrite Hgone, Hmem2.
Qed.

Lemma messaging_follows_membership_witness :
  let st := Store Sample.store ∅ ∅ in
  let joined :=
    Store (join Sample.carol "g1" 100 (base st)).2 (messages st)
      (lastMessage st) in
  let sent :=
    send_message default_settings Sample.carol "g1" (Some "see this")
      (Some "file") (Some "https://files/a.pdf") (Some "a.pdf") 200 "m1"
      joined in
  let gone :=
    Store (leave Sample.carol "g1" 300 (base sent.2)).2 (messages sent.2)
      (lastMessage sent.2) in
  send_message default_settings Sample.carol "g1" (Some "see this")
    (Some "file") (Some "https://files/a.pdf") (Some "a.pdf") 200 "m1" st =
    (message 403 "Not a member of this group", st) ∧
  get_messages Sample.carol "g1" 50 0 st =
    inl (message 403 "Not a member of this group") ∧
  sent.1 = Response 200 [("id", JStr "m1");
                         ("message", JStr "Message sent successfully")] ∧
  (author <$> messages sent.2 !! ("g1", "m1")) = Some (User.uid Sample.carol) ∧
  (last_author <$> lastMessage sent.2 !! "g1") = Some (User.uid Sample.carol) ∧
  (∃ ms, get_messages Sample.carol "g1" 50 0 sent.2 = inr ms) ∧
  (∀ id', send_message default_settings Sample.carol "g1" (Some "see this")
            (Some "file") (Some "https://files/a.pdf") (Some "a.pdf") 300 id'
            gone = (message 403 "Not a member of this group", gone)) ∧
  get_messages Sample.carol "g1" 50 0 gone =
    inl (message 403 "Not a member of this group").
Proof.
  apply (messaging_follows_membership default_settings Sample.carol "g1" "m1"
           (Some "see this") (Some "file") (Some "https://files/a.pdf")
           (Some "a.pdf") 100 200 300 50 0 (Store Sample.store ∅ ∅)
           Sample.chess);
    [reflexivity
    | split; [apply (bool_decide_unpack _); reflexivity | discriminate]
    | by left | reflexivity | reflexivity | split; lia].
Defined.

End message_properties.
